(** * clime: the argument parser [ArgsParser]

    A shallow embedding of [ArgsParser] (constructor, [parse] and the
    closures [consumeFlags], [consumeToggleOrOption], [consumeOption],
    [consumeArgument], [castArgument]) together with the JavaScript
    built-ins the code relies on, followed by the properties of the
    parser. *)

From Stdlib Require Import ZArith NArith Ascii List Lia DecimalString.
From Stdlib Require String.
From Stdlib Require Import Floats.SpecFloat.
From stdpp Require Import base option list gmap strings sorting.

(** ** The JavaScript built-ins used by the parser *)

Module JS.

(** Strings are sequences of code units; the model keeps the code units
    below 256, which is what [string] holds.  [char_at i s] is [s[i]],
    [None] standing for [undefined]. *)
Definition char_at (i : nat) (s : string) : option ascii := String.get i s.

(** [s.substr(start)] for [0 <= start]. *)
Fixpoint substr (start : nat) (s : string) : string :=
  match start, s with
  | O, _ => s
  | S n, EmptyString => EmptyString
  | S n, String _ s' => substr n s'
  end.

(** The double quote, which the messages embed. *)
Definition dquote : string := String "034"%char EmptyString.

(** [String.prototype.toLowerCase] on code units below 256: A-Z and the
    Latin-1 capitals (all of 0xC0-0xDE but the multiplication sign). *)
Definition lower_char (c : ascii) : ascii :=
  let n := nat_of_ascii c in
  if ((65 <=? n) && (n <=? 90))%nat then ascii_of_nat (n + 32)
  else if ((192 <=? n) && (n <=? 222) && negb (n =? 215))%nat then ascii_of_nat (n + 32)
  else c.

Fixpoint toLowerCase (s : string) : string :=
  match s with
  | EmptyString => EmptyString
  | String c s' => String (lower_char c) (toLowerCase s')
  end.

(** [Array.prototype.join] on an array of strings. *)
Definition join (sep : string) (l : list string) : string := String.concat sep l.

(** A non-negative integer inside a template literal. *)
Definition string_of_nat (n : nat) : string :=
  DecimalString.NilZero.string_of_uint (Nat.to_uint n).

(** *** Numbers

    A Number is an IEEE 754 binary64 value: [spec_float] with 53 bits
    of precision and infinities at exponent 1024. *)
Definition number := spec_float.

Definition prec : Z := 53.
Definition emax : Z := 1024.

(** The binary64 value nearest (ties to even) to [m * 10 ^ e], signed. *)
Definition round_decimal (neg : bool) (m : N) (e : Z) : number :=
  match m with
  | N0 => S754_zero neg
  | Npos p =>
    if (0 <=? e)%Z then
      binary_normalize prec emax
        ((if neg then Z.neg p else Z.pos p) * 10 ^ e) 0 false
    else
      let d := (10 ^ (- e))%Z in
      let k := Z.max 0 (prec + 3 + Z.log2 d - Z.log2 (Z.pos p)) in
      let n := (Z.pos p * 2 ^ k)%Z in
      let q := (n / d)%Z in
      let r := (n mod d)%Z in
      let l := if (r =? 0)%Z then loc_Exact else loc_Inexact (2 * r ?= d)%Z in
      binary_round_aux prec emax neg q (- k) l
  end.

(** [StringToNumber]: the value of [Number(s)] for a string [s].  The
    string is trimmed of white space and line terminators; the empty
    string is [+0]; [0x], [0o] and [0b] literals are unsigned integers;
    a decimal literal has an optional sign, digits with an optional
    fraction (or a fraction alone) and an optional exponent, or is
    [Infinity]; anything else is [NaN]. *)
Definition is_whitespace (c : ascii) : bool :=
  let n := nat_of_ascii c in
  ((9 <=? n) && (n <=? 13) || (n =? 32) || (n =? 160))%nat.

Fixpoint trim_start (l : list ascii) : list ascii :=
  match l with
  | c :: l' => if is_whitespace c then trim_start l' else l
  | [] => []
  end.

Definition trim (l : list ascii) : list ascii :=
  rev (trim_start (rev (trim_start l))).

Definition digit_value (base : N) (c : ascii) : option N :=
  let n := N_of_ascii c in
  let v := if ((48 <=? n) && (n <=? 57))%N then Some (n - 48)%N
           else if ((97 <=? n) && (n <=? 102))%N then Some (n - 87)%N
           else if ((65 <=? n) && (n <=? 70))%N then Some (n - 55)%N
           else None in
  match v with
  | Some d => if (d <? base)%N then Some d else None
  | None => None
  end.

(** Reads the longest prefix of digits: the value accumulated onto
    [acc], the number of digits read and the rest. *)
Fixpoint read_digits (base acc : N) (count : nat) (l : list ascii)
  : N * nat * list ascii :=
  match l with
  | c :: l' =>
    match digit_value base c with
    | Some d => read_digits base (acc * base + d)%N (S count) l'
    | None => (acc, count, l)
    end
  | [] => (acc, count, [])
  end.

Definition nan : number := S754_nan.

Definition integer_literal (base : N) (l : list ascii) : number :=
  match read_digits base 0 0 l with
  | (v, S _, []) => binary_normalize prec emax (Z.of_N v) 0 false
  | _ => nan
  end.

(** [ExponentPart_opt] at the end of a decimal literal: the exponent. *)
Definition exponent_part (l : list ascii) : option Z :=
  match l with
  | [] => Some 0%Z
  | c :: l' =>
    if (Ascii.eqb c "e" || Ascii.eqb c "E")%char then
      let '(neg, ds) :=
        match l' with
        | "+"%char :: ds => (false, ds)
        | "-"%char :: ds => (true, ds)
        | _ => (false, l')
        end in
      match read_digits 10 0 0 ds with
      | (v, S _, []) => Some (if neg then (- Z.of_N v)%Z else Z.of_N v)
      | _ => None
      end
    else None
  end.

Definition unsigned_decimal (neg : bool) (l : list ascii) : number :=
  if decide (l = String.list_ascii_of_string "Infinity") then S754_infinity neg
  else
    let '(ip, ni, r1) := read_digits 10 0 0 l in
    let '(m, nf, r2) :=
      match r1 with
      | "."%char :: r => read_digits 10 ip 0 r
      | _ => (ip, O, r1)
      end in
    match (ni + nf)%nat, exponent_part r2 with
    | S _, Some e => round_decimal neg m (e - Z.of_nat nf)
    | _, _ => nan
    end.

Definition Number (s : string) : number :=
  match trim (String.list_ascii_of_string s) with
  | [] => S754_zero false
  | "0"%char :: c :: l =>
    if (Ascii.eqb c "x" || Ascii.eqb c "X")%char then integer_literal 16 l
    else if (Ascii.eqb c "o" || Ascii.eqb c "O")%char then integer_literal 8 l
    else if (Ascii.eqb c "b" || Ascii.eqb c "B")%char then integer_literal 2 l
    else unsigned_decimal false ("0"%char :: c :: l)
  | "+"%char :: l => unsigned_decimal false l
  | "-"%char :: l => unsigned_decimal true l
  | l => unsigned_decimal false l
  end.

(** [isNaN(n)] and [Boolean(n)] for a Number [n]. *)
Definition isNaN (n : number) : bool :=
  match n with S754_nan => true | _ => false end.

Definition Boolean (n : number) : bool :=
  match n with S754_zero _ | S754_nan => false | _ => true end.

End JS.

(** ** Objects used as hash tables

    [HashTable<T>] is a plain object, made by [{}] and keyed by strings.
    The model is the list of its own properties in creation order:
    assignment to an existing key keeps its place, a new key goes last,
    and [Object.keys] lists the array-index keys first, in ascending
    numeric order, then the others in creation order.

    Two names of [Object.prototype] behave in their own way, in the code
    and in the model.  [__proto__] is never an own property: assigning
    an object to it makes that object the prototype, which reading
    [__proto__] gives back, and assigning anything else does nothing.
    The pair with the key [__proto__], when the list has one, stands for
    the prototype so given; it is no own property.  [hasOwnProperty] is
    read as any property is, so that an own property of that name hides
    the method of [Object.prototype], and calling it throws a
    [TypeError], no value of a table being a function.

    The other properties of [Object.prototype] are data properties,
    which an assignment hides behind an own property, and a parser made
    by the constructor reads no key but an own property or [__proto__].
    An object that becomes a prototype is taken to be an ordinary one,
    with no accessor and no read-only property. *)

Module HashTable.

Abbreviation t V := (list (string * V)) (only parsing).

(** [typeof v] is ["object"] or ["function"]. *)
Class Typeof (V : Type) : Type := is_object : V → bool.

Definition empty {V} : t V := [].

(** [k] is a key of the list. *)
Definition member {V} (k : string) (h : t V) : bool :=
  bool_decide (k ∈ h.*1).

(** [k] is an own property of [h]. *)
Definition own {V} (k : string) (h : t V) : bool :=
  bool_decide (k ≠ "__proto__") && member k h.

(** [h.hasOwnProperty(k)], [None] standing for the [TypeError] of
    calling an own property [hasOwnProperty], which is no function. *)
Definition hasOwnProperty {V} (k : string) (h : t V) : option bool :=
  if own "hasOwnProperty" h then None else Some (own k h).

(** [h[k]] for a key that is an own property, and for [__proto__] the
    prototype [h] was given; [None] stands for [undefined], and at
    [__proto__] for [Object.prototype]. *)
Fixpoint get {V} (k : string) (h : t V) : option V :=
  match h with
  | [] => None
  | (k', v) :: h' => if decide (k' = k) then Some v else get k h'
  end.

(** The pair of [k] made, or updated where it is. *)
Fixpoint assign {V} (k : string) (v : V) (h : t V) : t V :=
  match h with
  | [] => [(k, v)]
  | (k', v') :: h' =>
    if decide (k' = k) then (k', v) :: h' else (k', v') :: assign k v h'
  end.

(** The assignment [h[k] = v] takes: any does but that of no object to
    [__proto__]. *)
Definition takes `{Typeof V} (k : string) (v : V) : bool :=
  bool_decide (k ≠ "__proto__") || is_object v.

(** [h[k] = v] *)
Definition set `{Typeof V} (k : string) (v : V) (h : t V) : t V :=
  if takes k v then assign k v h else h.

(** [delete h[k]] *)
Definition delete {V} (k : string) (h : t V) : t V :=
  if decide (k = "__proto__") then h else filter (λ kv, kv.1 ≠ k) h.

(** A key is an array index when it is the canonical decimal form of an
    integer below 2^32 - 1. *)
Definition array_index (k : string) : option N :=
  match String.list_ascii_of_string k with
  | [] => None
  | c :: l =>
    if decide (c = "0"%char ∧ l ≠ []) then None
    else match JS.read_digits 10 0 0 (c :: l) with
         | (v, _, []) => if (v <? 4294967295)%N then Some v else None
         | _ => None
         end
  end.

Definition index_le (a b : N * string) : Prop := (a.1 ≤ b.1)%N.

#[global] Instance index_le_dec a b : Decision (index_le a b) :=
  N.le_dec a.1 b.1.

(** [Object.keys(h)] *)
Definition keys {V} (h : t V) : list string :=
  let ks := filter (λ k, k ≠ "__proto__") h.*1 in
  (merge_sort index_le
     (omap (λ k, (λ i, (i, k)) <$> array_index k) ks)).*2
  ++ filter (λ k, array_index k = None) ks.

End HashTable.

(** ** The data model *)

(** A value of type [any]: [undefined], a string, a Number, a boolean,
    or a reference to some other object. *)
Inductive value : Type :=
  | VUndefined
  | VString (s : string)
  | VNumber (n : JS.number)
  | VBoolean (b : bool)
  | VObject (ref : positive).

#[global] Instance value_typeof : HashTable.Typeof value :=
  λ v, match v with VObject _ => true | _ => false end.

#[global] Instance string_typeof : HashTable.Typeof string := λ _, false.

#[global] Instance bool_typeof : HashTable.Typeof bool := λ _, false.

Record Context : Type := { cwd : string; commands : list string }.

(** [Constructor<any>], the declared type of a parameter or an option:
    the built-in [String], [Number] and [Boolean], a constructor with a
    static [cast(source, context)], or any other constructor. *)
Module Constructor.
Inductive t : Type :=
  | String
  | Number
  | Boolean
  | Castable (cast : string → Context → value)
  | Other.
End Constructor.

(** Modelled from the spec: [isStringCastable] of [./object], which is
    not among the sources: a type is custom castable when it exposes a
    cast operation taking the raw token and the context. *)
Definition isStringCastable (type : Constructor.t) : bool :=
  match type with Constructor.Castable _ => true | _ => false end.

(** Modelled from the spec: the interfaces [ParamDefinition],
    [ParamsDefinition] and [OptionDefinition] of [./command], which is
    not among the sources, with the fields the parser reads; an absent
    [required] or [toggle] is [false], an absent [default] is
    [undefined]. *)
Module ParamDefinition.
Record t : Type := make {
  name : string;
  type : Constructor.t;
  default : value
}.
End ParamDefinition.

Module ParamsDefinition.
Record t : Type := make {
  name : string;
  type : Constructor.t;
  required : bool;
  default : value
}.
End ParamsDefinition.

Module OptionDefinition.
Record t : Type := make {
  name : string;
  flag : option string;
  type : Constructor.t;
  required : bool;
  toggle : bool;
  default : value
}.
End OptionDefinition.

(** A definition is an object. *)
#[global] Instance definition_typeof : HashTable.Typeof OptionDefinition.t :=
  λ _, true.

(** A [HelpProvider] is only held by the parser and handed on to the
    errors it throws: a reference. *)
Definition HelpProvider : Type := positive.

Module UsageError.
Record t : Type := make { helpProvider : HelpProvider; message : string }.
End UsageError.

(** What a call can throw: a [UsageError], or the [TypeError] of the
    language on reading a property of [undefined]. *)
Inductive Exception : Type :=
  | EUsageError (e : UsageError.t)
  | ETypeError.

Module ParsedArgs.
Record t : Type := make {
  args : option (list value);
  extraArgs : option (list value);
  options : option (HashTable.t value);
  context : option Context;
  help : option bool
}.
End ParsedArgs.

(** ** The parser instance *)

Module ArgsParser.
Record t : Type := make {
  helpProvider : HelpProvider;
  paramDefinitions : option (list ParamDefinition.t);
  paramsDefinition : option ParamsDefinition.t;
  optionDefinitions : option (list OptionDefinition.t);
  requiredParamsNumber : nat;
  optionDefinitionMap : option (HashTable.t OptionDefinition.t);
  optionFlagMapping : option (HashTable.t string)
}.
End ArgsParser.

(** [if (flag)]: a string is truthy when it is not empty. *)
Definition truthy_flag (flag : option string) : option string :=
  match flag with
  | Some EmptyString | None => None
  | Some f => Some f
  end.

(** The body of the constructor's loop over the option definitions. *)
Definition register_option
    (maps : HashTable.t OptionDefinition.t * HashTable.t string)
    (definition : OptionDefinition.t)
  : HashTable.t OptionDefinition.t * HashTable.t string :=
  let name := OptionDefinition.name definition in
  let optionDefinitionMap := HashTable.set name definition maps.1 in
  match truthy_flag (OptionDefinition.flag definition) with
  | Some flag => (optionDefinitionMap, HashTable.set flag name maps.2)
  | None => (optionDefinitionMap, maps.2)
  end.

(** [new ArgsParser(helpProvider, paramDefinitions, paramsDefinition,
    optionDefinitions, requiredParamsNumber)] *)
Definition new_ArgsParser
    (helpProvider : HelpProvider)
    (paramDefinitions : option (list ParamDefinition.t))
    (paramsDefinition : option ParamsDefinition.t)
    (optionDefinitions : option (list OptionDefinition.t))
    (requiredParamsNumber : nat) : ArgsParser.t :=
  let maps :=
    (λ definitions,
      foldl register_option (HashTable.empty, HashTable.empty) definitions)
    <$> optionDefinitions in
  ArgsParser.make helpProvider paramDefinitions paramsDefinition
    optionDefinitions requiredParamsNumber (fst <$> maps) (snd <$> maps).

(** ** The store

    Token arrays ([string[]]) live in a heap and are passed by reference;
    the parser instance is part of the store as well.  These outlive a
    call of [parse]. *)

Abbreviation loc := positive (only parsing).

Record World : Type := {
  arrays : gmap loc (list string);
  self : ArgsParser.t
}.

(** The variables of one call of [parse], which its closures capture:
    [args] refers to an array of the heap, the others hold objects the
    call creates. *)
Record State : Type := {
  world : World;
  args : loc;
  commandArgs : list value;
  commandOptions : option (HashTable.t value);
  commandExtraArgs : list value;
  requiredOptionMap : option (HashTable.t bool);
  context : Context;
  pendingParamDefinitions : list ParamDefinition.t
}.

Definition set_array (l : loc) (a : list string) (st : State) : State :=
  {| world := {| arrays := <[l := a]> (arrays (world st));
                 self := self (world st) |};
     args := args st; commandArgs := commandArgs st;
     commandOptions := commandOptions st;
     commandExtraArgs := commandExtraArgs st;
     requiredOptionMap := requiredOptionMap st; context := context st;
     pendingParamDefinitions := pendingParamDefinitions st |}.

Definition set_commandArgs (v : list value) (st : State) : State :=
  {| world := world st; args := args st; commandArgs := v;
     commandOptions := commandOptions st;
     commandExtraArgs := commandExtraArgs st;
     requiredOptionMap := requiredOptionMap st; context := context st;
     pendingParamDefinitions := pendingParamDefinitions st |}.

Definition set_commandOptions (v : option (HashTable.t value)) (st : State)
  : State :=
  {| world := world st; args := args st; commandArgs := commandArgs st;
     commandOptions := v;
     commandExtraArgs := commandExtraArgs st;
     requiredOptionMap := requiredOptionMap st; context := context st;
     pendingParamDefinitions := pendingParamDefinitions st |}.

Definition set_commandExtraArgs (v : list value) (st : State) : State :=
  {| world := world st; args := args st; commandArgs := commandArgs st;
     commandOptions := commandOptions st;
     commandExtraArgs := v;
     requiredOptionMap := requiredOptionMap st; context := context st;
     pendingParamDefinitions := pendingParamDefinitions st |}.

Definition set_requiredOptionMap (v : option (HashTable.t bool)) (st : State)
  : State :=
  {| world := world st; args := args st; commandArgs := commandArgs st;
     commandOptions := commandOptions st;
     commandExtraArgs := commandExtraArgs st;
     requiredOptionMap := v; context := context st;
     pendingParamDefinitions := pendingParamDefinitions st |}.

Definition set_pendingParamDefinitions (v : list ParamDefinition.t)
    (st : State) : State :=
  {| world := world st; args := args st; commandArgs := commandArgs st;
     commandOptions := commandOptions st;
     commandExtraArgs := commandExtraArgs st;
     requiredOptionMap := requiredOptionMap st; context := context st;
     pendingParamDefinitions := v |}.

(** ** Computations: state and exceptions

    A computation runs on the state and completes normally, throws, or
    runs out of the fuel given to the [while] loop.  The state survives a
    throw, as a mutated object does. *)

Inductive Completion (A : Type) : Type :=
  | Normal (a : A)
  | Throw (e : Exception)
  | Timeout.
Arguments Normal {A} a.
Arguments Throw {A} e.
Arguments Timeout {A}.

Definition M (A : Type) : Type := State → Completion A * State.

#[global] Instance M_ret : MRet M := λ A a st, (Normal a, st).

#[global] Instance M_bind : MBind M := λ A B f m st,
  match m st with
  | (Normal a, st') => f a st'
  | (Throw e, st') => (Throw e, st')
  | (Timeout, st') => (Timeout, st')
  end.

Definition gets {A} (f : State → A) : M A := λ st, (Normal (f st), st).
Definition modify (f : State → State) : M unit := λ st, (Normal (), f st).
Definition throw {A} (e : Exception) : M A := λ st, (Throw e, st).
Definition timeout {A} : M A := λ st, (Timeout, st).

(** [throw new UsageError(that.helpProvider, message)] *)
Definition throw_UsageError {A} (message : string) : M A :=
  helpProvider ← gets (λ st, ArgsParser.helpProvider (self (world st)));
  throw (EUsageError (UsageError.make helpProvider message)).

(** Reading a property of [undefined]: a [TypeError]. *)
Definition defined {A} (o : option A) : M A :=
  match o with
  | Some a => mret a
  | None => throw ETypeError
  end.

(** [args.length] and [args.shift()], on the array [args] refers to. *)
Definition args_length : M nat :=
  a ← gets (λ st, arrays (world st) !! args st);
  a ← defined a;
  mret (length a).

Definition args_shift : M (option string) :=
  l ← gets args;
  a ← gets (λ st, arrays (world st) !! l);
  a ← defined a;
  match a with
  | [] => mret None
  | arg :: rest => modify (set_array l rest);; mret (Some arg)
  end.

(** ** The closures of [parse] *)

(** [type.cast], for a type that has it. *)
Definition cast_of (type : Constructor.t)
  : option (string → Context → value) :=
  match type with Constructor.Castable cast => Some cast | _ => None end.

Definition castArgument (arg : string) (type : Constructor.t) : M value :=
  match type with
  | Constructor.String => mret (VString arg)
  | Constructor.Number => mret (VNumber (JS.Number arg))
  | Constructor.Boolean =>
    if decide (JS.toLowerCase arg = "false") then mret (VBoolean false)
    else
      let n := JS.Number arg in
      mret (if JS.isNaN n then VBoolean true else VBoolean (JS.Boolean n))
  | _ =>
    if isStringCastable type then
      cast ← defined (cast_of type);
      context ← gets context;
      mret (cast arg context)
    else mret VUndefined
  end.

(** [arg[0] === '-'] *)
Definition starts_with_dash (arg : string) : bool :=
  bool_decide (JS.char_at 0 arg = Some "-"%char).

Definition consumeOption (name : string) (definition : OptionDefinition.t)
  : M unit :=
  arg ← args_shift;
  match arg with
  | None =>
    throw_UsageError ("Expecting value for option `" +:+ name +:+ "`")
  | Some arg =>
    if starts_with_dash arg then
      throw_UsageError
        ("Expecting a value instead of an option or toggle " +:+ JS.dquote
         +:+ arg +:+ JS.dquote +:+ " for option `" +:+ name +:+ "`")
    else
      v ← castArgument arg (OptionDefinition.type definition);
      commandOptions ← gets commandOptions;
      commandOptions ← defined commandOptions;
      modify (set_commandOptions (Some (HashTable.set name v commandOptions)))
  end.

(** [if (definition.required) delete requiredOptionMap[name]] *)
Definition satisfy_required (name : string) (definition : OptionDefinition.t)
  : M unit :=
  if OptionDefinition.required definition then
    requiredOptionMap ← gets requiredOptionMap;
    requiredOptionMap ← defined requiredOptionMap;
    modify (set_requiredOptionMap (Some (HashTable.delete name requiredOptionMap)))
  else mret ().

(** [commandOptions[name] = true] *)
Definition set_toggle (name : string) : M unit :=
  commandOptions ← gets commandOptions;
  commandOptions ← defined commandOptions;
  modify (set_commandOptions
    (Some (HashTable.set name (VBoolean true) commandOptions))).

(** The loop of [consumeFlags] from index [i] on, on [flags.substr(i)]:
    [flag] is [flags[i]], and [i] is [flags.length - 1] when nothing
    follows it. *)
Fixpoint consumeFlags (flags : string) : M unit :=
  match flags with
  | EmptyString => mret ()
  | String c rest =>
    let flag := String c EmptyString in
    optionFlagMapping ← gets (λ st, ArgsParser.optionFlagMapping (self (world st)));
    match optionFlagMapping with
    | Some optionFlagMapping =>
      known ← defined (HashTable.hasOwnProperty flag optionFlagMapping);
      if known : bool then
        name ← defined (HashTable.get flag optionFlagMapping);
        optionDefinitionMap ←
          gets (λ st, ArgsParser.optionDefinitionMap (self (world st)));
        optionDefinitionMap ← defined optionDefinitionMap;
        definition ← defined (HashTable.get name optionDefinitionMap);
        satisfy_required name definition;;
        (if OptionDefinition.toggle definition then set_toggle name
         else
           match rest with
           | EmptyString => consumeOption name definition
           | _ =>
             throw_UsageError
               "Only the last flag in a sequence can refer to an option instead of a toggle"
           end);;
        consumeFlags rest
      else
        throw_UsageError
          ("Unknown option flag " +:+ JS.dquote +:+ flag +:+ JS.dquote)
    | None =>
      throw_UsageError
        ("Unknown option flag " +:+ JS.dquote +:+ flag +:+ JS.dquote)
    end
  end.

Definition consumeToggleOrOption (name : string) : M unit :=
  optionDefinitionMap ←
    gets (λ st, ArgsParser.optionDefinitionMap (self (world st)));
  match optionDefinitionMap with
  | Some optionDefinitionMap =>
    known ← defined (HashTable.hasOwnProperty name optionDefinitionMap);
    if known : bool then
      definition ← defined (HashTable.get name optionDefinitionMap);
      satisfy_required name definition;;
      if OptionDefinition.toggle definition then set_toggle name
      else consumeOption name definition
    else throw_UsageError ("Unknown option `" +:+ name +:+ "`")
  | None => throw_UsageError ("Unknown option `" +:+ name +:+ "`")
  end.

(** [paramsType = paramsDefinition && paramsDefinition.type] *)
Definition paramsType (st : State) : option Constructor.t :=
  ParamsDefinition.type <$> ArgsParser.paramsDefinition (self (world st)).

Definition consumeArgument (arg : string) : M unit :=
  pending ← gets pendingParamDefinitions;
  match pending with
  | definition :: pending' =>
    modify (set_pendingParamDefinitions pending');;
    v ← castArgument arg (ParamDefinition.type definition);
    commandArgs ← gets commandArgs;
    modify (set_commandArgs (commandArgs ++ [v]))
  | [] =>
    paramsType ← gets paramsType;
    v ← match paramsType with
        | Some type => castArgument arg type
        | None => mret (VString arg)
        end;
    commandExtraArgs ← gets commandExtraArgs;
    modify (set_commandExtraArgs (commandExtraArgs ++ [v]))
  end.

(** ** [parse] *)

(** [/^(?:-[h?]|--help)$/.test(arg)] *)
Definition is_help (arg : string) : bool :=
  bool_decide (arg = "-h" ∨ arg = "-?" ∨ arg = "--help").

Definition help_result : ParsedArgs.t :=
  ParsedArgs.make None None None None (Some true).

(** The body of the [while] loop once [arg] is shifted off: [Some]
    result when it returns from [parse]. *)
Definition dispatch (arg : string) : M (option ParsedArgs.t) :=
  if is_help arg then mret (Some help_result)
  else
    (if starts_with_dash arg then
       if bool_decide (JS.char_at 1 arg = Some "-"%char)
       then consumeToggleOrOption (JS.substr 2 arg)
       else consumeFlags (JS.substr 1 arg)
     else consumeArgument arg);;
    mret None.

(** One turn of the [while] loop, after [args.length] was found
    non-zero. *)
Definition turn : M (option ParsedArgs.t) :=
  arg ← args_shift;
  arg ← defined arg;
  dispatch arg.

(** [while (args.length) { ... }]: every turn shifts [args], so that
    [args.length] turns and the last test are all there can be. *)
Fixpoint while_args (fuel : nat) : M (option ParsedArgs.t) :=
  match fuel with
  | O => timeout
  | S fuel =>
    n ← args_length;
    match n with
    | O => mret None
    | S _ =>
      r ← turn;
      match r with
      | Some result => mret (Some result)
      | None => while_args fuel
      end
    end
  end.

Definition loop : M (option ParsedArgs.t) :=
  n ← args_length;
  while_args (S n).

(** [this.paramDefinitions || []] *)
Definition paramDefinitions (st : State) : list ParamDefinition.t :=
  default [] (ArgsParser.paramDefinitions (self (world st))).

Definition quote (name : string) : string := "`" +:+ name +:+ "`".

(** The statements of [parse] after the [while] loop, block by block:
    the check of the required parameters, *)
Definition check_required_params : M unit :=
  expecting ← gets (λ st, ArgsParser.requiredParamsNumber (self (world st)));
  got ← gets (λ st, length (commandArgs st));
  if got <? expecting then
    pending ← gets pendingParamDefinitions;
    let missingArgNames :=
      (λ definition, quote (ParamDefinition.name definition))
      <$> take (expecting - got) pending in
    throw_UsageError
      ("Expecting argument(s) " +:+ JS.join ", " missingArgNames)
  else mret ().

(** the check of the required options, *)
Definition check_required_options : M unit :=
  requiredOptionMap ← gets requiredOptionMap;
  match HashTable.keys <$> requiredOptionMap with
  | Some (name :: names) =>
    throw_UsageError
      ("Missing required option(s) `" +:+ JS.join "`, `" (name :: names)
       +:+ "`")
  | _ => mret ()
  end.

(** the defaults of the parameters left pending, *)
Definition fill_defaults : M unit :=
  pending ← gets pendingParamDefinitions;
  commandArgs ← gets commandArgs;
  modify (set_commandArgs
    (commandArgs ++ (ParamDefinition.default <$> pending))).

(** the check of the extra arguments and of the variadic parameter, *)
Definition check_extra : M unit :=
  commandExtraArgs ← gets commandExtraArgs;
  paramsDefinition ← gets (λ st, ArgsParser.paramsDefinition (self (world st)));
  match commandExtraArgs, paramsDefinition with
  | _ :: _, None =>
    expecting ← gets (λ st, length (paramDefinitions st));
    let got := length commandExtraArgs + expecting in
    throw_UsageError
      ("Expecting " +:+ JS.string_of_nat expecting
       +:+ " parameter(s) at most but got " +:+ JS.string_of_nat got
       +:+ " instead")
  | _ :: _, Some _ => mret ()
  | [], Some definition =>
    if ParamsDefinition.required definition then
      throw_UsageError
        ("Expecting at least one element for variadic parameters `"
         +:+ ParamsDefinition.name definition +:+ "`")
    else mret ()
  | [], None => mret ()
  end.

(** and the result. *)
Definition result : M ParsedArgs.t :=
  commandArgs ← gets commandArgs;
  commandExtraArgs ← gets commandExtraArgs;
  commandOptions ← gets commandOptions;
  context ← gets context;
  mret (ParsedArgs.make (Some commandArgs) (Some commandExtraArgs)
          commandOptions (Some context) None).

Definition finish : M ParsedArgs.t :=
  check_required_params;;
  check_required_options;;
  fill_defaults;;
  check_extra;;
  result.

(** The body of the loop of [parse] over the option definitions. *)
Definition declare_option
    (tables : HashTable.t value * HashTable.t bool)
    (definition : OptionDefinition.t)
  : HashTable.t value * HashTable.t bool :=
  let name := OptionDefinition.name definition in
  let requiredOptionMap :=
    if OptionDefinition.required definition
    then HashTable.set name true tables.2 else tables.2 in
  let commandOptions :=
    HashTable.set name
      (if OptionDefinition.toggle definition then VBoolean false
       else OptionDefinition.default definition) tables.1 in
  (commandOptions, requiredOptionMap).

(** The state of a call once the declarations before the loop are done:
    [args] refers to the copy [args.concat()], found at [l]. *)
Definition enter (sequence : list string) (l : loc) (cwd : string)
    (w : World) : State :=
  let tables :=
    (λ definitions,
      foldl declare_option (HashTable.empty, HashTable.empty) definitions)
    <$> ArgsParser.optionDefinitions (self w) in
  {| world := w;
     args := l;
     commandArgs := [];
     commandOptions := fst <$> tables;
     commandExtraArgs := [];
     requiredOptionMap := snd <$> tables;
     context := {| cwd := cwd; commands := sequence |};
     pendingParamDefinitions := default [] (ArgsParser.paramDefinitions (self w)) |}.

(** [args.concat()]: a new array with the elements of the one at [a],
    at a location not in use. *)
Definition concat (a : loc) (w : World) : option (loc * World) :=
  tokens ← arrays w !! a;
  let l := fresh (dom (arrays w)) in
  Some (l, {| arrays := <[l := tokens]> (arrays w); self := self w |}).

(** The statements of [parse] from the loop on. *)
Definition body : M ParsedArgs.t :=
  r ← loop;
  match r with
  | Some result => mret result
  | None => finish
  end.

(** [parser.parse(sequence, args, cwd)], the parser being [self] of the
    store and [args] a reference to the caller's array of tokens. *)
Definition parse (sequence : list string) (args : loc) (cwd : string)
    (w : World) : Completion ParsedArgs.t * World :=
  match concat args w with
  | None => (Throw ETypeError, w)
  | Some (l, w') =>
    let '(c, st) := body (enter sequence l cwd w') in
    (c, world st)
  end.

(** ** The command line interface: [CLI]

    [CLI] finds the module of a command from the leading tokens of
    [argv] and hands the tokens behind them to the parser of that
    command. *)

(** [[\w\d]]: a digit, a letter or the underscore. *)
Definition is_word (c : ascii) : bool :=
  let n := nat_of_ascii c in
  ((48 <=? n) && (n <=? 57)) || ((65 <=? n) && (n <=? 90))
  || (n =? 95) || ((97 <=? n) && (n <=? 122)).

(** The match of [[\w\d]+(?:-[\w\d]+)*$] from some place of the string
    on, read from left to right: [word] tells whether the character
    before is one of [[\w\d]], after which the end or a hyphen may
    come; after a hyphen, and at the start, only one of [[\w\d]]
    may. *)
Fixpoint matches_from (word : bool) (arg : string) : bool :=
  match arg with
  | EmptyString => word
  | String c rest =>
    if is_word c then matches_from true rest
    else if word && bool_decide (c = "-"%char) then matches_from false rest
    else false
  end.

(** [validCommandNameRegex.test(arg)], for
    [/^[\w\d]+(?:-[\w\d]+)*$/] *)
Definition validCommandNameRegex_test (arg : string) : bool :=
  matches_from false arg.

(** An argument of [execute], of type [any]: [undefined], a value, the
    array of the extra values, the object of the options, or the
    context. *)
Inductive any : Type :=
  | AnyUndefined
  | AnyValue (v : value)
  | AnyArray (vs : list value)
  | AnyOptions (options : HashTable.t value)
  | AnyContext (context : Context).

(** Modelled from the spec: the class [Command] of [./command], which
    is not among the sources, with the static fields [loadCommand]
    reads: the schema the decorators record, and [execute], taken as a
    function of its arguments.  The class itself is the help provider of
    its parser: a reference. *)
Module Command.
Record t : Type := make {
  ref : HelpProvider;
  paramDefinitions : option (list ParamDefinition.t);
  paramsDefinition : option ParamsDefinition.t;
  optionDefinitions : option (list OptionDefinition.t);
  requiredParamsNumber : nat;
  execute : list any → value
}.
End Command.

(** Modelled from the spec: [HelpInfo] of [./command], which is not
    among the sources and whose text is no concern here: a help stands
    for the call that builds it, [HelpInfo.build(dir, description)] or
    [TargetCommand.getHelp()] with the [path] and [sequence] set on the
    class. *)
Inductive HelpInfo : Type :=
  | HelpInfo_build (dir : string) (description : option string)
  | Command_getHelp (command : HelpProvider) (path : string)
      (sequence : list string).

(** What [module.default || module] is for a module: its [description],
    and the command class when its prototype is an instance of
    [Command]. *)
Module Exported.
Record t : Type := make {
  description : option string;
  command : option Command.t
}.
End Exported.

(** What [CLI] uses of Node: [FS.existsSync], [FS.statSync(path).isFile()],
    [None] when [statSync] throws, the functions of [path], and
    [require], [None] when loading the module throws. *)
Class Node : Type := {
  FS_existsSync : string → bool;
  FS_statSync_isFile : string → option bool;
  Path_resolve : string → string;
  Path_join : string → string → string;
  Path_basename : string → string;
  Path_dirname : string → string;
  require : string → option Exported.t
}.

Module CLI.
Record t : Type := make {
  name : string;
  root : string;
  description : option string
}.
End CLI.

(** [new CLI(name, root)] *)
Definition new_CLI `{Node} (name root : string) : CLI.t :=
  CLI.make name (Path_resolve root) None.

(** What [CLI] throws: what the parser throws, a help, or what
    [require] or [FS.statSync] throws on a path. *)
Inductive Thrown : Type :=
  | ThrownException (e : Exception)
  | ThrownHelp (help : HelpInfo)
  | ThrownByModule (path : string)
  | ThrownByStat (path : string).

(** The variables of the loop of [preProcessArguments]. *)
Module Walk.
Record t : Type := make {
  commands : list string;
  searchPath : string;
  argsIndex : nat;
  targetPath : string
}.
End Walk.

Definition possiblePaths `{Node} (searchPath : string) : list string :=
  [searchPath +:+ ".js"; Path_join searchPath "default.js"; searchPath].

(** The loop [outer] of [preProcessArguments] from the index [i] on,
    [rest] being [argv.slice(i)]. *)
Fixpoint search `{Node} (rest : list string) (i : nat) (s : Walk.t)
  : Walk.t :=
  match rest with
  | [] => s
  | arg :: rest' =>
    if validCommandNameRegex_test arg then
      let searchPath := Path_join (Walk.searchPath s) arg in
      match List.find FS_existsSync (possiblePaths searchPath) with
      | Some possiblePath =>
        search rest' (S i)
          (Walk.make (Walk.commands s ++ [arg]) searchPath (S i)
             possiblePath)
      | None =>
        let s' :=
          Walk.make (Walk.commands s) searchPath (Walk.argsIndex s)
            (Walk.targetPath s) in
        if negb (FS_existsSync searchPath) then s'
        else search rest' (S i) s'
      end
    else s
  end.

(** What [preProcessArguments] returns. *)
Module Processed.
Record t : Type := make {
  commands : list string;
  args : list string;
  path : string
}.
End Processed.

(** [this.preProcessArguments(argv)]: what it returns, and [this] with
    the description it may have set. *)
Definition preProcessArguments `{Node} (this : CLI.t) (argv : list string)
  : Thrown + Processed.t * CLI.t :=
  let entryPath := Path_join (CLI.root this) "default.js" in
  let run targetPath this' :=
    let s :=
      search (drop 2 argv) 2
        (Walk.make [CLI.name this] (CLI.root this) 2 targetPath) in
    inr (Processed.make (Walk.commands s)
           (drop (Walk.argsIndex s) argv) (Walk.targetPath s), this') in
  if FS_existsSync entryPath then
    match require entryPath with
    | Some object =>
      run entryPath
        (CLI.make (CLI.name this) (CLI.root this)
           (Exported.description object))
    | None => inl (ThrownByModule entryPath)
    end
  else run (CLI.root this) this.

(** How a call of [loadCommand] completes. *)
Inductive Outcome (A : Type) : Type :=
  | Returned (a : A)
  | Raised (e : Thrown)
  | OutOfFuel.
Arguments Returned {A} a.
Arguments Raised {A} e.
Arguments OutOfFuel {A}.

(** What [loadCommand] returns: a help, what [execute] returns, or
    [undefined]. *)
Inductive Reply : Type :=
  | ReplyHelp (help : HelpInfo)
  | ReplyResult (v : value)
  | ReplyUndefined.

Definition any_of {A} (f : A → any) (o : option A) : any :=
  match o with Some a => f a | None => AnyUndefined end.

(** [executeMethodArgs], [None] when [commandArgs] is [undefined]. *)
Definition executeMethodArgs (command : Command.t) (r : ParsedArgs.t)
  : option (list any) :=
  commandArgs ← ParsedArgs.args r;
  Some ((AnyValue <$> commandArgs)
        ++ match Command.paramsDefinition command with
           | Some _ => [any_of AnyArray (ParsedArgs.extraArgs r)]
           | None => []
           end
        ++ match Command.optionDefinitions command with
           | Some _ => [any_of AnyOptions (ParsedArgs.options r)]
           | None => []
           end
        ++ [any_of AnyContext (ParsedArgs.context r)]).

(** [if (help)] *)
Definition help_requested (r : ParsedArgs.t) : bool :=
  match ParsedArgs.help r with Some true => true | _ => false end.

(** [this.loadCommand(path, sequence, args, cwd)]: the parser it makes
    takes the place of [self] in the store. *)
Definition loadCommand `{Node} (path : string) (sequence : list string)
    (args : loc) (cwd : string) (w : World) : Outcome Reply * World :=
  match require path with
  | None => (Raised (ThrownByModule path), w)
  | Some TargetCommand =>
    match Exported.command TargetCommand with
    | Some command =>
      let argsParser :=
        new_ArgsParser (Command.ref command)
          (Command.paramDefinitions command)
          (Command.paramsDefinition command)
          (Command.optionDefinitions command)
          (Command.requiredParamsNumber command) in
      let '(c, w') :=
        parse sequence args cwd {| arrays := arrays w; self := argsParser |} in
      match c with
      | Normal r =>
        if help_requested r then
          (Returned
             (ReplyHelp (Command_getHelp (Command.ref command) path sequence)),
           w')
        else
          match executeMethodArgs command r with
          | Some executeMethodArgs =>
            (Returned
               (ReplyResult (Command.execute command executeMethodArgs)), w')
          | None => (Raised (ThrownException ETypeError), w')
          end
      | Throw e => (Raised (ThrownException e), w')
      | Timeout => (OutOfFuel, w')
      end
    | None =>
      if decide (Path_basename path = "default.js") then
        (Raised
           (ThrownHelp
              (HelpInfo_build (Path_dirname path)
                 (Exported.description TargetCommand))), w)
      else (Returned ReplyUndefined, w)
    end
  end.

(** [this.getHelp()] *)
Definition getHelp (this : CLI.t) : HelpInfo :=
  HelpInfo_build (CLI.root this) None.

(** [argv.slice(argsIndex)] as [loadCommand] gets it: a new array that
    holds [tokens], at a location not in use. *)
Definition slice (tokens : list string) (w : World) : loc * World :=
  let l := fresh (dom (arrays w)) in
  (l, {| arrays := <[l := tokens]> (arrays w); self := self w |}).

(** The function [this.execute(argv, cwd)] hands to [Promise.then]: how
    it completes is how the promise is settled.  [argv] is only read. *)
Definition execute `{Node} (this : CLI.t) (argv : list string)
    (cwd : string) (w : World) : Outcome Reply * CLI.t * World :=
  match preProcessArguments this argv with
  | inl e => (Raised e, this, w)
  | inr (r, this') =>
    let path := Processed.path r in
    if decide (path = EmptyString) then
      (Raised (ThrownHelp (getHelp this')), this', w)
    else
      match FS_statSync_isFile path with
      | None => (Raised (ThrownByStat path), this', w)
      | Some true =>
        let '(args, w1) := slice (Processed.args r) w in
        let '(o, w2) :=
          loadCommand path (Processed.commands r) args cwd w1 in
        (o, this', w2)
      | Some false =>
        (Raised (ThrownHelp (HelpInfo_build path None)), this', w)
      end
  end.

(** ** Notions used in the statements *)

Definition is_normal {A} (c : Completion A) : Prop :=
  match c with Normal _ => True | _ => False end.

(** The tokens left in the array [args] refers to. *)
Definition tokens (st : State) : option (list string) :=
  arrays (world st) !! args st.

(** *** What a computation leaves alone

    A step from [st] to [st'] keeps the parser, the reference [args] and
    the context, touches no array but the one [args] refers to, and of
    that one it only drops leading tokens. *)

Record frame_step (st st' : State) : Prop := {
  fs_self : self (world st') = self (world st);
  fs_args : args st' = args st;
  fs_context : context st' = context st;
  fs_others : ∀ l, l ≠ args st →
    arrays (world st') !! l = arrays (world st) !! l;
  fs_tokens : ∀ ts, tokens st = Some ts →
    ∃ ts', tokens st' = Some ts' ∧ ts' `suffix_of` ts;
  fs_undefined : tokens st = None → arrays (world st') = arrays (world st)
}.

Definition frames {A} (m : M A) : Prop :=
  ∀ st c st', m st = (c, st') → frame_step st st'.

(** *** What a computation depends on

    Two states are related when they agree on the parser and on the
    variables of the call, and the tokens left in the second are those
    left in the first followed by [suf].  Which array [args] refers to,
    and what else the heap holds, is not compared. *)

Record rel (suf : list string) (st1 st2 : State) : Prop := {
  rel_self : self (world st1) = self (world st2);
  rel_commandArgs : commandArgs st1 = commandArgs st2;
  rel_commandOptions : commandOptions st1 = commandOptions st2;
  rel_commandExtraArgs : commandExtraArgs st1 = commandExtraArgs st2;
  rel_requiredOptionMap : requiredOptionMap st1 = requiredOptionMap st2;
  rel_context : context st1 = context st2;
  rel_pendingParamDefinitions :
    pendingParamDefinitions st1 = pendingParamDefinitions st2;
  rel_tokens : ∃ ts, tokens st1 = Some ts ∧ tokens st2 = Some (ts ++ suf)
}.

(** A computation respects the relation when, run on related states, it
    completes alike and leaves related states; with tokens appended to
    the second state this is asked of normal completions only. *)
Definition respects {A} (m : M A) : Prop :=
  ∀ suf st1 st2 c st1',
    rel suf st1 st2 → m st1 = (c, st1') → suf = [] ∨ is_normal c →
    ∃ st2', m st2 = (c, st2') ∧ rel suf st1' st2'.

(** The loop of a call of [parse] on the tokens [ts], by a parser
    [this]: how it completes and the state it leaves. *)
Definition consume (sequence : list string) (cwd : string)
    (this : ArgsParser.t) (ts : list string)
  : Completion (option ParsedArgs.t) * State :=
  loop (enter sequence 1%positive cwd
          {| arrays := {[1%positive := ts]}; self := this |}).

(** What [parse] returns or throws once its loop has completed as
    [p]. *)
Definition outcome (p : Completion (option ParsedArgs.t) * State)
  : Completion ParsedArgs.t :=
  match p with
  | (Normal (Some result), _) => Normal result
  | (Normal None, st) => (finish st).1
  | (Throw e, _) => Throw e
  | (Timeout, _) => Timeout
  end.

(** The usage error of a parser [this] with a given message. *)
Definition usage_error (this : ArgsParser.t) (message : string) : Exception :=
  EUsageError (UsageError.make (ArgsParser.helpProvider this) message).

(** A parser is constructed when its two maps are those the constructor
    builds from its option definitions. *)
Definition constructed (this : ArgsParser.t) : Prop :=
  this = new_ArgsParser (ArgsParser.helpProvider this)
           (ArgsParser.paramDefinitions this)
           (ArgsParser.paramsDefinition this)
           (ArgsParser.optionDefinitions this)
           (ArgsParser.requiredParamsNumber this).

(** The parameters consumed so far are as many as the values in
    [commandArgs], and the others are pending. *)
Definition params_inv (st : State) : Prop :=
  ∃ consumed,
    paramDefinitions st = consumed ++ pendingParamDefinitions st ∧
    length consumed = length (commandArgs st).

(** The tables of the options exist when the parser has option
    definitions. *)
Definition tables_defined (st : State) : Prop :=
  is_Some (ArgsParser.optionDefinitions (self (world st))) →
  is_Some (commandOptions st) ∧ is_Some (requiredOptionMap st).

(** The state of a call of a constructed parser, at the start of a turn
    of the loop. *)
Definition well_formed (st : State) : Prop :=
  constructed (self (world st)) ∧ is_Some (tokens st) ∧
  tables_defined st ∧ params_inv st.

(** The state once [if (definition.required) delete
    requiredOptionMap[name]] is done. *)
Definition satisfied (name : string) (definition : OptionDefinition.t)
    (st : State) : State :=
  if OptionDefinition.required definition
  then set_requiredOptionMap (HashTable.delete name <$> requiredOptionMap st) st
  else st.

(** The option [name] is still in the table of the required options. *)
Definition pending_required (st : State) (name : string) : Prop :=
  ∃ required,
    requiredOptionMap st = Some required ∧
    HashTable.own name required = true.

(** Following the classification of the tokens: a token supplies the
    option [name] when it is the long form of that option, or a cluster
    of flags that holds a flag of it. *)
Definition supplies (this : ArgsParser.t) (token name : string) : Prop :=
  (token = "--" +:+ name ∧
   ∃ map, ArgsParser.optionDefinitionMap this = Some map ∧
          HashTable.own name map = true) ∨
  (∃ flags c,
     token = "-" +:+ flags ∧ JS.char_at 0 flags ≠ Some "-"%char ∧
     c ∈ String.list_ascii_of_string flags ∧
     ArgsParser.optionFlagMapping this
     ≫= HashTable.get (String c EmptyString) = Some name).

(** No option of the schema has [hasOwnProperty] for its name or for
    its flag. *)
Definition unshadowed (this : ArgsParser.t) : Prop :=
  Forall
    (λ definition,
       OptionDefinition.name definition ≠ "hasOwnProperty" ∧
       OptionDefinition.flag definition ≠ Some "hasOwnProperty")
    (default [] (ArgsParser.optionDefinitions this)).

(** The option [name] is marked required: in the definition the parser
    maps the name to, which is what consuming a token looks at, *)
Definition marked_required (this : ArgsParser.t) (name : string) : Prop :=
  ∃ definition,
    ArgsParser.optionDefinitionMap this ≫= HashTable.get name
    = Some definition ∧
    OptionDefinition.required definition = true.

(** and in some option definition of the schema, which is what the
    table of the required options is built from.  With distinct option
    names the two are the same. *)
Definition declared_required (this : ArgsParser.t) (name : string) : Prop :=
  ∃ definitions definition,
    ArgsParser.optionDefinitions this = Some definitions ∧
    definition ∈ definitions ∧
    OptionDefinition.name definition = name ∧
    OptionDefinition.required definition = true.

(** A step from [st] to [st'] that satisfies the required options of
    [S] and no other, and drops from the tokens only values, which begin
    with no dash. *)
Record supply_step (S : string → Prop) (st st' : State) : Prop := {
  ss_self : self (world st') = self (world st);
  ss_required :
    ∀ n, pending_required st' n ↔ pending_required st n ∧ ¬ S n;
  ss_tokens : ∀ ts, tokens st = Some ts →
    ∃ vs ts', ts = vs ++ ts' ∧ tokens st' = Some ts' ∧
      Forall (λ v, starts_with_dash v = false) vs
}.

Definition preserves (P : State → Prop) {A} (m : M A) : Prop :=
  ∀ st c st', P st → m st = (c, st') → P st'.

Definition total {A} (m : M A) : Prop :=
  ∀ st, (m st).1 ≠ Timeout.

(** The result [parse] returns from a state. *)
Definition result_of (st : State) : ParsedArgs.t :=
  ParsedArgs.make (Some (commandArgs st)) (Some (commandExtraArgs st))
    (commandOptions st) (Some (context st)) None.

(** The loop taken up again from the state [st] a run of it has left,
    on the tokens [ts]. *)
Definition resume (st : State) (ts : list string)
  : Completion (option ParsedArgs.t) * State :=
  while_args (S (length ts)) (set_array (args st) ts st).

(** The loop taken up again from the state [st] within a cluster, of
    which the flags [flags] are still to be consumed, before the tokens
    [ts]. *)
Definition resume_flags (st : State) (flags : string) (ts : list string)
  : Completion (option ParsedArgs.t) * State :=
  match consumeFlags flags (set_array (args st) ts st) with
  | (Normal (), st') => while_args (S (length ts)) st'
  | (Throw e, st') => (Throw e, st')
  | (Timeout, st') => (Timeout, st')
  end.

(** A completion that throws throws a usage error of the parser
    [this]. *)
Definition usage_only (this : ArgsParser.t) {A} (c : Completion A) : Prop :=
  match c with
  | Throw e => ∃ message, e = usage_error this message
  | _ => True
  end.

(** The value [castArgument] gives in the state [st]. *)
Definition cast_in (st : State) (arg : string) (type : Constructor.t)
  : value :=
  match (castArgument arg type st).1 with
  | Normal v => v
  | _ => VUndefined
  end.

(** The value [consumeArgument] adds to the extra values. *)
Definition extra_in (st : State) (arg : string) : value :=
  match paramsType st with
  | Some type => cast_in st arg type
  | None => VString arg
  end.

(** The value of the option [name] in the object of the options. *)
Definition option_value (st : State) (name : string) : option value :=
  commandOptions st ≫= HashTable.get name.

(** The value an option has before the loop. *)
Definition initial_value (definition : OptionDefinition.t) : value :=
  if OptionDefinition.toggle definition then VBoolean false
  else OptionDefinition.default definition.

(** The option [name] is a toggle, in the definition the parser maps
    the name to. *)
Definition is_toggle (this : ArgsParser.t) (name : string) : Prop :=
  ∃ definition,
    ArgsParser.optionDefinitionMap this ≫= HashTable.get name
    = Some definition ∧
    OptionDefinition.toggle definition = true.

(** The names in the table of the required options, in the order of
    their creation. *)
Definition required_names (st : State) : list string :=
  default [] ((λ h : HashTable.t bool, h.*1) <$> requiredOptionMap st).

(** A step from [st] to [st'] that assigns to the options of [S] and
    to no other, and to a toggle nothing but [true]; of the table of the
    required options it only removes names.  An assignment makes a
    property of any name but [__proto__]. *)
Record assign_step (S : string → Prop) (st st' : State) : Prop := {
  as_self : self (world st') = self (world st);
  as_keep : ∀ n, ¬ S n → option_value st' n = option_value st n;
  as_keys : ∀ n, n ≠ "__proto__" →
    is_Some (option_value st' n) ↔ is_Some (option_value st n) ∨ S n;
  as_toggle : ∀ n, n ≠ "__proto__" → is_toggle (self (world st)) n →
    S n ∨ option_value st n = Some (VBoolean true) →
    option_value st' n = Some (VBoolean true);
  as_defined : is_Some (commandOptions st') ↔ is_Some (commandOptions st);
  as_required : required_names st' `sublist_of` required_names st
}.

(** The state a positional token leaves. *)
Definition positional (arg : string) (st : State) : State :=
  match pendingParamDefinitions st with
  | definition :: pending' =>
    set_commandArgs
      (commandArgs st ++ [cast_in st arg (ParamDefinition.type definition)])
      (set_pendingParamDefinitions pending' st)
  | [] => set_commandExtraArgs (commandExtraArgs st ++ [extra_in st arg]) st
  end.

(** The state a toggle leaves. *)
Definition toggled (name : string) (definition : OptionDefinition.t)
    (st : State) : State :=
  set_commandOptions
    (HashTable.set name (VBoolean true) <$> commandOptions st)
    (satisfied name definition st).

(** A match of [[\w\d]+]: a string of one or more characters of
    [[\w\d]]. *)
Definition all_word (s : string) : Prop :=
  Forall (λ c, is_word c = true) (String.list_ascii_of_string s).

Definition word (s : string) : Prop := s ≠ EmptyString ∧ all_word s.

(** A match of [(?:-[\w\d]+)*], made of the words [others]. *)
Definition hyphenated (others : list string) : string :=
  foldr (λ s acc, "-" +:+ s +:+ acc) EmptyString others.

(** The path the command names [names] lead to from [root]. *)
Definition joined `{Node} (root : string) (names : list string) : string :=
  foldl Path_join root names.

(** ** Sample schemas and calls *)

Definition param_a : ParamDefinition.t :=
  ParamDefinition.make "a" Constructor.String VUndefined.

Definition param_b : ParamDefinition.t :=
  ParamDefinition.make "b" Constructor.Number (VNumber (JS.Number "7")).

Definition option_verbose : OptionDefinition.t :=
  OptionDefinition.make "verbose" (Some "v") Constructor.Boolean false true
    VUndefined.

Definition option_count : OptionDefinition.t :=
  OptionDefinition.make "count" (Some "c") Constructor.Number false false
    VUndefined.

Definition option_key : OptionDefinition.t :=
  OptionDefinition.make "key" (Some "k") Constructor.String true false
    VUndefined.

(** A required option named [__proto__], a toggle of that name, and an
    option named [hasOwnProperty]. *)
Definition option_proto : OptionDefinition.t :=
  OptionDefinition.make "__proto__" (Some "p") Constructor.String true false
    VUndefined.

Definition toggle_proto : OptionDefinition.t :=
  OptionDefinition.make "__proto__" (Some "p") Constructor.Boolean false true
    VUndefined.

Definition option_hasOwnProperty : OptionDefinition.t :=
  OptionDefinition.make "hasOwnProperty" (Some "o") Constructor.String false
    false VUndefined.

(** Two parameters, both required, a toggle and an option. *)
Definition parser_ab : ArgsParser.t :=
  new_ArgsParser 1%positive (Some [param_a; param_b]) None
    (Some [option_verbose; option_count]) 2.

(** One parameter, not required, and no options. *)
Definition parser_a : ArgsParser.t :=
  new_ArgsParser 1%positive (Some [param_a]) None None 0.

(** One parameter and a required option. *)
Definition parser_key : ArgsParser.t :=
  new_ArgsParser 1%positive (Some [param_a]) None (Some [option_key]) 0.

(** No parameter; options whose names are properties of
    [Object.prototype]. *)
Definition parser_proto : ArgsParser.t :=
  new_ArgsParser 1%positive None None (Some [option_proto]) 0.

Definition parser_toggle_proto : ArgsParser.t :=
  new_ArgsParser 1%positive None None (Some [option_verbose; toggle_proto]) 0.

Definition parser_hasOwnProperty : ArgsParser.t :=
  new_ArgsParser 1%positive None None
    (Some [option_verbose; option_hasOwnProperty]) 0.

(** A variadic parameter that is required, behind one parameter. *)
Definition params_rest : ParamsDefinition.t :=
  ParamsDefinition.make "rest" Constructor.Number true VUndefined.

Definition parser_rest : ArgsParser.t :=
  new_ArgsParser 1%positive (Some [param_a]) (Some params_rest) None 0.

(** A command with one parameter and a toggle, whose [execute] returns
    its first argument. *)
Definition command_foo : Command.t :=
  Command.make 2%positive
    (Some [ParamDefinition.make "name" Constructor.String VUndefined])
    None (Some [option_verbose]) 0
    (λ args, match args with AnyValue v :: _ => v | _ => VUndefined end).

(** The characters behind the last slash, and those before it. *)
Fixpoint behind_slash (acc l : list ascii) : list ascii :=
  match l with
  | [] => acc
  | c :: l' =>
    if decide (c = "/"%char) then behind_slash [] l'
    else behind_slash (acc ++ [c]) l'
  end.

Fixpoint before_slash (l : list ascii) : list ascii :=
  match l with
  | [] => []
  | c :: l' =>
    if bool_decide ("/"%char ∈ l') then c :: before_slash l' else []
  end.

(** A file system that holds the command [foo.js] and the directory
    [bar] with its [default.js] under [/cli]; paths are joined by a
    slash, and resolved from the root directory. *)
Definition sample_node : Node := {|
  FS_existsSync := λ p,
    bool_decide
      (p ∈ ["/cli"; "/cli/foo.js"; "/cli/bar"; "/cli/bar/default.js"]);
  FS_statSync_isFile := λ p,
    if bool_decide (p ∈ ["/cli/foo.js"; "/cli/bar/default.js"])
    then Some true
    else if bool_decide (p ∈ ["/cli"; "/cli/bar"]) then Some false
    else None;
  Path_resolve := λ p,
    if bool_decide (JS.char_at 0 p = Some "/"%char) then p else "/" +:+ p;
  Path_join := λ a b, a +:+ "/" +:+ b;
  Path_basename := λ p,
    String.string_of_list_ascii
      (behind_slash [] (String.list_ascii_of_string p));
  Path_dirname := λ p,
    String.string_of_list_ascii
      (before_slash (String.list_ascii_of_string p));
  require := λ p,
    if decide (p = "/cli/foo.js")
    then Some (Exported.make (Some "Foo description") (Some command_foo))
    else if decide (p = "/cli/bar/default.js")
    then Some (Exported.make (Some "Bar description") None)
    else None
|}.

(** A store with one array of tokens, at location 1. *)
Definition world_of (this : ArgsParser.t) (ts : list string) : World :=
  {| arrays := {[1%positive := ts]}; self := this |}.

(** The completion of a call by [this] on the tokens [ts]. *)
Definition run (this : ArgsParser.t) (ts : list string)
  : Completion ParsedArgs.t :=
  (parse ["clime"] 1%positive "/" (world_of this ts)).1.

(** * Properties *)

(** ** Running computations *)

Lemma run_bind {A B} (m : M A) (f : A → M B) st :
  (m ≫= f) st =
  match m st with
  | (Normal a, st') => f a st'
  | (Throw e, st') => (Throw e, st')
  | (Timeout, st') => (Timeout, st')
  end.
Proof. reflexivity. Qed.

Lemma run_bind_normal {A B} (m : M A) (f : A → M B) st a st' :
  m st = (Normal a, st') → (m ≫= f) st = f a st'.
Proof. intros H. rewrite run_bind, H. reflexivity. Qed.

Lemma run_bind_throw {A B} (m : M A) (f : A → M B) st e st' :
  m st = (Throw e, st') → (m ≫= f) st = (Throw e, st').
Proof. intros H. rewrite run_bind, H. reflexivity. Qed.

Lemma run_gets {A} (f : State → A) st : gets f st = (Normal (f st), st).
Proof. reflexivity. Qed.

Lemma run_throw_UsageError {A} message st :
  @throw_UsageError A message st =
  (Throw (EUsageError
     (UsageError.make (ArgsParser.helpProvider (self (world st))) message)),
   st).
Proof. reflexivity. Qed.

Lemma tokens_set_array st ts : tokens (set_array (args st) ts st) = Some ts.
Proof. unfold tokens. simpl. apply lookup_insert_eq. Qed.

Lemma run_args_length st ts :
  tokens st = Some ts → args_length st = (Normal (length ts), st).
Proof.
  unfold tokens, args_length. intros H.
  rewrite run_bind, run_gets, H. reflexivity.
Qed.

Lemma run_args_shift_nil st :
  tokens st = Some [] → args_shift st = (Normal None, st).
Proof.
  unfold tokens, args_shift. intros H.
  rewrite run_bind, run_gets, run_bind, run_gets, H. reflexivity.
Qed.

Lemma run_args_shift_cons st arg rest :
  tokens st = Some (arg :: rest) →
  args_shift st = (Normal (Some arg), set_array (args st) rest st).
Proof.
  unfold tokens, args_shift. intros H.
  rewrite run_bind, run_gets, run_bind, run_gets, H. reflexivity.
Qed.

Lemma run_args_shift_undefined st :
  tokens st = None → args_shift st = (Throw ETypeError, st).
Proof.
  unfold tokens, args_shift. intros H.
  rewrite run_bind, run_gets, run_bind, run_gets, H. reflexivity.
Qed.

Lemma frame_step_refl st : frame_step st st.
Proof. split; eauto. Qed.

Lemma frame_step_trans st1 st2 st3 :
  frame_step st1 st2 → frame_step st2 st3 → frame_step st1 st3.
Proof.
  intros [Hs1 Ha1 Hc1 Ho1 Ht1 Hu1] [Hs2 Ha2 Hc2 Ho2 Ht2 Hu2]. split.
  - congruence.
  - congruence.
  - congruence.
  - intros l Hl. rewrite Ho2, Ho1; congruence.
  - intros ts Hts. destruct (Ht1 ts Hts) as (ts1 & H1 & Hsuf1).
    destruct (Ht2 ts1 H1) as (ts2 & H2 & Hsuf2).
    exists ts2. split; [done | by etrans].
  - intros Hn. rewrite Hu2, Hu1; [done .. |].
    unfold tokens in *. rewrite Ha1, Hu1; done.
Qed.

Lemma frames_ret {A} (a : A) : frames (mret a).
Proof. intros st c st' [= _ <-]. apply frame_step_refl. Qed.

Lemma frames_gets {A} (f : State → A) : frames (gets f).
Proof. intros st c st' [= _ <-]. apply frame_step_refl. Qed.

Lemma frames_throw {A} e : frames (@throw A e).
Proof. intros st c st' [= _ <-]. apply frame_step_refl. Qed.

Lemma frames_timeout {A} : frames (@timeout A).
Proof. intros st c st' [= _ <-]. apply frame_step_refl. Qed.

Lemma frames_bind {A B} (m : M A) (f : A → M B) :
  frames m → (∀ a, frames (f a)) → frames (m ≫= f).
Proof.
  intros Hm Hf st c st'. rewrite run_bind.
  destruct (m st) as [[a | e |] st1] eqn:E; intros H.
  - eapply frame_step_trans; [by eapply Hm | by eapply Hf].
  - injection H as _ <-. by eapply Hm.
  - injection H as _ <-. by eapply Hm.
Qed.

Lemma frames_throw_UsageError {A} message : frames (@throw_UsageError A message).
Proof. apply frames_bind; [apply frames_gets | intros; apply frames_throw]. Qed.

Lemma frames_defined {A} (o : option A) : frames (defined o).
Proof. destruct o; [apply frames_ret | apply frames_throw]. Qed.

Lemma frames_modify (g : State → State) :
  (∀ st, frame_step st (g st)) → frames (modify g).
Proof. intros Hg st c st' [= _ <-]. apply Hg. Qed.

Lemma frame_step_set_commandArgs v st : frame_step st (set_commandArgs v st).
Proof. split; eauto. Qed.
Lemma frame_step_set_commandOptions v st :
  frame_step st (set_commandOptions v st).
Proof. split; eauto. Qed.
Lemma frame_step_set_commandExtraArgs v st :
  frame_step st (set_commandExtraArgs v st).
Proof. split; eauto. Qed.
Lemma frame_step_set_requiredOptionMap v st :
  frame_step st (set_requiredOptionMap v st).
Proof. split; eauto. Qed.
Lemma frame_step_set_pendingParamDefinitions v st :
  frame_step st (set_pendingParamDefinitions v st).
Proof. split; eauto. Qed.

Lemma frames_args_length : frames args_length.
Proof.
  apply frames_bind; [apply frames_gets | intros a].
  apply frames_bind; [apply frames_defined | intros; apply frames_ret].
Qed.

Lemma frames_args_shift : frames args_shift.
Proof.
  intros st c st' H. destruct (tokens st) as [[| arg rest] |] eqn:E.
  - rewrite (run_args_shift_nil _ E) in H. injection H as _ <-.
    apply frame_step_refl.
  - rewrite (run_args_shift_cons _ _ _ E) in H. injection H as _ <-.
    split; simpl; try done.
    + intros l Hl. by rewrite lookup_insert_ne.
    + intros ts Hts. exists rest. rewrite tokens_set_array.
      split; [done |]. rewrite E in Hts. injection Hts as <-.
      by apply suffix_cons_r.
    + congruence.
  - rewrite (run_args_shift_undefined _ E) in H. injection H as _ <-.
    apply frame_step_refl.
Qed.

Create HintDb frames discriminated.
#[global] Hint Resolve frames_ret frames_gets frames_throw frames_timeout
  frames_throw_UsageError frames_defined frames_args_length frames_args_shift
  frame_step_set_commandArgs frame_step_set_commandOptions
  frame_step_set_commandExtraArgs frame_step_set_requiredOptionMap
  frame_step_set_pendingParamDefinitions : frames.

(** Decomposes a goal [frames m] along the structure of [m]. *)
Ltac frames_tac :=
  repeat first
    [ solve [auto with frames]
    | apply frames_bind; [| intros ?]
    | apply frames_modify; intros ?
    | match goal with
      | |- frames (match ?x with _ => _ end) => destruct x
      end ].

Lemma frames_castArgument arg type : frames (castArgument arg type).
Proof. unfold castArgument. frames_tac. Qed.

#[global] Hint Resolve frames_castArgument : frames.

Lemma frames_consumeOption name definition :
  frames (consumeOption name definition).
Proof. unfold consumeOption. frames_tac. Qed.

Lemma frames_satisfy_required name definition :
  frames (satisfy_required name definition).
Proof. unfold satisfy_required. frames_tac. Qed.

Lemma frames_set_toggle name : frames (set_toggle name).
Proof. unfold set_toggle. frames_tac. Qed.

#[global] Hint Resolve frames_consumeOption frames_satisfy_required
  frames_set_toggle : frames.

Lemma frames_consumeFlags flags : frames (consumeFlags flags).
Proof.
  induction flags as [| c rest IH]; simpl; [auto with frames |].
  frames_tac.
Qed.

Lemma frames_consumeToggleOrOption name : frames (consumeToggleOrOption name).
Proof. unfold consumeToggleOrOption. frames_tac. Qed.

Lemma frames_consumeArgument arg : frames (consumeArgument arg).
Proof. unfold consumeArgument. frames_tac. Qed.

#[global] Hint Resolve frames_consumeFlags frames_consumeToggleOrOption
  frames_consumeArgument : frames.

Lemma frames_dispatch arg : frames (dispatch arg).
Proof. unfold dispatch. frames_tac. Qed.

#[global] Hint Resolve frames_dispatch : frames.

Lemma frames_turn : frames turn.
Proof. unfold turn. frames_tac. Qed.

#[global] Hint Resolve frames_turn : frames.

Lemma frames_while_args fuel : frames (while_args fuel).
Proof. induction fuel as [| fuel IH]; simpl; frames_tac. Qed.

#[global] Hint Resolve frames_while_args : frames.

Lemma frames_loop : frames loop.
Proof. unfold loop. frames_tac. Qed.

Lemma frames_finish : frames finish.
Proof.
  unfold finish, check_required_params, check_required_options,
    fill_defaults, check_extra, result.
  frames_tac.
Qed.

#[global] Hint Resolve frames_loop frames_finish : frames.

Lemma frames_body : frames body.
Proof. unfold body. frames_tac. Qed.

Lemma respects_ret {A} (a : A) : respects (mret a).
Proof. intros suf st1 st2 c st1' R [= <- <-] _. by exists st2. Qed.

Lemma respects_throw {A} e : respects (@throw A e).
Proof. intros suf st1 st2 c st1' R [= <- <-] _. by exists st2. Qed.

Lemma respects_timeout {A} : respects (@timeout A).
Proof. intros suf st1 st2 c st1' R [= <- <-] _. by exists st2. Qed.

Lemma respects_gets {A} (f : State → A) :
  (∀ suf st1 st2, rel suf st1 st2 → f st1 = f st2) → respects (gets f).
Proof.
  intros Hf suf st1 st2 c st1' R [= <- <-] _. exists st2.
  unfold gets. by rewrite (Hf _ _ _ R).
Qed.

Lemma respects_modify (g : State → State) :
  (∀ suf st1 st2, rel suf st1 st2 → rel suf (g st1) (g st2)) →
  respects (modify g).
Proof.
  intros Hg suf st1 st2 c st1' R [= <- <-] _. exists (g st2). split; auto.
Qed.

Lemma respects_bind {A B} (m : M A) (f : A → M B) :
  respects m → (∀ a, respects (f a)) → respects (m ≫= f).
Proof.
  intros Hm Hf suf st1 st2 c st1' R. rewrite !run_bind.
  destruct (m st1) as [[a | e |] s1] eqn:E; intros H Hc.
  - destruct (Hm _ _ _ _ _ R E) as (s2 & -> & R'); [by right |].
    by eapply Hf.
  - injection H as <- <-. destruct Hc as [-> | []].
    destruct (Hm _ _ _ _ _ R E) as (s2 & -> & R'); [by left |]. eauto.
  - injection H as <- <-. destruct Hc as [-> | []].
    destruct (Hm _ _ _ _ _ R E) as (s2 & -> & R'); [by left |]. eauto.
Qed.

Lemma respects_defined {A} (o : option A) : respects (defined o).
Proof. destruct o; [apply respects_ret | apply respects_throw]. Qed.

Lemma respects_throw_UsageError {A} message :
  respects (@throw_UsageError A message).
Proof.
  apply respects_bind; [| intros; apply respects_throw].
  apply respects_gets. intros suf st1 st2 []. congruence.
Qed.

(** [args.shift()] followed by a continuation that throws on
    [undefined]. *)
Lemma respects_bind_shift {A} (k : option string → M A) :
  (∀ arg, respects (k arg)) →
  (∀ st, ¬ is_normal (k None st).1) →
  respects (args_shift ≫= k).
Proof.
  intros Hk Hnone suf st1 st2 c st1' R H Hc.
  destruct (rel_tokens _ _ _ R) as ([| arg rest] & T1 & T2).
  - rewrite (run_bind_normal _ _ _ _ _ (run_args_shift_nil _ T1)) in H.
    destruct Hc as [-> | Hc].
    + rewrite (run_bind_normal _ _ _ _ _ (run_args_shift_nil _ T2)).
      eapply Hk; [exact R | exact H | by left].
    + specialize (Hnone st1). rewrite H in Hnone. done.
  - rewrite (run_bind_normal _ _ _ _ _ (run_args_shift_cons _ _ _ T1)) in H.
    rewrite (run_bind_normal _ _ _ _ _ (run_args_shift_cons _ _ _ T2)).
    eapply Hk; [| done | done].
    destruct R. split; simpl; try done.
    exists rest. rewrite !tokens_set_array. done.
Qed.

Lemma rel_set_commandArgs v suf st1 st2 :
  rel suf st1 st2 → rel suf (set_commandArgs v st1) (set_commandArgs v st2).
Proof. intros []. by split. Qed.
Lemma rel_set_commandOptions v suf st1 st2 :
  rel suf st1 st2 →
  rel suf (set_commandOptions v st1) (set_commandOptions v st2).
Proof. intros []. by split. Qed.
Lemma rel_set_commandExtraArgs v suf st1 st2 :
  rel suf st1 st2 →
  rel suf (set_commandExtraArgs v st1) (set_commandExtraArgs v st2).
Proof. intros []. by split. Qed.
Lemma rel_set_requiredOptionMap v suf st1 st2 :
  rel suf st1 st2 →
  rel suf (set_requiredOptionMap v st1) (set_requiredOptionMap v st2).
Proof. intros []. by split. Qed.
Lemma rel_set_pendingParamDefinitions v suf st1 st2 :
  rel suf st1 st2 →
  rel suf (set_pendingParamDefinitions v st1)
    (set_pendingParamDefinitions v st2).
Proof. intros []. by split. Qed.

Create HintDb respects discriminated.
#[global] Hint Resolve respects_ret respects_throw respects_timeout
  respects_defined respects_throw_UsageError
  rel_set_commandArgs rel_set_commandOptions rel_set_commandExtraArgs
  rel_set_requiredOptionMap rel_set_pendingParamDefinitions : respects.

(** Decomposes a goal [respects m] along the structure of [m]. *)
Ltac respects_tac :=
  repeat first
    [ solve [auto with respects]
    | apply respects_bind_shift; [intros ? | intros ?; simpl; tauto]
    | apply respects_bind; [| intros ?]
    | apply respects_modify; intros ? ? ?
    | apply respects_gets;
      let R := fresh in
      intros ? ? ? R; destruct R;
      unfold paramsType, paramDefinitions; congruence
    | match goal with
      | |- respects (match ?x with _ => _ end) => destruct x
      end ].

Lemma respects_castArgument arg type : respects (castArgument arg type).
Proof. unfold castArgument. respects_tac. Qed.

#[global] Hint Resolve respects_castArgument : respects.

Lemma respects_consumeOption name definition :
  respects (consumeOption name definition).
Proof. unfold consumeOption. respects_tac. Qed.

Lemma respects_satisfy_required name definition :
  respects (satisfy_required name definition).
Proof. unfold satisfy_required. respects_tac. Qed.

Lemma respects_set_toggle name : respects (set_toggle name).
Proof. unfold set_toggle. respects_tac. Qed.

#[global] Hint Resolve respects_consumeOption respects_satisfy_required
  respects_set_toggle : respects.

Lemma respects_consumeFlags flags : respects (consumeFlags flags).
Proof.
  induction flags as [| c rest IH]; simpl; [auto with respects |].
  respects_tac.
Qed.

Lemma respects_consumeToggleOrOption name :
  respects (consumeToggleOrOption name).
Proof. unfold consumeToggleOrOption. respects_tac. Qed.

Lemma respects_consumeArgument arg : respects (consumeArgument arg).
Proof. unfold consumeArgument. respects_tac. Qed.

#[global] Hint Resolve respects_consumeFlags respects_consumeToggleOrOption
  respects_consumeArgument : respects.

Lemma respects_dispatch arg : respects (dispatch arg).
Proof. unfold dispatch. respects_tac. Qed.

#[global] Hint Resolve respects_dispatch : respects.

Lemma respects_turn : respects turn.
Proof. unfold turn. respects_tac. Qed.

Lemma respects_finish : respects finish.
Proof.
  unfold finish, check_required_params, check_required_options,
    fill_defaults, check_extra, result.
  respects_tac.
Qed.

(** ** Termination: nothing but the loop can run out of fuel *)

Lemma total_ret {A} (a : A) : total (mret a).
Proof. by intros st. Qed.
Lemma total_gets {A} (f : State → A) : total (gets f).
Proof. by intros st. Qed.
Lemma total_modify g : total (modify g).
Proof. by intros st. Qed.
Lemma total_throw {A} e : total (@throw A e).
Proof. by intros st. Qed.
Lemma total_defined {A} (o : option A) : total (defined o).
Proof. by destruct o. Qed.

Lemma total_bind {A B} (m : M A) (f : A → M B) :
  total m → (∀ a, total (f a)) → total (m ≫= f).
Proof.
  intros Hm Hf st. rewrite run_bind. specialize (Hm st).
  destruct (m st) as [[a | e |] st']; simpl in *; [apply Hf | done | done].
Qed.

Lemma total_throw_UsageError {A} message : total (@throw_UsageError A message).
Proof. by intros st. Qed.

Create HintDb total discriminated.
#[global] Hint Resolve total_ret total_gets total_modify total_throw
  total_defined total_throw_UsageError : total.

Ltac total_tac :=
  repeat first
    [ solve [auto with total]
    | apply total_bind; [| intros ?]
    | match goal with
      | |- total (match ?x with _ => _ end) => destruct x
      end ].

Lemma total_args_length : total args_length.
Proof. unfold args_length. total_tac. Qed.
Lemma total_args_shift : total args_shift.
Proof. unfold args_shift. total_tac. Qed.
Lemma total_castArgument arg type : total (castArgument arg type).
Proof. unfold castArgument. total_tac. Qed.
#[global] Hint Resolve total_args_length total_args_shift total_castArgument
  : total.

Lemma total_consumeOption name definition :
  total (consumeOption name definition).
Proof. unfold consumeOption. total_tac. Qed.
Lemma total_satisfy_required name definition :
  total (satisfy_required name definition).
Proof. unfold satisfy_required. total_tac. Qed.
Lemma total_set_toggle name : total (set_toggle name).
Proof. unfold set_toggle. total_tac. Qed.
#[global] Hint Resolve total_consumeOption total_satisfy_required
  total_set_toggle : total.

Lemma total_consumeFlags flags : total (consumeFlags flags).
Proof.
  induction flags as [| c rest IH]; simpl; [auto with total |]. total_tac.
Qed.
Lemma total_consumeToggleOrOption name : total (consumeToggleOrOption name).
Proof. unfold consumeToggleOrOption. total_tac. Qed.
Lemma total_consumeArgument arg : total (consumeArgument arg).
Proof. unfold consumeArgument. total_tac. Qed.
#[global] Hint Resolve total_consumeFlags total_consumeToggleOrOption
  total_consumeArgument : total.

Lemma total_dispatch arg : total (dispatch arg).
Proof. unfold dispatch. total_tac. Qed.
#[global] Hint Resolve total_dispatch : total.

Lemma total_turn : total turn.
Proof. unfold turn. total_tac. Qed.

Lemma total_finish : total finish.
Proof.
  unfold finish, check_required_params, check_required_options,
    fill_defaults, check_extra, result.
  total_tac.
Qed.

(** ** The loop *)

Lemma run_turn st arg rest :
  tokens st = Some (arg :: rest) →
  turn st = dispatch arg (set_array (args st) rest st).
Proof.
  intros T. unfold turn.
  by rewrite (run_bind_normal _ _ _ _ _ (run_args_shift_cons _ _ _ T)).
Qed.

(** A turn leaves fewer tokens than it found. *)
Lemma turn_shrinks st arg rest c st' :
  tokens st = Some (arg :: rest) → turn st = (c, st') →
  ∃ ts', tokens st' = Some ts' ∧ ts' `suffix_of` rest.
Proof.
  intros T. rewrite (run_turn _ _ _ T). intros H.
  apply frames_dispatch in H. apply (fs_tokens _ _ H).
  apply tokens_set_array.
Qed.

(** A turn returns from [parse] only to signal a request for help. *)
Lemma dispatch_some arg st r st' :
  dispatch arg st = (Normal (Some r), st') → r = help_result.
Proof.
  unfold dispatch. destruct (is_help arg); [by intros [= <- _] |].
  rewrite run_bind.
  by destruct (_ st) as [[[] | e |] s]; intros [=].
Qed.

Lemma run_while_nil fuel st :
  tokens st = Some [] → while_args (S fuel) st = (Normal None, st).
Proof.
  intros T. simpl. by rewrite (run_bind_normal _ _ _ _ _ (run_args_length _ _ T)).
Qed.

Lemma run_while_cons fuel st arg rest :
  tokens st = Some (arg :: rest) →
  while_args (S fuel) st =
  match turn st with
  | (Normal (Some result), st') => (Normal (Some result), st')
  | (Normal None, st') => while_args fuel st'
  | (Throw e, st') => (Throw e, st')
  | (Timeout, st') => (Timeout, st')
  end.
Proof.
  intros T. simpl.
  rewrite (run_bind_normal _ _ _ _ _ (run_args_length _ _ T)). simpl.
  rewrite run_bind. by destruct (turn st) as [[[] | |] ?].
Qed.

(** Fuel above the number of tokens is as good as any. *)
Lemma while_fuel fuel1 fuel2 st ts :
  tokens st = Some ts → length ts < fuel1 → length ts < fuel2 →
  while_args fuel1 st = while_args fuel2 st.
Proof.
  revert fuel2 st ts.
  induction fuel1 as [| fuel1 IH]; intros fuel2 st ts T H1 H2; [lia |].
  destruct fuel2 as [| fuel2]; [lia |].
  destruct ts as [| arg rest].
  - by rewrite !run_while_nil.
  - rewrite !(run_while_cons _ _ _ _ T).
    destruct (turn st) as [[[r |] | e |] st'] eqn:E; try done.
    destruct (turn_shrinks _ _ _ _ _ T E) as (ts' & T' & Hsuf).
    apply suffix_length in Hsuf. simpl in *.
    apply (IH _ _ ts'); [done | lia | lia].
Qed.

Lemma while_total fuel st ts :
  tokens st = Some ts → length ts < fuel → (while_args fuel st).1 ≠ Timeout.
Proof.
  revert st ts. induction fuel as [| fuel IH]; intros st ts T H; [lia |].
  destruct ts as [| arg rest].
  - by rewrite run_while_nil.
  - rewrite (run_while_cons _ _ _ _ T). pose proof (total_turn st) as Ht.
    destruct (turn st) as [[[r |] | e |] st'] eqn:E; try done.
    destruct (turn_shrinks _ _ _ _ _ T E) as (ts' & T' & Hsuf).
    apply suffix_length in Hsuf. simpl in *.
    apply (IH _ ts'); [done | lia].
Qed.

Lemma while_some fuel st r st' :
  while_args fuel st = (Normal (Some r), st') → r = help_result.
Proof.
  revert st. induction fuel as [| fuel IH]; intros st; [done |]. simpl.
  rewrite run_bind. destruct (args_length st) as [[[| n] | e |] s1]; try done.
  rewrite run_bind. destruct (turn s1) as [[[r' |] | e |] s2] eqn:E; try done.
  - intros [= -> _]. unfold turn in E. rewrite run_bind in E.
    destruct (args_shift s1) as [[a | e |] s3]; try done.
    rewrite run_bind in E. destruct a as [a |]; try done.
    simpl in E. by eapply dispatch_some.
  - apply IH.
Qed.

(** The loop on related states: a request for help among the tokens of
    the first is one in the second; when the first runs out of tokens the
    second goes on with those appended; with nothing appended they
    complete alike. *)
Lemma while_respects fuel1 fuel2 suf st1 st2 ts c st1' :
  rel suf st1 st2 → tokens st1 = Some ts →
  length ts < fuel1 → length (ts ++ suf) < fuel2 →
  while_args fuel1 st1 = (c, st1') →
  match c with
  | Normal (Some r) =>
    ∃ st2', rel suf st1' st2' ∧
      while_args fuel2 st2 = (Normal (Some r), st2')
  | Normal None =>
    ∃ st2', rel suf st1' st2' ∧ tokens st1' = Some [] ∧
      while_args fuel2 st2 = while_args (S (length suf)) st2'
  | _ =>
    suf = [] → ∃ st2', rel [] st1' st2' ∧ while_args fuel2 st2 = (c, st2')
  end.
Proof.
  revert fuel2 st1 st2 ts.
  induction fuel1 as [| fuel1 IH]; intros fuel2 st1 st2 ts R T1 H1 H2; [lia |].
  destruct fuel2 as [| fuel2]; [lia |].
  assert (tokens st2 = Some (ts ++ suf)) as T2.
  { destruct (rel_tokens _ _ _ R) as (ts0 & T & ?). congruence. }
  destruct ts as [| arg rest].
  - rewrite (run_while_nil _ _ T1). intros [= <- <-]. exists st2.
    split; [done |]. split; [done |].
    apply (while_fuel _ _ _ suf); simpl in *; [done | lia | lia].
  - rewrite (run_while_cons _ _ _ _ T1), (run_while_cons _ _ _ _ T2).
    destruct (turn st1) as [[[r |] | e |] s1] eqn:E.
    + intros [= <- <-].
      destruct (respects_turn _ _ _ _ _ R E) as (s2 & -> & R');
        [by right | eauto].
    + destruct (respects_turn _ _ _ _ _ R E) as (s2 & -> & R'); [by right |].
      destruct (turn_shrinks _ _ _ _ _ T1 E) as (ts' & T' & Hsuf).
      apply suffix_length in Hsuf. rewrite length_app in H2. simpl in *.
      apply (IH _ _ _ ts'); [done | done | lia |].
      rewrite length_app. lia.
    + intros [= <- <-] ->.
      destruct (respects_turn _ _ _ _ _ R E) as (s2 & -> & R'); [by left |].
      eauto.
    + intros [= <- <-] ->.
      destruct (respects_turn _ _ _ _ _ R E) as (s2 & -> & R'); [by left |].
      eauto.
Qed.

Lemma run_loop st ts :
  tokens st = Some ts → loop st = while_args (S (length ts)) st.
Proof.
  intros T. unfold loop.
  by rewrite (run_bind_normal _ _ _ _ _ (run_args_length _ _ T)).
Qed.

Lemma tokens_enter sequence l cwd w : tokens (enter sequence l cwd w) = arrays w !! l.
Proof. reflexivity. Qed.

Lemma rel_enter suf sequence cwd l1 w1 l2 w2 ts :
  self w1 = self w2 →
  arrays w1 !! l1 = Some ts → arrays w2 !! l2 = Some (ts ++ suf) →
  rel suf (enter sequence l1 cwd w1) (enter sequence l2 cwd w2).
Proof.
  intros Hs T1 T2. split; simpl; try done; try by rewrite Hs.
  exists ts. by rewrite !tokens_enter.
Qed.

Lemma tokens_consume_enter sequence cwd this ts :
  tokens (enter sequence 1%positive cwd
            {| arrays := {[1%positive := ts]}; self := this |}) = Some ts.
Proof. rewrite tokens_enter. simpl. apply lookup_singleton_eq. Qed.

Lemma consume_while sequence cwd this ts :
  consume sequence cwd this ts =
  while_args (S (length ts))
    (enter sequence 1%positive cwd
       {| arrays := {[1%positive := ts]}; self := this |}).
Proof. apply run_loop, tokens_consume_enter. Qed.

(** The loop of [parse] on a state whose tokens are [ts ++ suf], set
    against the loop on [ts] alone. *)
Lemma loop_consume suf sequence cwd l w ts c st :
  arrays w !! l = Some (ts ++ suf) →
  consume sequence cwd (self w) ts = (c, st) →
  match c with
  | Normal (Some r) =>
    ∃ st', rel suf st st' ∧
      loop (enter sequence l cwd w) = (Normal (Some r), st')
  | Normal None =>
    ∃ st', rel suf st st' ∧ tokens st = Some [] ∧
      loop (enter sequence l cwd w) = while_args (S (length suf)) st'
  | _ =>
    suf = [] → ∃ st', rel [] st st' ∧ loop (enter sequence l cwd w) = (c, st')
  end.
Proof.
  intros T. rewrite consume_while.
  rewrite (run_loop _ (ts ++ suf)); [| by rewrite tokens_enter].
  apply (while_respects _ _ _ _ _ ts).
  - apply (rel_enter _ _ _ _ _ _ _ ts); [done | | done].
    simpl. apply lookup_singleton_eq.
  - apply tokens_consume_enter.
  - lia.
  - lia.
Qed.

Lemma concat_lookup a w ts :
  arrays w !! a = Some ts →
  ∃ l w', concat a w = Some (l, w') ∧ self w' = self w ∧
    arrays w' = <[l := ts]> (arrays w) ∧ arrays w !! l = None.
Proof.
  intros H. unfold concat. rewrite H. simpl. do 2 eexists.
  split; [done |]. split; [done |]. split; [done |].
  apply not_elem_of_dom, is_fresh.
Qed.

(** What [parse] returns or throws is decided by the parser and the
    tokens alone: it is what the loop on the tokens leads to. *)
Lemma parse_consume sequence a cwd w ts :
  arrays w !! a = Some ts →
  (parse sequence a cwd w).1 = outcome (consume sequence cwd (self w) ts).
Proof.
  intros H. unfold parse.
  destruct (concat_lookup _ _ _ H) as (l & w' & -> & Hs & Ha & _).
  assert (arrays w' !! l = Some (ts ++ [])) as T.
  { rewrite Ha, app_nil_r. apply lookup_insert_eq. }
  rewrite <- Hs.
  destruct (consume sequence cwd (self w') ts) as [c st] eqn:E.
  pose proof (loop_consume [] sequence cwd l w' ts c st T E) as L.
  unfold body. rewrite run_bind.
  destruct c as [[r |] | e |]; simpl.
  - destruct L as (st' & _ & ->). done.
  - destruct L as (st' & R & T' & ->).
    rewrite run_while_nil.
    2:{ destruct (rel_tokens _ _ _ R) as (ts0 & T0 & ->).
        rewrite T' in T0. by injection T0 as <-. }
    destruct (finish st) as [c1 s1] eqn:F.
    destruct (respects_finish _ _ _ _ _ R F) as (s2 & -> & _); [by left |].
    done.
  - destruct (L eq_refl) as (st' & _ & ->). done.
  - destruct (L eq_refl) as (st' & _ & ->). done.
Qed.

(** [parse] leaves the parser and every array of the heap as they
    were. *)
Lemma parse_frame sequence a cwd w c w' :
  parse sequence a cwd w = (c, w') →
  self w' = self w ∧
  ∀ l, is_Some (arrays w !! l) → arrays w' !! l = arrays w !! l.
Proof.
  unfold parse. destruct (arrays w !! a) as [ts |] eqn:H.
  - destruct (concat_lookup _ _ _ H) as (l & w1 & -> & Hs & Ha & Hl).
    destruct (body (enter sequence l cwd w1)) as [c1 st] eqn:B.
    intros [= _ <-]. apply frames_body in B. split.
    + rewrite (fs_self _ _ B). done.
    + intros l' [x Hx]. rewrite (fs_others _ _ B); simpl.
      * rewrite Ha. apply lookup_insert_ne. congruence.
      * congruence.
  - unfold concat. rewrite H. simpl. by intros [= _ <-].
Qed.

(** ** Invariants of a call *)

Lemma preserves_ret P {A} (a : A) : preserves P (mret a).
Proof. by intros st c st' H [= _ <-]. Qed.
Lemma preserves_gets P {A} (f : State → A) : preserves P (gets f).
Proof. by intros st c st' H [= _ <-]. Qed.
Lemma preserves_throw P {A} e : preserves P (@throw A e).
Proof. by intros st c st' H [= _ <-]. Qed.
Lemma preserves_timeout P {A} : preserves P (@timeout A).
Proof. by intros st c st' H [= _ <-]. Qed.
Lemma preserves_defined P {A} (o : option A) : preserves P (defined o).
Proof. destruct o; [apply preserves_ret | apply preserves_throw]. Qed.
Lemma preserves_throw_UsageError P {A} message :
  preserves P (@throw_UsageError A message).
Proof. by intros st c st' H [= _ <-]. Qed.

Lemma preserves_modify (P : State → Prop) g :
  (∀ st, P st → P (g st)) → preserves P (modify g).
Proof. intros Hg st c st' H [= _ <-]. by apply Hg. Qed.

Lemma preserves_bind P {A B} (m : M A) (f : A → M B) :
  preserves P m → (∀ a, preserves P (f a)) → preserves P (m ≫= f).
Proof.
  intros Hm Hf st c st' H. rewrite run_bind.
  destruct (m st) as [[a | e |] s] eqn:E.
  - apply Hf. by eapply Hm.
  - intros [= _ <-]. by eapply Hm.
  - intros [= _ <-]. by eapply Hm.
Qed.

Lemma preserves_args_length P : preserves P args_length.
Proof.
  apply preserves_bind; [apply preserves_gets | intros ?].
  apply preserves_bind; [apply preserves_defined | intros ?].
  apply preserves_ret.
Qed.

Lemma preserves_args_shift (P : State → Prop) :
  (∀ st ts, P st → P (set_array (args st) ts st)) → preserves P args_shift.
Proof.
  intros HP st c st' H. destruct (tokens st) as [[| arg rest] |] eqn:E.
  - rewrite (run_args_shift_nil _ E). by intros [= _ <-].
  - rewrite (run_args_shift_cons _ _ _ E). intros [= _ <-]. by apply HP.
  - rewrite (run_args_shift_undefined _ E). by intros [= _ <-].
Qed.

Create HintDb preserves discriminated.
#[global] Hint Resolve preserves_ret preserves_gets preserves_throw
  preserves_timeout preserves_defined preserves_throw_UsageError
  preserves_args_length : preserves.

(** Decomposes a goal [preserves P m] along the structure of [m];
    [side] proves that the assignments keep [P]. *)
Ltac preserves_tac side :=
  repeat first
    [ solve [auto with preserves]
    | apply preserves_args_shift; solve [side]
    | apply preserves_bind; [| intros ?]
    | apply preserves_modify; solve [side]
    | match goal with
      | |- preserves _ (match ?x with _ => _ end) => destruct x
      end ].

Ltac tables_side :=
  unfold tables_defined; simpl; intros; intuition eauto.

Lemma tables_castArgument arg type :
  preserves tables_defined (castArgument arg type).
Proof. unfold castArgument. preserves_tac tables_side. Qed.
#[global] Hint Resolve tables_castArgument : preserves.

Lemma tables_consumeOption name definition :
  preserves tables_defined (consumeOption name definition).
Proof. unfold consumeOption. preserves_tac tables_side. Qed.
Lemma tables_satisfy_required name definition :
  preserves tables_defined (satisfy_required name definition).
Proof. unfold satisfy_required. preserves_tac tables_side. Qed.
Lemma tables_set_toggle name : preserves tables_defined (set_toggle name).
Proof. unfold set_toggle. preserves_tac tables_side. Qed.
#[global] Hint Resolve tables_consumeOption tables_satisfy_required
  tables_set_toggle : preserves.

Lemma tables_consumeFlags flags :
  preserves tables_defined (consumeFlags flags).
Proof.
  induction flags as [| c rest IH]; simpl; [auto with preserves |].
  preserves_tac tables_side.
Qed.
Lemma tables_consumeToggleOrOption name :
  preserves tables_defined (consumeToggleOrOption name).
Proof. unfold consumeToggleOrOption. preserves_tac tables_side. Qed.
Lemma tables_consumeArgument arg :
  preserves tables_defined (consumeArgument arg).
Proof. unfold consumeArgument. preserves_tac tables_side. Qed.
#[global] Hint Resolve tables_consumeFlags tables_consumeToggleOrOption
  tables_consumeArgument : preserves.

Lemma tables_turn : preserves tables_defined turn.
Proof. unfold turn, dispatch. preserves_tac tables_side. Qed.

(** A cast completes normally and changes nothing. *)
Lemma run_castArgument arg type st :
  ∃ v, castArgument arg type st = (Normal v, st).
Proof.
  unfold castArgument. destruct type; simpl; eauto.
  destruct (decide _); eauto.
Qed.

Lemma castArgument_context arg type st1 st2 :
  context st1 = context st2 →
  (castArgument arg type st1).1 = (castArgument arg type st2).1.
Proof.
  intros H. unfold castArgument. destruct type; simpl; try done.
  - by destruct (decide _).
  - by rewrite H.
Qed.

Lemma run_consumeArgument_param arg st definition pending' :
  pendingParamDefinitions st = definition :: pending' →
  ∃ v, castArgument arg (ParamDefinition.type definition) st = (Normal v, st) ∧
    consumeArgument arg st =
    (Normal (),
     set_commandArgs (commandArgs st ++ [v])
       (set_pendingParamDefinitions pending' st)).
Proof.
  intros H.
  destruct (run_castArgument arg (ParamDefinition.type definition) st)
    as [v Hv].
  destruct (run_castArgument arg (ParamDefinition.type definition)
              (set_pendingParamDefinitions pending' st)) as [v' Hv'].
  assert (v' = v) as ->.
  { pose proof (castArgument_context arg (ParamDefinition.type definition)
                  (set_pendingParamDefinitions pending' st) st eq_refl) as E.
    rewrite Hv, Hv' in E. by injection E. }
  exists v. split; [done |].
  unfold consumeArgument. rewrite run_bind, run_gets, H. simpl.
  rewrite run_bind. simpl. rewrite run_bind, Hv'. reflexivity.
Qed.

Lemma run_consumeArgument_extra arg st :
  pendingParamDefinitions st = [] →
  ∃ v,
    match paramsType st with
    | Some type => castArgument arg type st = (Normal v, st)
    | None => v = VString arg
    end ∧
    consumeArgument arg st =
    (Normal (), set_commandExtraArgs (commandExtraArgs st ++ [v]) st).
Proof.
  intros H. unfold consumeArgument. rewrite run_bind, run_gets, H. simpl.
  rewrite run_bind, run_gets. destruct (paramsType st) as [type |].
  - destruct (run_castArgument arg type st) as [v Hv]. exists v.
    split; [done |]. rewrite run_bind, Hv. reflexivity.
  - exists (VString arg). split; [done |]. reflexivity.
Qed.

Ltac params_side :=
  unfold params_inv, paramDefinitions; simpl; intros; assumption.

Lemma params_castArgument arg type :
  preserves params_inv (castArgument arg type).
Proof. unfold castArgument. preserves_tac params_side. Qed.
#[global] Hint Resolve params_castArgument : preserves.

Lemma params_consumeOption name definition :
  preserves params_inv (consumeOption name definition).
Proof. unfold consumeOption. preserves_tac params_side. Qed.
Lemma params_satisfy_required name definition :
  preserves params_inv (satisfy_required name definition).
Proof. unfold satisfy_required. preserves_tac params_side. Qed.
Lemma params_set_toggle name : preserves params_inv (set_toggle name).
Proof. unfold set_toggle. preserves_tac params_side. Qed.
#[global] Hint Resolve params_consumeOption params_satisfy_required
  params_set_toggle : preserves.

Lemma params_consumeFlags flags : preserves params_inv (consumeFlags flags).
Proof.
  induction flags as [| c rest IH]; simpl; [auto with preserves |].
  preserves_tac params_side.
Qed.
Lemma params_consumeToggleOrOption name :
  preserves params_inv (consumeToggleOrOption name).
Proof. unfold consumeToggleOrOption. preserves_tac params_side. Qed.

Lemma params_consumeArgument arg : preserves params_inv (consumeArgument arg).
Proof.
  intros st c st' (consumed & Hc & Hl).
  destruct (pendingParamDefinitions st) as [| definition pending'] eqn:E.
  - destruct (run_consumeArgument_extra arg st E) as (v & _ & ->).
    intros [= _ <-]. exists consumed. simpl. by rewrite E.
  - destruct (run_consumeArgument_param arg st _ _ E) as (v & _ & ->).
    intros [= _ <-]. exists (consumed ++ [definition]).
    unfold paramDefinitions in *. simpl. rewrite Hc, <- app_assoc.
    split; [done |]. rewrite !length_app. simpl. lia.
Qed.
#[global] Hint Resolve params_consumeFlags params_consumeToggleOrOption
  params_consumeArgument : preserves.

Lemma params_turn : preserves params_inv turn.
Proof. unfold turn, dispatch. preserves_tac params_side. Qed.

Lemma preserves_while_args P fuel :
  preserves P turn → preserves P (while_args fuel).
Proof.
  intros Ht. induction fuel as [| fuel IH]; simpl; [auto with preserves |].
  preserves_tac fail.
Qed.

Lemma preserves_loop P : preserves P turn → preserves P loop.
Proof.
  intros Ht. unfold loop. pose proof (preserves_while_args P) as Hw.
  apply preserves_bind; [auto with preserves | intros n]. by apply Hw.
Qed.

Lemma params_inv_enter sequence l cwd w : params_inv (enter sequence l cwd w).
Proof. by exists []. Qed.

Lemma tables_defined_enter sequence l cwd w :
  tables_defined (enter sequence l cwd w).
Proof.
  unfold tables_defined. simpl. intros [ods ->]. simpl. split; eauto.
Qed.

(** ** Hash tables *)

Lemma member_get {V} k (h : HashTable.t V) :
  HashTable.member k h = true ↔ is_Some (HashTable.get k h).
Proof.
  unfold HashTable.member. rewrite bool_decide_eq_true.
  induction h as [| [k' v] h IH]; simpl.
  - rewrite elem_of_nil. split; [done | by intros [? [=]]].
  - rewrite elem_of_cons. destruct (decide (k' = k)) as [-> |].
    + split; eauto.
    + rewrite <- IH. split; [intros [? | ?]; [congruence | done] | by right].
Qed.

Lemma member_false_get {V} k (h : HashTable.t V) :
  HashTable.member k h = false ↔ HashTable.get k h = None.
Proof.
  rewrite <- not_true_iff_false, member_get, eq_None_not_Some. done.
Qed.

Lemma own_spec {V} k (h : HashTable.t V) :
  HashTable.own k h = true ↔ k ≠ "__proto__" ∧ is_Some (HashTable.get k h).
Proof.
  unfold HashTable.own.
  rewrite andb_true_iff, bool_decide_eq_true, member_get. done.
Qed.

Lemma own_get {V} k (h : HashTable.t V) :
  HashTable.own k h = true → is_Some (HashTable.get k h).
Proof. intros H. apply own_spec in H. tauto. Qed.

Lemma own_false {V} k (h : HashTable.t V) :
  HashTable.own k h = false ↔ k = "__proto__" ∨ HashTable.get k h = None.
Proof.
  rewrite <- not_true_iff_false, own_spec, eq_None_not_Some.
  destruct (decide (k = "__proto__")); tauto.
Qed.

Lemma own_empty {V} k : HashTable.own k (@HashTable.empty V) = false.
Proof. apply own_false. by right. Qed.

Lemma own_proto {V} (h : HashTable.t V) : HashTable.own "__proto__" h = false.
Proof. done. Qed.

Lemma hasOwnProperty_true {V} k (h : HashTable.t V) :
  HashTable.hasOwnProperty k h = Some true ↔
  HashTable.own "hasOwnProperty" h = false ∧ HashTable.own k h = true.
Proof.
  unfold HashTable.hasOwnProperty.
  destruct (HashTable.own "hasOwnProperty" h); split;
    [done | by intros [? ?] | by intros [= ->] | by intros [_ ->]].
Qed.

Lemma hasOwnProperty_name {V} k (h : HashTable.t V) :
  HashTable.hasOwnProperty k h = Some true → k ≠ "__proto__".
Proof.
  intros H. apply hasOwnProperty_true in H as [_ H].
  apply own_spec in H. tauto.
Qed.

Lemma hasOwnProperty_false {V} k (h : HashTable.t V) :
  HashTable.hasOwnProperty k h = Some false ↔
  HashTable.own "hasOwnProperty" h = false ∧ HashTable.own k h = false.
Proof.
  unfold HashTable.hasOwnProperty.
  destruct (HashTable.own "hasOwnProperty" h); split;
    [done | by intros [? ?] | by intros [= ->] | by intros [_ ->]].
Qed.

Lemma hasOwnProperty_None {V} k (h : HashTable.t V) :
  HashTable.hasOwnProperty k h = None ↔
  HashTable.own "hasOwnProperty" h = true.
Proof.
  unfold HashTable.hasOwnProperty.
  by destruct (HashTable.own "hasOwnProperty" h).
Qed.

Lemma get_assign {V} k k' (v : V) h :
  HashTable.get k (HashTable.assign k' v h) =
  if decide (k' = k) then Some v else HashTable.get k h.
Proof.
  induction h as [| [k0 v0] h IH]; simpl.
  - done.
  - destruct (decide (k0 = k')) as [-> |]; simpl.
    + by destruct (decide (k' = k)).
    + destruct (decide (k0 = k)) as [-> |].
      * by destruct (decide (k' = k)); [congruence |].
      * done.
Qed.

Lemma keys_assign {V} k (v : V) h :
  (HashTable.assign k v h).*1 =
  if HashTable.member k h then h.*1 else h.*1 ++ [k].
Proof.
  unfold HashTable.member.
  induction h as [| [k0 v0] h IH]; csimpl; [done |].
  destruct (decide (k0 = k)) as [-> |]; csimpl.
  - rewrite bool_decide_eq_true_2; [done | by left].
  - rewrite IH. destruct (bool_decide (k ∈ h.*1)) eqn:E.
    + apply bool_decide_eq_true in E.
      rewrite bool_decide_eq_true_2; [done | by right].
    + apply bool_decide_eq_false in E.
      rewrite bool_decide_eq_false_2; [done |].
      rewrite elem_of_cons. intros [? | ?]; [congruence | done].
Qed.

Lemma takes_name `{HashTable.Typeof V} k (v : V) :
  k ≠ "__proto__" → HashTable.takes k v = true.
Proof. intros Hk. unfold HashTable.takes. by rewrite bool_decide_eq_true_2. Qed.

Lemma get_set `{HashTable.Typeof V} k k' (v : V) h :
  HashTable.get k (HashTable.set k' v h) =
  if decide (k' = k) then
    if HashTable.takes k' v then Some v else HashTable.get k h
  else HashTable.get k h.
Proof.
  unfold HashTable.set. destruct (HashTable.takes k' v).
  - apply get_assign.
  - by destruct (decide _).
Qed.

Lemma get_set_eq `{HashTable.Typeof V} k (v : V) h :
  k ≠ "__proto__" → HashTable.get k (HashTable.set k v h) = Some v.
Proof. intros Hk. by rewrite get_set, decide_True, takes_name. Qed.

Lemma get_set_ne `{HashTable.Typeof V} k k' (v : V) h :
  k' ≠ k → HashTable.get k (HashTable.set k' v h) = HashTable.get k h.
Proof. intros Hk. by rewrite get_set, decide_False. Qed.

Lemma own_set `{HashTable.Typeof V} k k' (v : V) h :
  HashTable.own k (HashTable.set k' v h) = true ↔
  HashTable.own k h = true ∨ (k = k' ∧ k ≠ "__proto__").
Proof.
  rewrite !own_spec, get_set.
  destruct (decide (k' = k)) as [-> |].
  - destruct (decide (k = "__proto__")) as [-> |].
    + tauto.
    + rewrite takes_name by done. split; [tauto |].
      intros _. split; eauto.
  - split; [tauto |]. intros [? | [-> _]]; [done | congruence].
Qed.

Lemma keys_set `{HashTable.Typeof V} k (v : V) h :
  (HashTable.set k v h).*1 =
  if HashTable.takes k v then
    if HashTable.member k h then h.*1 else h.*1 ++ [k]
  else h.*1.
Proof.
  unfold HashTable.set. destruct (HashTable.takes k v); [apply keys_assign | done].
Qed.

Lemma get_delete {V} k k' (h : HashTable.t V) :
  HashTable.get k (HashTable.delete k' h) =
  if decide (k' = k ∧ k' ≠ "__proto__") then None else HashTable.get k h.
Proof.
  unfold HashTable.delete. destruct (decide (k' = "__proto__")) as [-> |].
  { rewrite decide_False; [done | tauto]. }
  induction h as [| [k0 v0] h IH].
  - simpl. by destruct (decide _).
  - rewrite filter_cons. simpl. destruct (decide (k0 ≠ k')) as [Hn | Hn]; simpl.
    + rewrite IH. destruct (decide (k0 = k)) as [-> |]; [| done].
      rewrite decide_False; [done |]. intros [? _]. congruence.
    + apply dec_stable in Hn as ->. rewrite IH.
      destruct (decide (k' = k)) as [-> |].
      * rewrite decide_True; [| done]. by rewrite decide_True.
      * rewrite decide_False; [done | tauto].
Qed.

Lemma own_delete {V} k k' (h : HashTable.t V) :
  HashTable.own k (HashTable.delete k' h) = true ↔
  HashTable.own k h = true ∧ k ≠ k'.
Proof.
  rewrite !own_spec, get_delete.
  destruct (decide (k' = k ∧ k' ≠ "__proto__")) as [[-> ?] | Hn].
  - split; [by intros [_ [? [=]]] | tauto].
  - split; [| tauto]. intros [Hp Hs]. split; [done |]. intros ->. tauto.
Qed.

(** A definition is an object, which any assignment stores. *)
Lemma takes_definition k (definition : OptionDefinition.t) :
  HashTable.takes k definition = true.
Proof. apply orb_true_r. Qed.

(** ** Constructed parsers *)

Lemma register_option_flags maps definition :
  (∀ flag name, HashTable.get flag maps.2 = Some name →
     is_Some (HashTable.get name maps.1)) →
  ∀ flag name,
    HashTable.get flag (register_option maps definition).2 = Some name →
    is_Some (HashTable.get name (register_option maps definition).1).
Proof.
  intros H flag name. unfold register_option.
  destruct (truthy_flag _) as [f |]; simpl;
    rewrite ?get_set, ?takes_definition.
  - destruct (decide (f = flag)); [destruct (HashTable.takes f _) |].
    + intros [= <-]. rewrite decide_True; eauto.
    + intros Hg. apply H in Hg. destruct (decide _); eauto.
    + intros Hg. apply H in Hg. destruct (decide _); eauto.
  - intros Hg. apply H in Hg. destruct (decide _); eauto.
Qed.

Lemma foldl_register_option_flags definitions maps :
  (∀ flag name, HashTable.get flag maps.2 = Some name →
     is_Some (HashTable.get name maps.1)) →
  ∀ flag name,
    HashTable.get flag (foldl register_option maps definitions).2 = Some name →
    is_Some (HashTable.get name (foldl register_option maps definitions).1).
Proof.
  revert maps. induction definitions as [| d ds IH]; intros maps H; [done |].
  simpl. apply IH. by apply register_option_flags.
Qed.

(** In a constructed parser the maps exist exactly when the option
    definitions do, and every flag leads to a defined option. *)
Lemma constructed_maps this :
  constructed this →
  (is_Some (ArgsParser.optionDefinitionMap this) →
   is_Some (ArgsParser.optionDefinitions this)) ∧
  (is_Some (ArgsParser.optionFlagMapping this) →
   is_Some (ArgsParser.optionDefinitions this)) ∧
  ∀ mapping flag name,
    ArgsParser.optionFlagMapping this = Some mapping →
    HashTable.get flag mapping = Some name →
    ∃ map definition,
      ArgsParser.optionDefinitionMap this = Some map ∧
      HashTable.get name map = Some definition.
Proof.
  intros ->. simpl.
  destruct (ArgsParser.optionDefinitions this) as [ods |]; simpl.
  - split; [eauto |]. split; [eauto |].
    intros mapping flag name [= <-] Hg.
    apply foldl_register_option_flags in Hg as [definition Hd]; [eauto |].
    intros ? ? [=].
  - split; [by intros [? [=]] |]. split; [by intros [? [=]] |].
    by intros ? ? ? [=].
Qed.

Lemma register_option_1 maps d :
  (register_option maps d).1
  = HashTable.set (OptionDefinition.name d) d maps.1.
Proof. unfold register_option. by destruct (truthy_flag _). Qed.

Lemma truthy_flag_spec flag f :
  truthy_flag flag = Some f ↔ flag = Some f ∧ f ≠ EmptyString.
Proof.
  destruct flag as [[| c s] |]; simpl; split; try done.
  - by intros [[= <-] ?].
  - intros [= <-]. done.
  - by intros [[= <-] _].
  - by intros [? _].
Qed.

Lemma foldl_register_option_own definitions maps k :
  HashTable.own k (foldl register_option maps definitions).1 = true ↔
  HashTable.own k maps.1 = true ∨
  (k ≠ "__proto__" ∧ k ∈ OptionDefinition.name <$> definitions).
Proof.
  revert maps. induction definitions as [| d definitions IH]; intros maps.
  - simpl. rewrite elem_of_nil. tauto.
  - simpl. rewrite IH, register_option_1, own_set, elem_of_cons.
    split; [| intros [? | [? [<- | ?]]]; tauto].
    intros [[? | [-> ?]] | ?]; tauto.
Qed.

Lemma foldl_register_option_own_flag definitions maps k :
  HashTable.own k (foldl register_option maps definitions).2 = true ↔
  HashTable.own k maps.2 = true ∨
  (k ≠ "__proto__" ∧
   ∃ d, d ∈ definitions ∧ truthy_flag (OptionDefinition.flag d) = Some k).
Proof.
  revert maps. induction definitions as [| d' definitions IH]; intros maps.
  - simpl. split; [by left |]. intros [? | (_ & d & Hin & _)]; [done |].
    by apply elem_of_nil in Hin.
  - simpl. rewrite IH. unfold register_option.
    destruct (truthy_flag (OptionDefinition.flag d')) as [f' |] eqn:E; simpl.
    + rewrite own_set. split.
      * intros [[? | [-> ?]] | (? & d & Hin & Hd)]; [by left | |].
        -- right. split; [done |]. exists d'. split; [by left | done].
        -- right. split; [done |]. exists d. split; [by right | done].
      * intros [? | (? & d & Hin & Hd)]; [by left; left |].
        apply elem_of_cons in Hin as [-> | Hin].
        -- left. right. split; [congruence | done].
        -- right. eauto.
    + split.
      * intros [? | (? & d & Hin & Hd)]; [by left |]. right.
        split; [done |]. exists d. split; [by right | done].
      * intros [? | (? & d & Hin & Hd)]; [by left |].
        apply elem_of_cons in Hin as [-> | Hin]; [congruence |].
        right. eauto.
Qed.

(** When no option has [hasOwnProperty] for its name or its flag, the
    two maps have no own property of that name. *)
Lemma unshadowed_maps this :
  constructed this → unshadowed this →
  (∀ map, ArgsParser.optionDefinitionMap this = Some map →
          HashTable.own "hasOwnProperty" map = false) ∧
  (∀ mapping, ArgsParser.optionFlagMapping this = Some mapping →
              HashTable.own "hasOwnProperty" mapping = false).
Proof.
  intros Hc Hu. unfold unshadowed in Hu. rewrite Forall_forall in Hu.
  rewrite Hc. simpl.
  destruct (ArgsParser.optionDefinitions this) as [ods |]; simpl in *;
    [| by split].
  split; intros m [= <-]; apply not_true_iff_false; intros Ho.
  - apply foldl_register_option_own in Ho as [Ho | [_ Hin]];
      [by apply own_get in Ho as [? [=]] |].
    apply list_elem_of_fmap in Hin as (d & Hn & Hd).
    destruct (Hu d Hd). congruence.
  - apply foldl_register_option_own_flag in Ho as [Ho | (_ & d & Hd & Hf)];
      [by apply own_get in Ho as [? [=]] |].
    apply truthy_flag_spec in Hf as [Hf _]. destruct (Hu d Hd). congruence.
Qed.

(** ** Help requests *)

Lemma is_help_spec arg :
  is_help arg = true ↔ arg = "-h" ∨ arg = "-?" ∨ arg = "--help".
Proof. apply bool_decide_eq_true. Qed.

Lemma consume_help sequence cwd this pre h post :
  is_help h = true →
  is_normal (consume sequence cwd this pre).1 →
  ∃ st,
    consume sequence cwd this (pre ++ h :: post) =
    (Normal (Some help_result), st).
Proof.
  intros Hh Hn.
  destruct (consume sequence cwd this pre) as [c st] eqn:E.
  pose proof (loop_consume (h :: post) sequence cwd 1%positive
    {| arrays := {[1%positive := pre ++ h :: post]}; self := this |}
    pre c st) as L.
  specialize (L (lookup_singleton_eq _ _) E).
  unfold consume. destruct c as [[r |] | e |]; simpl in Hn; try done.
  - destruct L as (st' & _ & ->).
    rewrite consume_while in E. apply while_some in E as ->. eauto.
  - destruct L as (st' & R & T & ->).
    assert (tokens st' = Some (h :: post)) as T'.
    { destruct (rel_tokens _ _ _ R) as (ts0 & T0 & ->). rewrite T in T0.
      by injection T0 as <-. }
    rewrite (run_while_cons _ _ _ _ T'), (run_turn _ _ _ T').
    unfold dispatch. rewrite Hh. eauto.
Qed.

(** ** The checks after the loop *)

Lemma append_cons x (a b : string) : String x a +:+ b = String x (a +:+ b).
Proof. reflexivity. Qed.

Lemma append_assoc (a b c : string) : (a +:+ b) +:+ c = a +:+ b +:+ c.
Proof.
  induction a as [| x a IH]; [done |]. by rewrite !append_cons, IH.
Qed.

(** The names between back quotes, as the message of the required
    options writes them, are the quoted names joined by a comma. *)
Lemma join_quoted name names :
  "`" +:+ JS.join "`, `" (name :: names) +:+ "`" =
  JS.join ", " (quote <$> name :: names).
Proof.
  unfold JS.join. revert name.
  induction names as [| name' names IH]; intros name; [done |].
  change (String.concat "`, `" (name :: name' :: names))
    with (name +:+ "`, `" +:+ String.concat "`, `" (name' :: names)).
  change (String.concat ", " (quote <$> name :: name' :: names))
    with (quote name +:+ ", " +:+
          String.concat ", " (quote <$> name' :: names)).
  rewrite <- IH. unfold quote. rewrite !append_assoc. done.
Qed.

(** The statements after the loop, as one case analysis. *)
Lemma run_finish st :
  finish st =
  let this := self (world st) in
  let expecting := ArgsParser.requiredParamsNumber this in
  let got := length (commandArgs st) in
  let pending := pendingParamDefinitions st in
  if got <? expecting then
    (Throw (usage_error this
       ("Expecting argument(s) " +:+
        JS.join ", "
          ((λ definition, quote (ParamDefinition.name definition))
           <$> take (expecting - got) pending))), st)
  else
    match HashTable.keys <$> requiredOptionMap st with
    | Some (name :: names) =>
      (Throw (usage_error this
         ("Missing required option(s) `" +:+
          JS.join "`, `" (name :: names) +:+ "`")), st)
    | _ =>
      let st1 :=
        set_commandArgs
          (commandArgs st ++ (ParamDefinition.default <$> pending)) st in
      match commandExtraArgs st, ArgsParser.paramsDefinition this with
      | _ :: _, None =>
        (Throw (usage_error this
           ("Expecting " +:+ JS.string_of_nat (length (paramDefinitions st))
            +:+ " parameter(s) at most but got " +:+
            JS.string_of_nat
              (length (commandExtraArgs st) + length (paramDefinitions st))
            +:+ " instead")), st1)
      | [], Some definition =>
        if ParamsDefinition.required definition then
          (Throw (usage_error this
             ("Expecting at least one element for variadic parameters `"
              +:+ ParamsDefinition.name definition +:+ "`")), st1)
        else (Normal (result_of st1), st1)
      | _, _ => (Normal (result_of st1), st1)
      end
    end.
Proof.
  unfold finish, check_required_params, check_required_options,
    fill_defaults, check_extra, result, result_of, usage_error.
  cbv [mbind M_bind mret M_ret gets modify throw_UsageError throw].
  cbv zeta. destruct (_ <? _); [reflexivity |]. simpl.
  destruct (HashTable.keys <$> requiredOptionMap st) as [[| name names] |];
    try reflexivity;
    destruct (commandExtraArgs st) as [| v vs] eqn:E,
      (ArgsParser.paramsDefinition (self (world st))) as [d |];
    try destruct (ParamsDefinition.required d);
    simpl; rewrite ?E; reflexivity.
Qed.

(** The state the loop of a call leaves. *)
Lemma consume_state sequence cwd this ts c st :
  consume sequence cwd this ts = (c, st) →
  self (world st) = this ∧ params_inv st ∧ tables_defined st.
Proof.
  intros H. unfold consume in H. split; [| split].
  - apply frames_loop in H. by rewrite (fs_self _ _ H).
  - eapply (preserves_loop params_inv params_turn); [| exact H].
    apply params_inv_enter.
  - eapply (preserves_loop tables_defined tables_turn); [| exact H].
    apply tables_defined_enter.
Qed.

Lemma consume_some sequence cwd this ts r st :
  consume sequence cwd this ts = (Normal (Some r), st) → r = help_result.
Proof. rewrite consume_while. apply while_some. Qed.

(** ** Options *)

Lemma castArgument_value arg type st st' v :
  castArgument arg type st = (Normal v, st) → context st' = context st →
  castArgument arg type st' = (Normal v, st').
Proof.
  intros H Hc. destruct (run_castArgument arg type st') as [v' H'].
  pose proof (castArgument_context arg type st' st Hc) as E.
  rewrite H, H' in E. by injection E as ->.
Qed.

Lemma run_satisfy_required name definition st :
  (OptionDefinition.required definition = true →
   is_Some (requiredOptionMap st)) →
  satisfy_required name definition st =
  (Normal (), satisfied name definition st).
Proof.
  unfold satisfy_required, satisfied.
  destruct (OptionDefinition.required definition); [| done].
  intros H. destruct (H eq_refl) as [req E].
  rewrite run_bind, run_gets, E. reflexivity.
Qed.

Lemma run_set_toggle name st options :
  commandOptions st = Some options →
  set_toggle name st =
  (Normal (),
   set_commandOptions
     (Some (HashTable.set name (VBoolean true) options)) st).
Proof.
  intros E. unfold set_toggle. rewrite run_bind, run_gets, E. reflexivity.
Qed.

Lemma run_consumeOption_missing name definition st :
  tokens st = Some [] →
  consumeOption name definition st =
  (Throw (usage_error (self (world st))
     ("Expecting value for option `" +:+ name +:+ "`")), st).
Proof.
  intros T. unfold consumeOption.
  by rewrite (run_bind_normal _ _ _ _ _ (run_args_shift_nil _ T)).
Qed.

Lemma run_consumeOption_dash name definition st value rest :
  tokens st = Some (value :: rest) → starts_with_dash value = true →
  consumeOption name definition st =
  (Throw (usage_error (self (world st))
     ("Expecting a value instead of an option or toggle " +:+ JS.dquote
      +:+ value +:+ JS.dquote +:+ " for option `" +:+ name +:+ "`")),
   set_array (args st) rest st).
Proof.
  intros T D. unfold consumeOption.
  rewrite (run_bind_normal _ _ _ _ _ (run_args_shift_cons _ _ _ T)), D.
  reflexivity.
Qed.

Lemma run_consumeOption_value name definition st value rest options v :
  tokens st = Some (value :: rest) → starts_with_dash value = false →
  commandOptions st = Some options →
  castArgument value (OptionDefinition.type definition) st = (Normal v, st) →
  consumeOption name definition st =
  (Normal (),
   set_commandOptions (Some (HashTable.set name v options))
     (set_array (args st) rest st)).
Proof.
  intros T D E Hv. unfold consumeOption.
  rewrite (run_bind_normal _ _ _ _ _ (run_args_shift_cons _ _ _ T)), D.
  rewrite (run_bind_normal _ _ _ _ _
             (castArgument_value _ _ _ (set_array (args st) rest st) _
                Hv eq_refl)).
  rewrite run_bind, run_gets. simpl. rewrite E. reflexivity.
Qed.

Lemma run_consumeToggleOrOption name st map definition :
  ArgsParser.optionDefinitionMap (self (world st)) = Some map →
  HashTable.hasOwnProperty name map = Some true →
  HashTable.get name map = Some definition →
  (OptionDefinition.required definition = true →
   is_Some (requiredOptionMap st)) →
  consumeToggleOrOption name st =
  (if OptionDefinition.toggle definition then set_toggle name
   else consumeOption name definition) (satisfied name definition st).
Proof.
  intros Hm Hh Hg Hr. unfold consumeToggleOrOption.
  rewrite run_bind, run_gets, Hm, Hh.
  rewrite (run_bind_normal (defined (Some true)) _ st true st eq_refl).
  rewrite Hg.
  rewrite (run_bind_normal (defined (Some definition)) _ st definition st
             eq_refl).
  by rewrite (run_bind_normal _ _ _ _ _ (run_satisfy_required _ _ _ Hr)).
Qed.

(** The tables a well-formed state has when the parser has maps. *)
Lemma well_formed_tables st :
  well_formed st →
  is_Some (ArgsParser.optionDefinitionMap (self (world st))) ∨
  is_Some (ArgsParser.optionFlagMapping (self (world st))) →
  is_Some (commandOptions st) ∧ is_Some (requiredOptionMap st).
Proof.
  intros (Hc & _ & Ht & _) H. apply Ht.
  destruct (constructed_maps _ Hc) as (H1 & H2 & _). destruct H; auto.
Qed.

Lemma is_help_long name : is_help ("--" +:+ name) = true → name = "help".
Proof.
  rewrite is_help_spec. rewrite !append_cons.
  intros [[=] | [[=] | [=]]]. done.
Qed.

(** ** Flags *)

Lemma bind_ret_unit (m : M unit) st : (m ≫= λ _, mret ()) st = m st.
Proof. rewrite run_bind. by destruct (m st) as [[[] | e |] s]. Qed.

Lemma consumeFlags_cons c rest :
  consumeFlags (String c rest) =
  let flag := String c EmptyString in
  optionFlagMapping ← gets (λ st, ArgsParser.optionFlagMapping (self (world st)));
  match optionFlagMapping with
  | Some optionFlagMapping =>
    known ← defined (HashTable.hasOwnProperty flag optionFlagMapping);
    if known : bool then
      name ← defined (HashTable.get flag optionFlagMapping);
      optionDefinitionMap ←
        gets (λ st, ArgsParser.optionDefinitionMap (self (world st)));
      optionDefinitionMap ← defined optionDefinitionMap;
      definition ← defined (HashTable.get name optionDefinitionMap);
      satisfy_required name definition;;
      (if OptionDefinition.toggle definition then set_toggle name
       else
         match rest with
         | EmptyString => consumeOption name definition
         | _ =>
           throw_UsageError
             "Only the last flag in a sequence can refer to an option instead of a toggle"
         end);;
      consumeFlags rest
    else
      throw_UsageError
        ("Unknown option flag " +:+ JS.dquote +:+ flag +:+ JS.dquote)
  | None =>
    throw_UsageError
      ("Unknown option flag " +:+ JS.dquote +:+ flag +:+ JS.dquote)
  end.
Proof. reflexivity. Qed.

(** ** The lone dash *)

Lemma run_turn_dash st rest :
  tokens st = Some ("-" :: rest) →
  turn st = (Normal None, set_array (args st) rest st).
Proof. intros T. by rewrite (run_turn _ _ _ T). Qed.

Lemma outcome_while_rel fuel1 fuel2 st1 st2 ts :
  rel [] st1 st2 → tokens st1 = Some ts →
  length ts < fuel1 → length ts < fuel2 →
  outcome (while_args fuel1 st1) = outcome (while_args fuel2 st2).
Proof.
  intros R T H1 H2. destruct (while_args fuel1 st1) as [c s1] eqn:E.
  pose proof (while_respects fuel1 fuel2 [] st1 st2 ts c s1 R T H1) as L.
  rewrite app_nil_r in L. specialize (L H2 E).
  destruct c as [[r |] | e |].
  - by destruct L as (s2 & _ & ->).
  - destruct L as (s2 & R' & T' & ->). rewrite run_while_nil.
    + simpl. destruct (finish s1) as [c1 s1'] eqn:F.
      by destruct (respects_finish _ _ _ _ _ R' F) as (s2' & -> & _);
        [by left |].
    + destruct (rel_tokens _ _ _ R') as (ts0 & T0 & ->).
      rewrite T' in T0. by injection T0 as <-.
  - by destruct (L eq_refl) as (s2 & _ & ->).
  - by destruct (L eq_refl) as (s2 & _ & ->).
Qed.

(** ** Well-formed states *)


Lemma well_formed_enter sequence l cwd w :
  constructed (self w) → is_Some (arrays w !! l) →
  well_formed (enter sequence l cwd w).
Proof.
  intros Hc Hl. split; [done |]. split; [done |].
  split; [apply tables_defined_enter | apply params_inv_enter].
Qed.

Lemma well_formed_turn st c st' :
  well_formed st → turn st = (c, st') → well_formed st'.
Proof.
  intros (Hc & [ts Ht] & Htab & Hp) H.
  pose proof (frames_turn _ _ _ H) as F. split; [| split; [| split]].
  - by rewrite (fs_self _ _ F).
  - destruct (fs_tokens _ _ F ts Ht) as (ts' & -> & _). eauto.
  - by eapply tables_turn.
  - by eapply params_turn.
Qed.

(** ** The required options left *)

Lemma elem_of_keys {V} k (h : HashTable.t V) :
  k ∈ HashTable.keys h ↔ HashTable.own k h = true.
Proof.
  unfold HashTable.own, HashTable.member.
  rewrite andb_true_iff, !bool_decide_eq_true.
  unfold HashTable.keys. cbv zeta.
  rewrite elem_of_app, list_elem_of_filter, list_elem_of_filter.
  rewrite list_elem_of_fmap. split.
  - intros [([i k'] & -> & Hi) | [_ Hk]]; [| done].
    rewrite merge_sort_Permutation in Hi.
    apply list_elem_of_omap in Hi as (k0 & Hk0 & Hf).
    apply list_elem_of_filter in Hk0.
    destruct (HashTable.array_index k0); simpl in Hf; [| done].
    by injection Hf as _ <-.
  - intros Hk. destruct (HashTable.array_index k) as [i |] eqn:E.
    + left. exists (i, k). split; [done |].
      rewrite merge_sort_Permutation. apply list_elem_of_omap.
      exists k. rewrite E. split; [| done]. by apply list_elem_of_filter.
    + by right.
Qed.

Lemma pending_required_satisfied name definition st n :
  pending_required (satisfied name definition st) n ↔
  pending_required st n ∧
  ¬ (OptionDefinition.required definition = true ∧ n = name).
Proof.
  unfold pending_required, satisfied.
  destruct (OptionDefinition.required definition); simpl.
  - destruct (requiredOptionMap st) as [req |]; simpl.
    + split.
      * intros (r & [= <-] & Ho). apply own_delete in Ho as [Ho Hn].
        split; [eauto |]. by intros [_ ?].
      * intros [(r & [= <-] & Ho) Hn]. eexists. split; [done |].
        apply own_delete. split; [done |]. intros ->. by apply Hn.
    + split; [by intros (? & [=] & _) | by intros [(? & [=] & _) _]].
  - split; [intros ?; split; [done | by intros [[=] _]] | by intros []].
Qed.

Lemma supply_step_refl st : supply_step (λ _, False) st st.
Proof.
  split; [done | intros n; tauto |].
  intros ts T. exists [], ts. by repeat split.
Qed.

Lemma supply_step_trans S1 S2 st1 st2 st3 :
  supply_step S1 st1 st2 → supply_step S2 st2 st3 →
  supply_step (λ n, S1 n ∨ S2 n) st1 st3.
Proof.
  intros [Hs1 Hr1 Ht1] [Hs2 Hr2 Ht2]. split.
  - congruence.
  - intros n. rewrite Hr2, Hr1. tauto.
  - intros ts T. destruct (Ht1 ts T) as (vs1 & ts1 & -> & T1 & F1).
    destruct (Ht2 ts1 T1) as (vs2 & ts2 & -> & T2 & F2).
    exists (vs1 ++ vs2), ts2. rewrite app_assoc. split; [done |].
    split; [done |]. by apply Forall_app.
Qed.

Lemma supply_step_iff (S1 S2 : string → Prop) st st' :
  (∀ n, S1 n ↔ S2 n) → supply_step S1 st st' → supply_step S2 st st'.
Proof.
  intros H [Hs Hr Ht]. split; [done | | done].
  intros n. rewrite Hr, H. done.
Qed.

Lemma supply_step_satisfied name definition st :
  supply_step (λ n, OptionDefinition.required definition = true ∧ n = name)
    st (satisfied name definition st).
Proof.
  split.
  - unfold satisfied. by destruct (OptionDefinition.required _).
  - apply pending_required_satisfied.
  - intros ts T. exists [], ts. split; [done |]. split; [| done].
    unfold satisfied. by destruct (OptionDefinition.required _).
Qed.

Lemma supply_step_set_commandOptions v st :
  supply_step (λ _, False) st (set_commandOptions v st).
Proof.
  split; [done | intros n; unfold pending_required; simpl; tauto |].
  intros ts T. exists [], ts. by repeat split.
Qed.

(** A value is taken for an option only when it begins with no dash. *)
Lemma consumeOption_normal name definition st st' :
  consumeOption name definition st = (Normal (), st') →
  supply_step (λ _, False) st st'.
Proof.
  destruct (tokens st) as [[| value rest] |] eqn:T.
  - by rewrite (run_consumeOption_missing _ _ _ T).
  - destruct (starts_with_dash value) eqn:D.
    + by rewrite (run_consumeOption_dash _ _ _ _ _ T D).
    + destruct (run_castArgument value (OptionDefinition.type definition) st)
        as [v Hv].
      destruct (commandOptions st) as [options |] eqn:Ho.
      * rewrite (run_consumeOption_value _ _ _ _ _ _ _ T D Ho Hv).
        intros [= <-]. split; [done | |].
        -- intros n. unfold pending_required. simpl. tauto.
        -- intros ts. rewrite T. intros [= <-]. exists [value], rest.
           split; [done |]. split; [apply tokens_set_array |].
           by apply Forall_singleton.
      * unfold consumeOption.
        rewrite (run_bind_normal _ _ _ _ _ (run_args_shift_cons _ _ _ T)), D.
        rewrite (run_bind_normal _ _ _ _ _
                   (castArgument_value _ _ _
                      (set_array (args st) rest st) _ Hv eq_refl)).
        rewrite run_bind, run_gets. simpl. by rewrite Ho.
  - unfold consumeOption.
    by rewrite (run_bind_throw _ _ _ _ _ (run_args_shift_undefined _ T)).
Qed.

Lemma satisfy_required_normal name definition st st' :
  satisfy_required name definition st = (Normal (), st') →
  st' = satisfied name definition st.
Proof.
  unfold satisfy_required, satisfied.
  destruct (OptionDefinition.required definition); [| by intros [= <-]].
  rewrite run_bind, run_gets.
  destruct (requiredOptionMap st) as [req |]; [| done]. by intros [= <-].
Qed.

Lemma set_toggle_normal name st st' :
  set_toggle name st = (Normal (), st') → supply_step (λ _, False) st st'.
Proof.
  unfold set_toggle. rewrite run_bind, run_gets.
  destruct (commandOptions st) as [options |]; [| done].
  intros [= <-]. apply supply_step_set_commandOptions.
Qed.

Lemma consumeToggleOrOption_normal name st st' :
  consumeToggleOrOption name st = (Normal (), st') →
  (∃ map, ArgsParser.optionDefinitionMap (self (world st)) = Some map ∧
          HashTable.own name map = true) ∧
  supply_step (λ n, n = name ∧ marked_required (self (world st)) n) st st'.
Proof.
  unfold consumeToggleOrOption. rewrite run_bind, run_gets.
  destruct (ArgsParser.optionDefinitionMap (self (world st)))
    as [map |] eqn:Hm; [| done].
  destruct (HashTable.hasOwnProperty name map) as [[|] |] eqn:Hh;
    [| done | done].
  rewrite (run_bind_normal (defined (Some true)) _ st true st eq_refl).
  apply hasOwnProperty_true in Hh as [_ Hh].
  destruct (own_get _ _ Hh) as [definition Hd]. rewrite Hd.
  rewrite (run_bind_normal (defined (Some definition)) _ st definition st
             eq_refl).
  rewrite run_bind.
  destruct (satisfy_required name definition st) as [[[] | e |] s] eqn:E;
    [| done | done].
  apply satisfy_required_normal in E as ->. intros H.
  split; [eauto |].
  assert (supply_step (λ _, False) (satisfied name definition st) st') as St.
  { destruct (OptionDefinition.toggle definition).
    - by apply set_toggle_normal in H.
    - by apply consumeOption_normal in H. }
  eapply supply_step_iff;
    [| exact (supply_step_trans _ _ _ _ _
                (supply_step_satisfied name definition st) St)].
  intros n. unfold marked_required. rewrite Hm. simpl. split.
  - intros [[Hr ->] | []]. split; [done |]. eauto.
  - intros [-> (d & Hd' & Hr)]. left. split; [| done]. congruence.
Qed.

Lemma consumeFlags_normal flags st st' :
  consumeFlags flags st = (Normal (), st') →
  supply_step
    (λ n, ∃ c, c ∈ String.list_ascii_of_string flags ∧
               ArgsParser.optionFlagMapping (self (world st))
               ≫= HashTable.get (String c EmptyString) = Some n ∧
               marked_required (self (world st)) n)
    st st'.
Proof.
  revert st. induction flags as [| c rest IH]; intros st.
  - intros [= <-]. eapply supply_step_iff; [| apply supply_step_refl].
    intros n. split; [done |]. intros (c & Hc & _).
    by apply elem_of_nil in Hc.
  - rewrite consumeFlags_cons. cbv zeta. rewrite run_bind, run_gets.
    destruct (ArgsParser.optionFlagMapping (self (world st)))
      as [mapping |] eqn:Hf; [| done].
    destruct (HashTable.hasOwnProperty _ mapping) as [[|] |] eqn:Hh;
      [| done | done].
    rewrite (run_bind_normal (defined (Some true)) _ st true st eq_refl).
    apply hasOwnProperty_true in Hh as [_ Hh].
    destruct (own_get _ _ Hh) as [name Hn]. rewrite Hn.
    rewrite (run_bind_normal (defined (Some name)) _ st name st eq_refl).
    rewrite run_bind, run_gets.
    destruct (ArgsParser.optionDefinitionMap (self (world st)))
      as [map |] eqn:Hm; [| done].
    rewrite (run_bind_normal (defined (Some map)) _ st map st eq_refl).
    destruct (HashTable.get name map) as [definition |] eqn:Hd; [| done].
    rewrite (run_bind_normal (defined (Some definition)) _ st definition st
               eq_refl).
    rewrite run_bind.
    destruct (satisfy_required name definition st) as [[[] | e |] s] eqn:E;
      [| done | done].
    apply satisfy_required_normal in E as ->. rewrite run_bind.
    match goal with
    | |- context [match ?m (satisfied name definition st) with _ => _ end] =>
      destruct (m (satisfied name definition st)) as [[[] | e |] s1] eqn:E1;
        [| done | done]
    end.
    intros H. apply IH in H.
    assert (supply_step (λ _, False) (satisfied name definition st) s1) as St.
    { destruct (OptionDefinition.toggle definition).
      - by apply set_toggle_normal in E1.
      - destruct rest; [by apply consumeOption_normal in E1 | done]. }
    pose proof (supply_step_trans _ _ _ _ _
                  (supply_step_trans _ _ _ _ _
                     (supply_step_satisfied name definition st) St) H) as R.
    assert (self (world s1) = self (world st)) as Hs.
    { rewrite (ss_self _ _ _ St). unfold satisfied.
      by destruct (OptionDefinition.required _). }
    eapply supply_step_iff; [| exact R]. rewrite Hs, Hf.
    intros n. simpl. unfold marked_required. rewrite Hm. simpl. split.
    + intros [[[Hr ->] | []] | (c' & Hc' & Hg & Hmk)].
      * exists c. split; [by left |]. split; [done |]. eauto.
      * exists c'. split; [by right |]. done.
    + intros (c' & Hc' & Hg & Hmk). apply elem_of_cons in Hc' as [-> | Hc'].
      * left. left. rewrite Hn in Hg. injection Hg as ->.
        destruct Hmk as (d & Hd' & Hr). split; [| done]. congruence.
      * right. eauto.
Qed.

Lemma consumeArgument_normal arg st st' :
  consumeArgument arg st = (Normal (), st') → supply_step (λ _, False) st st'.
Proof.
  destruct (pendingParamDefinitions st) as [| definition pending'] eqn:E.
  - destruct (run_consumeArgument_extra arg st E) as (v & _ & ->).
    intros [= <-]. split; [done | |].
    + intros n. unfold pending_required. simpl. tauto.
    + intros ts T. exists [], ts. by repeat split.
  - destruct (run_consumeArgument_param arg st _ _ E) as (v & _ & ->).
    intros [= <-]. split; [done | |].
    + intros n. unfold pending_required. simpl. tauto.
    + intros ts T. exists [], ts. by repeat split.
Qed.

Lemma starts_with_dash_spec arg :
  starts_with_dash arg = true ↔ arg = "-" +:+ JS.substr 1 arg.
Proof.
  unfold starts_with_dash. rewrite bool_decide_eq_true.
  destruct arg as [| c arg]; [by split |].
  change (JS.char_at 0 (String c arg)) with (Some c).
  change ("-" +:+ JS.substr 1 (String c arg)) with (String "-" arg).
  split; [by intros [= ->] | by intros [= ->]].
Qed.

Lemma supplies_dash this token n :
  supplies this token n → starts_with_dash token = true.
Proof. by intros [[-> _] | (flags & c & -> & _)]. Qed.

Lemma dispatch_normal arg st st' :
  dispatch arg st = (Normal None, st') →
  supply_step
    (λ n, supplies (self (world st)) arg n ∧
          marked_required (self (world st)) n)
    st st'.
Proof.
  unfold dispatch. destruct (is_help arg); [done |]. rewrite run_bind.
  destruct (starts_with_dash arg) eqn:D.
  - pose proof (proj1 (starts_with_dash_spec arg) D) as Ea.
    destruct (bool_decide (JS.char_at 1 arg = Some "-"%char)) eqn:D2.
    + apply bool_decide_eq_true in D2.
      assert (arg = "--" +:+ JS.substr 2 arg) as Ea2.
      { rewrite Ea in D2 |- *. destruct (JS.substr 1 arg) as [| c s]; [done |].
        change (JS.char_at 1 ("-" +:+ String c s)) with (Some c) in D2.
        by injection D2 as ->. }
      destruct (consumeToggleOrOption _ st) as [[[] | e |] s] eqn:E;
        [| done | done].
      intros [= <-]. apply consumeToggleOrOption_normal in E as [Hk St].
      eapply supply_step_iff; [| exact St]. intros n. split.
      * intros [-> Hm]. split; [| done]. left. by rewrite <- Ea2.
      * intros [[[Hn _] | (flags & c & Hf & Hc & _)] Hm]; split; try done.
        -- rewrite Hn. done.
        -- rewrite Hf in D2. by destruct flags as [| c' flags]; [| destruct Hc].
    + apply bool_decide_eq_false in D2.
      destruct (consumeFlags _ st) as [[[] | e |] s] eqn:E; [| done | done].
      intros [= <-]. apply consumeFlags_normal in E.
      eapply supply_step_iff; [| exact E]. intros n. split.
      * intros (c & Hc & Hg & Hm). split; [| done]. right.
        exists (JS.substr 1 arg), c. split; [done |]. split; [| done].
        rewrite Ea in D2. by destruct (JS.substr 1 arg).
      * intros [[[Hn _] | (flags & c & Hf & Hc & Hin & Hg)] Hm].
        -- by rewrite Hn in D2.
        -- exists c. rewrite Hf.
           change (JS.substr 1 ("-" +:+ flags)) with flags. done.
  - destruct (consumeArgument arg st) as [[[] | e |] s] eqn:E;
      [| done | done].
    intros [= <-]. apply consumeArgument_normal in E.
    eapply supply_step_iff; [| exact E]. intros n. split; [done |].
    intros [Hs _]. apply supplies_dash in Hs. congruence.
Qed.

(** The required options the loop leaves are those it found, less the
    ones marked required that a token supplies. *)
Lemma while_required fuel st ts st' :
  while_args fuel st = (Normal None, st') → tokens st = Some ts →
  ∀ n, pending_required st' n ↔
       pending_required st n ∧
       ¬ ∃ token, token ∈ ts ∧ supplies (self (world st)) token n ∧
                  marked_required (self (world st)) n.
Proof.
  revert st ts. induction fuel as [| fuel IH]; intros st ts; [done |].
  intros H T. destruct ts as [| arg rest].
  - rewrite (run_while_nil _ _ T) in H. injection H as <-.
    intros n. split; [| tauto]. intros Hp. split; [done |].
    intros (token & Hin & _). by apply elem_of_nil in Hin.
  - rewrite (run_while_cons _ _ _ _ T), (run_turn _ _ _ T) in H.
    destruct (dispatch arg _) as [[[r |] | e |] s] eqn:E; try done.
    apply dispatch_normal in E. destruct E as [Hs Hr Ht].
    destruct (Ht rest (tokens_set_array _ _)) as (vs & ts' & -> & T' & Hv).
    intros n. rewrite (IH _ _ H T' n), Hr, Hs. simpl.
    unfold pending_required at 2. simpl.
    fold (pending_required st n). split.
    + intros [[Hp Hn] Hn']. split; [done |].
      intros (token & Hin & Hsup & Hm).
      apply elem_of_cons in Hin as [-> | Hin]; [tauto |].
      apply elem_of_app in Hin as [Hin | Hin]; [| eauto].
      apply supplies_dash in Hsup.
      rewrite Forall_forall in Hv. rewrite (Hv _ Hin) in Hsup. done.
    + intros [Hp Hn]. split; [split; [done |] |].
      * intros [Hsup Hm]. apply Hn. exists arg. split; [by left | done].
      * intros (token & Hin & Hsup & Hm). apply Hn. exists token.
        split; [| done]. right. apply elem_of_app. by right.
Qed.

Lemma foldl_declare_option definitions tables n :
  HashTable.own n (foldl declare_option tables definitions).2 = true ↔
  HashTable.own n tables.2 = true ∨
  ∃ definition,
    definition ∈ definitions ∧ OptionDefinition.name definition = n ∧
    OptionDefinition.required definition = true ∧ n ≠ "__proto__".
Proof.
  revert tables. induction definitions as [| d ds IH]; intros tables.
  - simpl. split; [by left |]. intros [? | (d & Hd & _)]; [done |].
    by apply elem_of_nil in Hd.
  - simpl. rewrite IH. unfold declare_option. simpl. split.
    + intros [H | (d' & Hd' & Hn & Hr)].
      * destruct (OptionDefinition.required d) eqn:Hr; [| by left].
        apply own_set in H as [H | [-> Hp]]; [by left |].
        right. exists d. split; [by left | done].
      * right. exists d'. split; [by right | done].
    + intros [H | (d' & Hd' & Hn & Hr & Hp)].
      * left. destruct (OptionDefinition.required d); [| done].
        apply own_set. by left.
      * apply elem_of_cons in Hd' as [-> | Hd'].
        -- left. rewrite Hr. apply own_set. by right.
        -- right. eauto.
Qed.

(** At the start of the loop the required options pending are those
    declared required, but for the name [__proto__], which the table
    never holds. *)
Lemma pending_required_enter sequence l cwd w n :
  pending_required (enter sequence l cwd w) n ↔
  declared_required (self w) n ∧ n ≠ "__proto__".
Proof.
  unfold pending_required, declared_required. simpl.
  destruct (ArgsParser.optionDefinitions (self w)) as [ods |]; simpl.
  - split.
    + intros (req & [= <-] & Ho).
      apply foldl_declare_option in Ho as [Ho | (d & ? & ? & ? & ?)];
        [by apply own_get in Ho as [? [=]] |].
      split; [by exists ods, d | done].
    + intros [(ods' & d & [= <-] & ? & ? & ?) Hp]. eexists. split; [done |].
      apply foldl_declare_option. right. by exists d.
  - split; [by intros (? & [=] & _) | by intros [(? & ? & [=] & _) _]].
Qed.

Lemma pending_required_keys st n :
  n ∈ default [] (HashTable.keys <$> requiredOptionMap st) ↔
  pending_required st n.
Proof.
  unfold pending_required. destruct (requiredOptionMap st) as [req |]; simpl.
  - rewrite elem_of_keys. split; [eauto | by intros (? & [= <-] & ?)].
  - rewrite elem_of_nil. split; [done | by intros (? & [=] & _)].
Qed.

(** The required options left by the loop of a call: those declared
    required, less the ones marked required that a token supplies. *)
Lemma remaining_required sequence cwd this ts st n :
  consume sequence cwd this ts = (Normal None, st) →
  n ∈ default [] (HashTable.keys <$> requiredOptionMap st) ↔
  (declared_required this n ∧ n ≠ "__proto__") ∧
  ¬ ∃ token, token ∈ ts ∧ supplies this token n ∧ marked_required this n.
Proof.
  rewrite consume_while. intros H.
  rewrite pending_required_keys,
    (while_required _ _ ts _ H (tokens_consume_enter _ _ _ _)).
  by rewrite pending_required_enter.
Qed.

Lemma foldl_register_option_get definitions maps n d :
  NoDup (OptionDefinition.name <$> definitions) →
  HashTable.get n (foldl register_option maps definitions).1 = Some d ↔
  (d ∈ definitions ∧ OptionDefinition.name d = n) ∨
  ((n ∉ OptionDefinition.name <$> definitions) ∧
   HashTable.get n maps.1 = Some d).
Proof.
  revert maps. induction definitions as [| d0 ds IH]; intros maps.
  - intros _. simpl. split.
    + intros H. right. split; [apply not_elem_of_nil | done].
    + intros [[H _] | [_ H]]; [by apply elem_of_nil in H | done].
  - rewrite fmap_cons, NoDup_cons. intros [Hn0 Hnd]. simpl.
    rewrite (IH _ Hnd).
    assert ((register_option maps d0).1
            = HashTable.set (OptionDefinition.name d0) d0 maps.1) as ->.
    { unfold register_option. by destruct (truthy_flag _). }
    rewrite get_set, takes_definition, not_elem_of_cons. split.
    + intros [[Hd Hn] | [Hn H]].
      * left. split; [by right | done].
      * destruct (decide (OptionDefinition.name d0 = n)) as [E |].
        -- injection H as <-. left. split; [by left | done].
        -- right. split; [split; [congruence | done] | done].
    + intros [[Hd Hn] | [[Hne Hn] H]].
      * apply elem_of_cons in Hd as [-> | Hd].
        -- right. rewrite decide_True by done. split; [congruence | done].
        -- left. done.
      * right. rewrite decide_False by congruence. done.
Qed.

(** With distinct option names, an option is marked required exactly
    when it is declared required. *)
Lemma marked_required_declared this definitions n :
  constructed this →
  ArgsParser.optionDefinitions this = Some definitions →
  NoDup (OptionDefinition.name <$> definitions) →
  marked_required this n ↔ declared_required this n.
Proof.
  intros Hc Ho Hnd. unfold marked_required, declared_required.
  rewrite Hc. simpl. rewrite Ho. simpl. split.
  - intros (d & Hg & Hr). exists definitions, d. split; [done |].
    apply (foldl_register_option_get _ _ _ _ Hnd) in Hg
      as [[Hd Hn] | [_ [=]]].
    done.
  - intros (ods & d & [= <-] & Hd & Hn & Hr). exists d. split; [| done].
    apply (foldl_register_option_get _ _ _ _ Hnd). by left.
Qed.

(** With distinct option names the required options left are those
    declared required that no token supplies. *)
Lemma remaining_required_distinct sequence cwd this definitions ts st n :
  constructed this →
  ArgsParser.optionDefinitions this = Some definitions →
  NoDup (OptionDefinition.name <$> definitions) →
  consume sequence cwd this ts = (Normal None, st) →
  n ∈ default [] (HashTable.keys <$> requiredOptionMap st) ↔
  declared_required this n ∧ n ≠ "__proto__" ∧
  ¬ ∃ token, token ∈ ts ∧ supplies this token n.
Proof.
  intros Hc Ho Hnd H. rewrite (remaining_required _ _ _ _ _ _ H).
  pose proof (marked_required_declared this definitions n Hc Ho Hnd) as Hm.
  split.
  - intros [[Hd Hp] Hn]. split; [done |]. split; [done |].
    intros (token & Hin & Hs). apply Hn. exists token. tauto.
  - intros (Hd & Hp & Hn). split; [done |].
    intros (token & Hin & Hs & _). eauto.
Qed.

(** ** Termination of [parse] *)

(** The fuel [parse] gives its loop is enough: a call returns or
    throws. *)
Lemma parse_total sequence a cwd w : (parse sequence a cwd w).1 ≠ Timeout.
Proof.
  unfold parse. destruct (arrays w !! a) as [ts |] eqn:H.
  - destruct (concat_lookup _ _ _ H) as (l & w' & -> & _ & Ha & _).
    assert (tokens (enter sequence l cwd w') = Some ts) as T.
    { rewrite tokens_enter, Ha. apply lookup_insert_eq. }
    unfold body. rewrite run_bind, (run_loop _ _ T).
    pose proof (while_total (S (length ts)) _ ts T (Nat.lt_succ_diag_r _))
      as Hw.
    destruct (while_args _ _) as [[[r |] | e |] st]; simpl in *; try done.
    pose proof (total_finish st) as Hf. by destruct (finish st).
  - unfold concat. by rewrite H.
Qed.

(** ** The examples of the specification *)

Example toggle_by_flag :
  ∃ r options,
    run parser_ab ["x"; "1"; "-v"] = Normal r ∧
    ParsedArgs.options r = Some options ∧
    HashTable.get "verbose" options = Some (VBoolean true).
Proof. by repeat eexists. Qed.

Example number_by_flag :
  ∃ r options,
    run parser_ab ["x"; "1"; "-c"; "3"] = Normal r ∧
    ParsedArgs.options r = Some options ∧
    HashTable.get "count" options = Some (VNumber (JS.Number "3")) ∧
    JS.Number "3" = S754_finite false 6755399441055744 (-51).
Proof. by repeat eexists. Qed.

(** ** The loop taken up again *)

Lemma state_eq (s1 s2 : State) :
  arrays (world s1) = arrays (world s2) → self (world s1) = self (world s2) →
  args s1 = args s2 → commandArgs s1 = commandArgs s2 →
  commandOptions s1 = commandOptions s2 →
  commandExtraArgs s1 = commandExtraArgs s2 →
  requiredOptionMap s1 = requiredOptionMap s2 → context s1 = context s2 →
  pendingParamDefinitions s1 = pendingParamDefinitions s2 → s1 = s2.
Proof.
  destruct s1 as [[a1 p1] ? ? ? ? ? ? ?], s2 as [[a2 p2] ? ? ? ? ? ? ?].
  simpl. by intros -> -> -> -> -> -> -> -> ->.
Qed.

Lemma turn_extend s ts suf s1 :
  tokens s = Some ts → turn s = (Normal None, s1) →
  ∃ ts1, tokens s1 = Some ts1 ∧ length ts1 < length ts ∧
    turn (set_array (args s) (ts ++ suf) s)
    = (Normal None, set_array (args s1) (ts1 ++ suf) s1).
Proof.
  intros T H.
  assert (rel suf s (set_array (args s) (ts ++ suf) s)) as R.
  { split; try done. exists ts. by rewrite tokens_set_array. }
  destruct (respects_turn suf _ _ _ _ R H (or_intror I)) as (s2 & H2 & R2).
  pose proof (frames_turn _ _ _ H) as F1.
  pose proof (frames_turn _ _ _ H2) as F2.
  destruct ts as [| arg rest].
  { unfold turn in H.
    rewrite (run_bind_normal _ _ _ _ _ (run_args_shift_nil _ T)) in H. done. }
  destruct (turn_shrinks _ _ _ _ _ T H) as (ts1 & T1 & Hsuf).
  exists ts1. split; [done |]. split.
  { apply suffix_length in Hsuf. simpl. lia. }
  rewrite H2. f_equal.
  destruct (rel_tokens _ _ _ R2) as (t & T1' & T2).
  rewrite T1 in T1'. injection T1' as <-.
  destruct F1 as [Fs1 Fa1 Fc1 Fo1 _ _], F2 as [Fs2 Fa2 Fc2 Fo2 _ _].
  simpl in Fa2, Fo2.
  destruct R2. apply state_eq; simpl; try congruence.
  apply map_eq. intros l. destruct (decide (l = args s)) as [-> | Hl].
  - rewrite <- Fa1 at 2. rewrite lookup_insert_eq.
    unfold tokens in T2. by rewrite Fa2 in T2.
  - rewrite Fo2 by done. rewrite Fa1.
    rewrite !lookup_insert_ne by done. by rewrite Fo1.
Qed.

Lemma while_extend fuel s ts suf st fuel' :
  tokens s = Some ts → length ts < fuel → length (ts ++ suf) < fuel' →
  while_args fuel s = (Normal None, st) →
  while_args fuel' (set_array (args s) (ts ++ suf) s)
  = resume st suf.
Proof.
  revert s ts fuel'. induction fuel as [| fuel IH]; intros s ts fuel' T L L' H;
    [lia |].
  destruct fuel' as [| fuel']; [lia |].
  destruct ts as [| arg rest].
  - rewrite (run_while_nil _ _ T) in H. injection H as <-.
    unfold resume. change ([] ++ suf) with suf in *.
    apply (while_fuel _ _ _ suf); [apply tokens_set_array | lia | lia].
  - rewrite (run_while_cons _ _ _ _ T) in H.
    destruct (turn s) as [[[r |] | e |] s1] eqn:E; try done.
    destruct (turn_extend _ _ suf _ T E) as (ts1 & T1 & L1 & E').
    rewrite (run_while_cons _ _ arg (rest ++ suf)) by apply tokens_set_array.
    rewrite E'.
    apply (IH s1 ts1); [done | simpl in L1; simpl in L; lia | | done].
    rewrite length_app in L' |- *. simpl in L', L1. lia.
Qed.

Lemma enter_set_array sequence cwd this ts ts' :
  set_array 1%positive ts'
    (enter sequence 1%positive cwd
       {| arrays := {[1%positive := ts]}; self := this |})
  = enter sequence 1%positive cwd
      {| arrays := {[1%positive := ts']}; self := this |}.
Proof.
  unfold set_array, enter. simpl. by rewrite insert_singleton_eq.
Qed.

Lemma consume_app sequence cwd this pre suf st :
  consume sequence cwd this pre = (Normal None, st) →
  consume sequence cwd this (pre ++ suf) = resume st suf.
Proof.
  rewrite !consume_while. intros H.
  rewrite <- (enter_set_array sequence cwd this pre (pre ++ suf)).
  exact (while_extend (S (length pre))
           (enter sequence 1%positive cwd
              {| arrays := {[1%positive := pre]}; self := this |})
           pre suf st (S (length (pre ++ suf)))
           (tokens_consume_enter _ _ _ _) (Nat.lt_succ_diag_r _)
           (Nat.lt_succ_diag_r _) H).
Qed.

(** ** No type errors *)

Lemma usage_only_usage this message {A} :
  usage_only this (@Throw A (usage_error this message)).
Proof. by exists message. Qed.

Lemma well_formed_set_array st ts :
  well_formed st → well_formed (set_array (args st) ts st).
Proof.
  intros (Hc & _ & Ht & Hp). split; [done |]. split; [| done].
  rewrite tokens_set_array. eauto.
Qed.

Lemma well_formed_satisfied name definition st :
  well_formed st → well_formed (satisfied name definition st).
Proof.
  intros (Hc & Htok & Ht & Hp). unfold satisfied.
  destruct (OptionDefinition.required definition); [| done].
  split; [done |]. split; [done |]. split; [| done].
  intros Ho. destruct (Ht Ho) as [H1 [req H2]]. split; [done |].
  simpl. rewrite H2. eauto.
Qed.

Lemma well_formed_set_commandOptions options st :
  well_formed st → well_formed (set_commandOptions (Some options) st).
Proof.
  intros (Hc & Htok & Ht & Hp). split; [done |]. split; [done |].
  split; [| done]. intros Ho. destruct (Ht Ho) as [_ H2]. split; [| done].
  simpl. eauto.
Qed.

Lemma satisfied_frame name definition st :
  self (world (satisfied name definition st)) = self (world st) ∧
  tokens (satisfied name definition st) = tokens st ∧
  commandOptions (satisfied name definition st) = commandOptions st ∧
  args (satisfied name definition st) = args st.
Proof. unfold satisfied. by destruct (OptionDefinition.required _). Qed.

Lemma usage_only_consumeOption name definition st :
  is_Some (tokens st) → is_Some (commandOptions st) →
  usage_only (self (world st)) (consumeOption name definition st).1.
Proof.
  intros [[| value rest] T] [options Ho].
  - rewrite (run_consumeOption_missing _ _ _ T). apply usage_only_usage.
  - destruct (starts_with_dash value) eqn:D.
    + rewrite (run_consumeOption_dash _ _ _ _ _ T D). apply usage_only_usage.
    + destruct (run_castArgument value (OptionDefinition.type definition) st)
        as [v Hv].
      by rewrite (run_consumeOption_value _ _ _ _ _ _ _ T D Ho Hv).
Qed.

Lemma run_consumeToggleOrOption_shadowed name st map :
  ArgsParser.optionDefinitionMap (self (world st)) = Some map →
  HashTable.own "hasOwnProperty" map = true →
  consumeToggleOrOption name st = (Throw ETypeError, st).
Proof.
  intros Hm Hs. unfold consumeToggleOrOption.
  rewrite run_bind, run_gets, Hm.
  by rewrite (proj2 (hasOwnProperty_None name map) Hs).
Qed.

Lemma run_consumeToggleOrOption_unknown name st :
  match ArgsParser.optionDefinitionMap (self (world st)) with
  | Some map => HashTable.hasOwnProperty name map = Some false
  | None => True
  end →
  consumeToggleOrOption name st =
  (Throw (usage_error (self (world st)) ("Unknown option `" +:+ name +:+ "`")),
   st).
Proof.
  intros H. unfold consumeToggleOrOption. rewrite run_bind, run_gets.
  destruct (ArgsParser.optionDefinitionMap (self (world st))) as [map |].
  - rewrite H.
    rewrite (run_bind_normal (defined (Some false)) _ st false st eq_refl).
    by rewrite run_throw_UsageError.
  - by rewrite run_throw_UsageError.
Qed.

Lemma usage_only_consumeToggleOrOption name st :
  well_formed st → unshadowed (self (world st)) →
  usage_only (self (world st)) (consumeToggleOrOption name st).1.
Proof.
  intros W U.
  destruct (ArgsParser.optionDefinitionMap (self (world st)))
    as [map |] eqn:Hm.
  2:{ rewrite run_consumeToggleOrOption_unknown; [| by rewrite Hm].
      apply usage_only_usage. }
  destruct (unshadowed_maps _ (proj1 W) U) as [Hs _]. specialize (Hs _ Hm).
  destruct (HashTable.own name map) eqn:Ho.
  2:{ rewrite run_consumeToggleOrOption_unknown;
        [| by rewrite Hm; apply hasOwnProperty_false].
      apply usage_only_usage. }
  destruct (own_get _ _ Ho) as [definition Hd].
  assert (HashTable.hasOwnProperty name map = Some true) as Hh
    by by apply hasOwnProperty_true.
  destruct (well_formed_tables st W) as [[options Ho'] Hreq]; [eauto |].
  rewrite (run_consumeToggleOrOption name st map definition Hm Hh Hd
             (λ _, Hreq)).
  destruct (satisfied_frame name definition st) as (Hs' & Ht & Hos & _).
  destruct (OptionDefinition.toggle definition).
  - rewrite (run_set_toggle name _ options); [done | congruence].
  - rewrite <- Hs'. apply usage_only_consumeOption.
    + rewrite Ht. by destruct W as (_ & ? & _).
    + rewrite Hos. eauto.
Qed.

Lemma flag_own {V} c (h : HashTable.t V) :
  HashTable.own (String c EmptyString) h = true ↔
  is_Some (HashTable.get (String c EmptyString) h).
Proof. rewrite own_spec. split; [tauto | by split]. Qed.

Lemma run_consumeFlags_undefined st c rest :
  ArgsParser.optionFlagMapping (self (world st)) = None →
  consumeFlags (String c rest) st =
  (Throw (usage_error (self (world st))
     ("Unknown option flag " +:+ JS.dquote +:+ String c EmptyString
      +:+ JS.dquote)), st).
Proof.
  intros Hf. rewrite consumeFlags_cons. cbv zeta.
  by rewrite run_bind, run_gets, Hf.
Qed.

Lemma run_consumeFlags_shadowed st c rest mapping :
  ArgsParser.optionFlagMapping (self (world st)) = Some mapping →
  HashTable.own "hasOwnProperty" mapping = true →
  consumeFlags (String c rest) st = (Throw ETypeError, st).
Proof.
  intros Hf Hs. rewrite consumeFlags_cons. cbv zeta.
  rewrite run_bind, run_gets, Hf.
  by rewrite (proj2 (hasOwnProperty_None _ mapping) Hs).
Qed.

(** What the first flag of a cluster does, when no flag is
    [hasOwnProperty]. *)
Lemma run_consumeFlags_flag st c rest mapping :
  well_formed st →
  ArgsParser.optionFlagMapping (self (world st)) = Some mapping →
  HashTable.own "hasOwnProperty" mapping = false →
  let flag := String c EmptyString in
  match HashTable.get flag mapping with
  | None =>
    consumeFlags (String c rest) st =
    (Throw (usage_error (self (world st))
       ("Unknown option flag " +:+ JS.dquote +:+ flag +:+ JS.dquote)), st)
  | Some name =>
    ∃ map definition options,
      ArgsParser.optionDefinitionMap (self (world st)) = Some map ∧
      HashTable.get name map = Some definition ∧
      commandOptions st = Some options ∧
      if OptionDefinition.toggle definition then
        consumeFlags (String c rest) st =
        consumeFlags rest
          (set_commandOptions
             (Some (HashTable.set name (VBoolean true) options))
             (satisfied name definition st))
      else
        match rest with
        | EmptyString =>
          consumeFlags (String c rest) st =
          consumeOption name definition (satisfied name definition st)
        | _ =>
          consumeFlags (String c rest) st =
          (Throw (usage_error (self (world st))
             "Only the last flag in a sequence can refer to an option instead of a toggle"),
           satisfied name definition st)
        end
  end.
Proof.
  intros W Hf Hsh flag.
  rewrite consumeFlags_cons. cbv zeta. fold flag.
  rewrite run_bind, run_gets, Hf.
  unfold HashTable.hasOwnProperty. rewrite Hsh.
  rewrite (run_bind_normal (defined (Some (HashTable.own flag mapping))) _ st
             (HashTable.own flag mapping) st eq_refl).
  destruct (HashTable.get flag mapping) as [name |] eqn:Hg.
  2:{ assert (HashTable.own flag mapping = false) as ->; [| done].
      apply own_false. by right. }
  assert (HashTable.own flag mapping = true) as -> by (apply flag_own; eauto).
  destruct W as (Hc & Htok & Ht & Hp).
  destruct (constructed_maps _ Hc) as (_ & H2 & Hflags).
  destruct (Hflags _ _ _ Hf Hg) as (map & definition & Hm & Hd).
  destruct Ht as [[options Ho] Hreq]; [apply H2; eauto |].
  exists map, definition, options. split; [done |]. split; [done |].
  split; [done |].
  rewrite (run_bind_normal (defined (Some name)) _ st name st eq_refl).
  rewrite run_bind, run_gets, Hm.
  rewrite (run_bind_normal (defined (Some map)) _ st map st eq_refl), Hd.
  rewrite (run_bind_normal (defined (Some definition)) _ st definition st
             eq_refl).
  rewrite (run_bind_normal _ _ _ _ _
             (run_satisfy_required name definition st (λ _, Hreq))).
  destruct (satisfied_frame name definition st) as (Hs & _ & Hos & _).
  rewrite Ho in Hos.
  destruct (OptionDefinition.toggle definition) eqn:Htg.
  - by rewrite (run_bind_normal _ _ _ _ _ (run_set_toggle name _ options Hos)).
  - destruct rest as [| c' rest'].
    + by rewrite bind_ret_unit.
    + rewrite run_bind, run_throw_UsageError, Hs. done.
Qed.

Lemma usage_only_consumeFlags flags st :
  well_formed st → unshadowed (self (world st)) →
  usage_only (self (world st)) (consumeFlags flags st).1.
Proof.
  revert st. induction flags as [| c rest IH]; intros st W U; [done |].
  destruct (ArgsParser.optionFlagMapping (self (world st)))
    as [mapping |] eqn:Hf.
  2:{ rewrite (run_consumeFlags_undefined _ _ _ Hf). apply usage_only_usage. }
  destruct (unshadowed_maps _ (proj1 W) U) as [_ Hsh]. specialize (Hsh _ Hf).
  pose proof (run_consumeFlags_flag st c rest mapping W Hf Hsh) as H.
  cbv zeta in H.
  destruct (HashTable.get _ mapping) as [name |].
  2:{ rewrite H. apply usage_only_usage. }
  destruct H as (map & definition & options & Hm & Hd & Ho & H).
  destruct (satisfied_frame name definition st) as (Hs' & Ht & Hos & _).
  destruct (OptionDefinition.toggle definition).
  - rewrite H.
    set (st' := set_commandOptions _ _).
    assert (self (world st') = self (world st)) as E.
    { unfold st'. simpl. apply satisfied_frame. }
    rewrite <- E. apply IH; [| by rewrite E].
    apply well_formed_set_commandOptions.
    by apply well_formed_satisfied.
  - destruct rest.
    + rewrite H, <- Hs'. apply usage_only_consumeOption.
      * rewrite Ht. by destruct W as (_ & ? & _).
      * rewrite Hos. eauto.
    + rewrite H. apply usage_only_usage.
Qed.

Lemma usage_only_dispatch arg st :
  well_formed st → unshadowed (self (world st)) →
  usage_only (self (world st)) (dispatch arg st).1.
Proof.
  intros W U. unfold dispatch. destruct (is_help arg); [done |].
  rewrite run_bind.
  destruct (starts_with_dash arg).
  - destruct (bool_decide _).
    + pose proof (usage_only_consumeToggleOrOption (JS.substr 2 arg) st W U)
        as H.
      by destruct (consumeToggleOrOption _ st) as [[[] | e |] s].
    + pose proof (usage_only_consumeFlags (JS.substr 1 arg) st W U) as H.
      by destruct (consumeFlags _ st) as [[[] | e |] s].
  - destruct (pendingParamDefinitions st) as [| definition pending'] eqn:E.
    + by destruct (run_consumeArgument_extra arg st E) as (v & _ & ->).
    + by destruct (run_consumeArgument_param arg st _ _ E) as (v & _ & ->).
Qed.

Lemma usage_only_while fuel st :
  well_formed st → unshadowed (self (world st)) →
  usage_only (self (world st)) (while_args fuel st).1.
Proof.
  revert st. induction fuel as [| fuel IH]; intros st W U; [done |].
  destruct W as (Hc & [[| arg rest] T] & Ht & Hp).
  - by rewrite (run_while_nil _ _ T).
  - rewrite (run_while_cons _ _ _ _ T).
    assert (well_formed st) as W by (split; eauto).
    pose proof (well_formed_turn st) as Wt.
    pose proof (frames_turn st) as Ft.
    rewrite (run_turn _ _ _ T) in Wt, Ft |- *.
    pose proof (usage_only_dispatch arg _ (well_formed_set_array st rest W) U)
      as H.
    destruct (dispatch arg _) as [[[r |] | e |] s]; try done.
    rewrite <- (fs_self _ _ (Ft _ _ eq_refl)).
    apply IH; [by eapply Wt | by rewrite (fs_self _ _ (Ft _ _ eq_refl))].
Qed.

Lemma usage_only_finish st : usage_only (self (world st)) (finish st).1.
Proof.
  rewrite run_finish. cbv zeta.
  destruct (_ <? _); [apply usage_only_usage |].
  destruct (HashTable.keys <$> _) as [[| ? ?] |];
    try apply usage_only_usage;
    destruct (commandExtraArgs st) as [| ? ?],
      (ArgsParser.paramsDefinition (self (world st))) as [d |];
    try destruct (ParamsDefinition.required d);
    first [apply usage_only_usage | done].
Qed.

Lemma usage_only_consume sequence cwd this ts :
  constructed this → unshadowed this →
  usage_only this (consume sequence cwd this ts).1 ∧
  usage_only this (outcome (consume sequence cwd this ts)).
Proof.
  intros Hc U. rewrite consume_while.
  set (st0 := enter _ _ _ _).
  assert (well_formed st0) as W.
  { apply well_formed_enter; [done |]. simpl. rewrite lookup_singleton_eq.
    eauto. }
  pose proof (usage_only_while (S (length ts)) st0 W U) as H.
  pose proof (frames_while_args (S (length ts)) st0) as F.
  change (self (world st0)) with this in H. split; [done |].
  destruct (while_args _ st0) as [[[r |] | e |] s]; try done.
  simpl. assert (self (world s) = this) as <-
    by apply (fs_self _ _ (F _ _ eq_refl)).
  apply usage_only_finish.
Qed.

(** ** Help *)

Lemma dispatch_help arg st r st' :
  dispatch arg st = (Normal (Some r), st') → is_help arg = true.
Proof.
  unfold dispatch. destruct (is_help arg); [done |]. rewrite run_bind.
  by destruct (_ st) as [[[] | e |] s].
Qed.

Lemma while_help fuel st ts r st' :
  while_args fuel st = (Normal (Some r), st') → tokens st = Some ts →
  ∃ h, h ∈ ts ∧ is_help h = true.
Proof.
  revert st ts. induction fuel as [| fuel IH]; intros st ts H T; [done |].
  destruct ts as [| arg rest]; [by rewrite (run_while_nil _ _ T) in H |].
  rewrite (run_while_cons _ _ _ _ T) in H.
  destruct (turn_shrinks st arg rest (turn st).1 (turn st).2 T)
    as (ts' & T' & Hsuf); [by destruct (turn st) |].
  rewrite (run_turn _ _ _ T) in H, T'.
  destruct (dispatch arg _) as [[[r' |] | e |] s] eqn:E; try done.
  - exists arg. split; [by left |]. by apply dispatch_help in E.
  - destruct (IH _ _ H T') as (h & Hin & Hh). exists h. split; [| done].
    right. destruct Hsuf as [k ->]. apply elem_of_app. by right.
Qed.

(** ** The values of the options *)

Lemma assign_step_same st st' :
  self (world st') = self (world st) →
  commandOptions st' = commandOptions st →
  requiredOptionMap st' = requiredOptionMap st →
  assign_step (λ _, False) st st'.
Proof.
  intros Hs Ho Hr. unfold option_value.
  split; unfold option_value, required_names; rewrite ?Ho, ?Hr; try done.
  - tauto.
  - by intros n _ _ [[] |].
Qed.

Lemma assign_step_trans S1 S2 st1 st2 st3 :
  assign_step S1 st1 st2 → assign_step S2 st2 st3 →
  assign_step (λ n, S1 n ∨ S2 n) st1 st3.
Proof.
  intros [Hs1 Hk1 Hy1 Ht1 Hd1 Hr1] [Hs2 Hk2 Hy2 Ht2 Hd2 Hr2]. split.
  - congruence.
  - intros n Hn. rewrite Hk2, Hk1; tauto.
  - intros n Hp. rewrite Hy2, Hy1 by done. tauto.
  - intros n Hp Hn H. rewrite <- Hs1 in Hn. apply Ht2; [done | done |].
    rewrite Hs1 in Hn. destruct H as [[H | H] | H]; [| by left |].
    + right. apply Ht1; [done | done | by left].
    + right. apply Ht1; [done | done | by right].
  - by rewrite Hd2.
  - by etrans.
Qed.

Lemma assign_step_iff (S1 S2 : string → Prop) st st' :
  (∀ n, S1 n ↔ S2 n) → assign_step S1 st st' → assign_step S2 st st'.
Proof.
  intros E [Hs Hk Hy Ht Hd Hr]. split; [done | | | | done | done].
  - intros n. rewrite <- E. apply Hk.
  - intros n Hp. rewrite <- E. by apply Hy.
  - intros n Hp. rewrite <- E. by apply Ht.
Qed.

Lemma assign_step_set name v st options :
  commandOptions st = Some options →
  (is_toggle (self (world st)) name → v = VBoolean true) →
  assign_step (λ n, n = name) st
    (set_commandOptions (Some (HashTable.set name v options)) st).
Proof.
  intros Ho Hv. split; unfold option_value; rewrite ?Ho; simpl.
  - done.
  - intros n Hn. rewrite get_set. by rewrite decide_False.
  - intros n Hp. rewrite get_set. destruct (decide (name = n)) as [-> |].
    + rewrite takes_name by done. split; eauto.
    + split; [eauto |]. by intros [? | ->].
  - intros n Hp Hn H. rewrite get_set.
    destruct (decide (name = n)) as [-> |].
    + by rewrite takes_name, Hv.
    + by destruct H as [-> | H].
  - split; eauto.
  - done.
Qed.

Lemma consumeOption_assign name definition st st' :
  ¬ is_toggle (self (world st)) name →
  consumeOption name definition st = (Normal (), st') →
  assign_step (λ n, n = name) st st'.
Proof.
  intros Hnt.
  destruct (tokens st) as [[| value rest] |] eqn:T.
  - by rewrite (run_consumeOption_missing _ _ _ T).
  - destruct (starts_with_dash value) eqn:D.
    + by rewrite (run_consumeOption_dash _ _ _ _ _ T D).
    + destruct (run_castArgument value (OptionDefinition.type definition) st)
        as [v Hv].
      destruct (commandOptions st) as [options |] eqn:Ho.
      * rewrite (run_consumeOption_value _ _ _ _ _ _ _ T D Ho Hv).
        intros [= <-].
        eapply assign_step_iff;
          [| exact (assign_step_trans _ _ _ _ _
                      (assign_step_same st (set_array (args st) rest st)
                         eq_refl eq_refl eq_refl)
                      (assign_step_set name v
                         (set_array (args st) rest st) options Ho
                         (λ H, False_ind _ (Hnt H))))].
        intros n. simpl. tauto.
      * unfold consumeOption.
        rewrite (run_bind_normal _ _ _ _ _ (run_args_shift_cons _ _ _ T)), D.
        rewrite (run_bind_normal _ _ _ _ _
                   (castArgument_value _ _ _
                      (set_array (args st) rest st) _ Hv eq_refl)).
        rewrite run_bind, run_gets. simpl. by rewrite Ho.
  - unfold consumeOption.
    by rewrite (run_bind_throw _ _ _ _ _ (run_args_shift_undefined _ T)).
Qed.

Lemma set_toggle_assign name st st' :
  set_toggle name st = (Normal (), st') → assign_step (λ n, n = name) st st'.
Proof.
  unfold set_toggle. rewrite run_bind, run_gets.
  destruct (commandOptions st) as [options |] eqn:Ho; [| done].
  intros [= <-]. by apply assign_step_set.
Qed.

Lemma assign_step_satisfied name definition st :
  assign_step (λ _, False) st (satisfied name definition st).
Proof.
  unfold satisfied.
  destruct (OptionDefinition.required definition);
    [| by apply assign_step_same].
  split; unfold option_value, required_names; simpl; try done.
  - tauto.
  - by intros n _ _ [[] |].
  - destruct (requiredOptionMap st) as [h |]; [| done]. simpl.
    unfold HashTable.delete. destruct (decide _); [done |].
    apply fmap_sublist, sublist_filter.
Qed.

(** What the definition [name] is mapped to does, once the required
    option is satisfied. *)
Lemma toggle_or_option_assign name definition map st st' :
  ArgsParser.optionDefinitionMap (self (world st)) = Some map →
  HashTable.get name map = Some definition →
  (if OptionDefinition.toggle definition then set_toggle name
   else consumeOption name definition) (satisfied name definition st)
  = (Normal (), st') →
  assign_step (λ n, n = name) st st'.
Proof.
  intros Hm Hd H.
  assert (assign_step (λ n, n = name) (satisfied name definition st) st')
    as St.
  { destruct (OptionDefinition.toggle definition) eqn:Ht.
    - by apply set_toggle_assign in H.
    - apply consumeOption_assign in H; [done |].
      destruct (satisfied_frame name definition st) as (-> & _).
      intros (d & Hd' & Ht'). rewrite Hm in Hd'. simpl in Hd'. congruence. }
  eapply assign_step_iff;
    [| exact (assign_step_trans _ _ _ _ _
                (assign_step_satisfied name definition st) St)].
  intros n. simpl. tauto.
Qed.

Lemma consumeToggleOrOption_assign name st st' :
  consumeToggleOrOption name st = (Normal (), st') →
  assign_step (λ n, n = name) st st'.
Proof.
  unfold consumeToggleOrOption. rewrite run_bind, run_gets.
  destruct (ArgsParser.optionDefinitionMap (self (world st)))
    as [map |] eqn:Hm; [| done].
  destruct (HashTable.hasOwnProperty name map) as [[|] |] eqn:Hh;
    [| done | done].
  rewrite (run_bind_normal (defined (Some true)) _ st true st eq_refl).
  apply hasOwnProperty_true in Hh as [_ Hh].
  destruct (own_get _ _ Hh) as [definition Hd]. rewrite Hd.
  rewrite (run_bind_normal (defined (Some definition)) _ st definition st
             eq_refl).
  rewrite run_bind.
  destruct (satisfy_required name definition st) as [[[] | e |] s] eqn:E;
    [| done | done].
  apply satisfy_required_normal in E as ->.
  by apply toggle_or_option_assign with map.
Qed.

Lemma consumeFlags_assign flags st st' :
  consumeFlags flags st = (Normal (), st') →
  assign_step
    (λ n, ∃ c, c ∈ String.list_ascii_of_string flags ∧
               ArgsParser.optionFlagMapping (self (world st))
               ≫= HashTable.get (String c EmptyString) = Some n)
    st st'.
Proof.
  revert st. induction flags as [| c rest IH]; intros st.
  - intros [= <-]. eapply assign_step_iff;
      [| apply (assign_step_same st st eq_refl eq_refl eq_refl)].
    intros n. split; [done |]. intros (c & Hc & _).
    by apply elem_of_nil in Hc.
  - rewrite consumeFlags_cons. cbv zeta. rewrite run_bind, run_gets.
    destruct (ArgsParser.optionFlagMapping (self (world st)))
      as [mapping |] eqn:Hf; [| done].
    destruct (HashTable.hasOwnProperty _ mapping) as [[|] |] eqn:Hh;
      [| done | done].
    rewrite (run_bind_normal (defined (Some true)) _ st true st eq_refl).
    apply hasOwnProperty_true in Hh as [_ Hh].
    destruct (own_get _ _ Hh) as [name Hn]. rewrite Hn.
    rewrite (run_bind_normal (defined (Some name)) _ st name st eq_refl).
    rewrite run_bind, run_gets.
    destruct (ArgsParser.optionDefinitionMap (self (world st)))
      as [map |] eqn:Hm; [| done].
    rewrite (run_bind_normal (defined (Some map)) _ st map st eq_refl).
    destruct (HashTable.get name map) as [definition |] eqn:Hd; [| done].
    rewrite (run_bind_normal (defined (Some definition)) _ st definition st
               eq_refl).
    rewrite run_bind.
    destruct (satisfy_required name definition st) as [[[] | e |] s] eqn:E;
      [| done | done].
    apply satisfy_required_normal in E as ->. rewrite run_bind.
    match goal with
    | |- context [match ?m (satisfied name definition st) with _ => _ end] =>
      destruct (m (satisfied name definition st)) as [[[] | e |] s1] eqn:E1;
        [| done | done]
    end.
    intros H. apply IH in H.
    assert (assign_step (λ n, n = name) st s1) as St.
    { apply toggle_or_option_assign with definition map; [done | done |].
      destruct (OptionDefinition.toggle definition); [done |].
      by destruct rest. }
    pose proof (assign_step_trans _ _ _ _ _ St H) as R.
    eapply assign_step_iff; [| exact R].
    rewrite (as_self _ _ _ St), Hf.
    intros n. simpl. split.
    + intros [-> | (c' & Hc' & Hg)].
      * exists c. split; [by left | done].
      * exists c'. split; [by right | done].
    + intros (c' & Hc' & Hg). apply elem_of_cons in Hc' as [-> | Hc'].
      * left. congruence.
      * right. eauto.
Qed.

Lemma consumeArgument_assign arg st st' :
  consumeArgument arg st = (Normal (), st') → assign_step (λ _, False) st st'.
Proof.
  destruct (pendingParamDefinitions st) as [| definition pending'] eqn:E.
  - destruct (run_consumeArgument_extra arg st E) as (v & _ & ->).
    intros [= <-]. by apply assign_step_same.
  - destruct (run_consumeArgument_param arg st _ _ E) as (v & _ & ->).
    intros [= <-]. by apply assign_step_same.
Qed.

Lemma dispatch_assign arg st st' :
  dispatch arg st = (Normal None, st') →
  assign_step (λ n, supplies (self (world st)) arg n) st st'.
Proof.
  unfold dispatch. destruct (is_help arg); [done |]. rewrite run_bind.
  destruct (starts_with_dash arg) eqn:D.
  - pose proof (proj1 (starts_with_dash_spec arg) D) as Ea.
    destruct (bool_decide (JS.char_at 1 arg = Some "-"%char)) eqn:D2.
    + apply bool_decide_eq_true in D2.
      assert (arg = "--" +:+ JS.substr 2 arg) as Ea2.
      { rewrite Ea in D2 |- *. destruct (JS.substr 1 arg) as [| c s]; [done |].
        change (JS.char_at 1 ("-" +:+ String c s)) with (Some c) in D2.
        by injection D2 as ->. }
      destruct (consumeToggleOrOption _ st) as [[[] | e |] s] eqn:E;
        [| done | done].
      intros [= <-].
      destruct (consumeToggleOrOption_normal _ _ _ E) as [Hk _].
      apply consumeToggleOrOption_assign in E.
      eapply assign_step_iff; [| exact E]. intros n. split.
      * intros ->. left. by rewrite <- Ea2.
      * intros [[Hn _] | (flags & c & Hf & Hc & _)].
        -- rewrite Hn. done.
        -- rewrite Hf in D2. by destruct flags as [| c' flags]; [| destruct Hc].
    + apply bool_decide_eq_false in D2.
      destruct (consumeFlags _ st) as [[[] | e |] s] eqn:E; [| done | done].
      intros [= <-]. apply consumeFlags_assign in E.
      eapply assign_step_iff; [| exact E]. intros n. split.
      * intros (c & Hc & Hg). right.
        exists (JS.substr 1 arg), c. split; [done |]. split; [| done].
        rewrite Ea in D2. by destruct (JS.substr 1 arg).
      * intros [[Hn _] | (flags & c & Hf & Hc & Hin & Hg)].
        -- by rewrite Hn in D2.
        -- exists c. rewrite Hf.
           change (JS.substr 1 ("-" +:+ flags)) with flags. done.
  - destruct (consumeArgument arg st) as [[[] | e |] s] eqn:E;
      [| done | done].
    intros [= <-]. apply consumeArgument_assign in E.
    eapply assign_step_iff; [| exact E]. intros n. split; [done |].
    intros Hs. apply supplies_dash in Hs. congruence.
Qed.

Lemma while_assign fuel st ts st' :
  while_args fuel st = (Normal None, st') → tokens st = Some ts →
  assign_step (λ n, ∃ token, token ∈ ts ∧ supplies (self (world st)) token n)
    st st'.
Proof.
  revert st ts. induction fuel as [| fuel IH]; intros st ts; [done |].
  intros H T. destruct ts as [| arg rest].
  - rewrite (run_while_nil _ _ T) in H. injection H as <-.
    eapply assign_step_iff;
      [| apply (assign_step_same st st eq_refl eq_refl eq_refl)].
    intros n. split; [done |]. intros (token & Hin & _).
    by apply elem_of_nil in Hin.
  - rewrite (run_while_cons _ _ _ _ T), (run_turn _ _ _ T) in H.
    destruct (dispatch arg _) as [[[r |] | e |] s] eqn:E; try done.
    destruct (dispatch_normal _ _ _ E) as [Hs _ Ht].
    destruct (Ht rest (tokens_set_array _ _)) as (vs & ts' & -> & T' & Hv).
    apply dispatch_assign in E.
    pose proof (assign_step_trans _ _ _ _ _
                  (assign_step_same st (set_array (args st) (vs ++ ts') st)
                     eq_refl eq_refl eq_refl)
                  (assign_step_trans _ _ _ _ _ E (IH _ _ H T'))) as R.
    eapply assign_step_iff; [| exact R]. rewrite Hs. simpl. intros n. split.
    + intros [[] | [Hsup | (token & Hin & Hsup)]].
      * exists arg. split; [by left | done].
      * exists token. split; [| done]. right. apply elem_of_app. by right.
    + intros (token & Hin & Hsup). right.
      apply elem_of_cons in Hin as [-> | Hin]; [by left |].
      apply elem_of_app in Hin as [Hin | Hin]; [| right; eauto].
      apply supplies_dash in Hsup.
      rewrite Forall_forall in Hv. rewrite (Hv _ Hin) in Hsup. done.
Qed.

(** ** The tables before the loop *)

Lemma foldl_initial definitions maps tables :
  (∀ n, n ≠ "__proto__" →
        HashTable.get n tables.1
        = initial_value <$> HashTable.get n maps.1) →
  ∀ n, n ≠ "__proto__" →
       HashTable.get n (foldl declare_option tables definitions).1
       = initial_value <$>
         HashTable.get n (foldl register_option maps definitions).1.
Proof.
  revert maps tables.
  induction definitions as [| d definitions IH]; intros maps tables H;
    [done |].
  simpl. apply IH. intros n Hp.
  rewrite register_option_1.
  unfold declare_option. simpl. rewrite !get_set.
  destruct (decide _) as [-> |]; [| by apply H].
  by rewrite !takes_name.
Qed.

Lemma option_value_enter sequence l cwd w n :
  constructed (self w) → n ≠ "__proto__" →
  option_value (enter sequence l cwd w) n
  = initial_value <$>
    (ArgsParser.optionDefinitionMap (self w) ≫= HashTable.get n).
Proof.
  intros Hc Hp. rewrite Hc. unfold option_value, enter, new_ArgsParser. simpl.
  destruct (ArgsParser.optionDefinitions (self w)) as [definitions |];
    [| done].
  simpl. by apply foldl_initial.
Qed.



Lemma constructed_undefined this :
  constructed this → ArgsParser.optionDefinitions this = None →
  ArgsParser.optionDefinitionMap this = None ∧
  ArgsParser.optionFlagMapping this = None.
Proof. intros Hc Hd. rewrite Hc. unfold new_ArgsParser. by rewrite Hd. Qed.


(** ** The state the loop leaves *)

Lemma consume_context sequence cwd this ts c st :
  consume sequence cwd this ts = (c, st) →
  context st = {| cwd := cwd; commands := sequence |}.
Proof. intros H. by rewrite (fs_context _ _ (frames_loop _ _ _ H)). Qed.

Lemma consume_assign sequence cwd this ts st :
  consume sequence cwd this ts = (Normal None, st) →
  assign_step (λ n, ∃ token, token ∈ ts ∧ supplies this token n)
    (enter sequence 1%positive cwd
       {| arrays := {[1%positive := ts]}; self := this |}) st.
Proof.
  rewrite consume_while. intros H.
  exact (while_assign _ _ ts _ H (tokens_consume_enter _ _ _ _)).
Qed.

(** A result that is not the help result comes from [finish], all its
    checks passed. *)
Lemma parse_result sequence a cwd w ts r :
  arrays w !! a = Some ts →
  (parse sequence a cwd w).1 = Normal r ∧ ParsedArgs.help r ≠ Some true ↔
  ∃ st,
    consume sequence cwd (self w) ts = (Normal None, st) ∧
    ArgsParser.requiredParamsNumber (self w) ≤ length (commandArgs st) ∧
    default [] (HashTable.keys <$> requiredOptionMap st) = [] ∧
    match commandExtraArgs st, ArgsParser.paramsDefinition (self w) with
    | _ :: _, None => False
    | [], Some definition => ParamsDefinition.required definition = false
    | _, _ => True
    end ∧
    r = result_of
          (set_commandArgs
             (commandArgs st
              ++ (ParamDefinition.default <$> pendingParamDefinitions st))
             st).
Proof.
  intros Ha. rewrite (parse_consume _ _ _ _ _ Ha).
  destruct (consume sequence cwd (self w) ts) as [c st] eqn:C.
  destruct (consume_state _ _ _ _ _ _ C) as (Hs & _ & _).
  assert (outcome (Normal None, st) = Normal r ↔
    ArgsParser.requiredParamsNumber (self w) ≤ length (commandArgs st) ∧
    default [] (HashTable.keys <$> requiredOptionMap st) = [] ∧
    match commandExtraArgs st, ArgsParser.paramsDefinition (self w) with
    | _ :: _, None => False
    | [], Some definition => ParamsDefinition.required definition = false
    | _, _ => True
    end ∧
    r = result_of
          (set_commandArgs
             (commandArgs st
              ++ (ParamDefinition.default <$> pendingParamDefinitions st))
             st)) as F.
  { simpl. rewrite run_finish. cbv zeta. rewrite Hs.
    destruct (_ <? _) eqn:L.
    { apply Nat.ltb_lt in L. split; [done | lia]. }
    apply Nat.ltb_ge in L.
    destruct (HashTable.keys <$> requiredOptionMap st) as [[| ? ?] |];
      destruct (commandExtraArgs st) as [| ? ?],
        (ArgsParser.paramsDefinition (self w)) as [d |];
      try destruct (ParamsDefinition.required d); simpl;
      split; try done; try tauto;
      try (by intros (_ & _ & _ & ->)); try (by intros [= <-]);
      by intros (_ & ? & ? & _). }
  split.
  - intros [E Hh]. destruct c as [[r' |] | e |]; simpl in E; try done.
    + apply consume_some in C. by simplify_eq.
    + exists st. split; [done |]. by apply F.
  - intros (st' & [= -> ->] & H). split; [by apply F |].
    destruct H as (_ & _ & _ & ->). done.
Qed.

(** ** Positional tokens *)

Lemma run_cast_in arg type st :
  castArgument arg type st = (Normal (cast_in st arg type), st).
Proof.
  destruct (run_castArgument arg type st) as [v Hv].
  unfold cast_in. by rewrite Hv.
Qed.

Lemma cast_in_context st st' arg type :
  context st = context st' → cast_in st arg type = cast_in st' arg type.
Proof.
  intros H. unfold cast_in. by rewrite (castArgument_context _ _ _ _ H).
Qed.

Lemma extra_in_context st st' arg :
  self (world st) = self (world st') → context st = context st' →
  extra_in st arg = extra_in st' arg.
Proof.
  intros Hs Hc. unfold extra_in, paramsType. rewrite Hs.
  destruct (_ <$> _); [by apply cast_in_context | done].
Qed.

Lemma is_help_dash arg : is_help arg = true → starts_with_dash arg = true.
Proof. intros H. apply is_help_spec in H. by destruct H as [-> | [-> | ->]]. Qed.

Lemma run_consumeArgument arg st :
  consumeArgument arg st = (Normal (), positional arg st).
Proof.
  unfold positional.
  destruct (pendingParamDefinitions st) as [| definition pending'] eqn:E.
  - destruct (run_consumeArgument_extra arg st E) as (v & Hv & ->).
    unfold extra_in. destruct (paramsType st) as [type |].
    + rewrite run_cast_in in Hv. by injection Hv as <-.
    + by subst v.
  - destruct (run_consumeArgument_param arg st _ _ E) as (v & Hv & ->).
    rewrite run_cast_in in Hv. congruence.
Qed.

Lemma run_turn_positional st arg rest :
  tokens st = Some (arg :: rest) → starts_with_dash arg = false →
  turn st = (Normal None, positional arg (set_array (args st) rest st)).
Proof.
  intros T D. rewrite (run_turn _ _ _ T). unfold dispatch.
  destruct (is_help arg) eqn:Hh; [apply is_help_dash in Hh; congruence |].
  rewrite D. by rewrite (run_bind_normal _ _ _ _ _ (run_consumeArgument _ _)).
Qed.

Lemma while_positional fuel st ts :
  Forall (λ t, starts_with_dash t = false) ts →
  tokens st = Some ts → length ts < fuel →
  ∃ st',
    while_args fuel st = (Normal None, st') ∧
    commandArgs st' =
      commandArgs st ++
      zip_with (λ t d, cast_in st t (ParamDefinition.type d)) ts
        (pendingParamDefinitions st) ∧
    commandExtraArgs st' =
      commandExtraArgs st ++
      (extra_in st <$> drop (length (pendingParamDefinitions st)) ts) ∧
    pendingParamDefinitions st' =
      drop (length ts) (pendingParamDefinitions st) ∧
    commandOptions st' = commandOptions st ∧
    requiredOptionMap st' = requiredOptionMap st.
Proof.
  intros Hts. revert fuel st.
  induction Hts as [| arg rest D Hrest IH]; intros fuel st T L;
    (destruct fuel as [| fuel]; [simpl in L; lia |]).
  - exists st. rewrite (run_while_nil _ _ T).
    rewrite drop_nil, drop_0, !app_nil_r. done.
  - rewrite (run_while_cons _ _ _ _ T), (run_turn_positional _ _ _ T D).
    set (s := positional arg (set_array (args st) rest st)).
    assert (tokens s = Some rest) as Ts.
    { unfold s, positional. destruct (pendingParamDefinitions _);
        apply tokens_set_array. }
    assert (self (world s) = self (world st) ∧ context s = context st)
      as [Hs Hc].
    { unfold s, positional. by destruct (pendingParamDefinitions _). }
    destruct (IH fuel s Ts) as (st' & -> & Ha & Hx & Hp & Ho & Hr);
      [simpl in L; lia |].
    exists st'. split; [done |].
    rewrite Ha, Hx, Hp, Ho, Hr.
    rewrite (zip_with_ext _ (λ t d, cast_in st t (ParamDefinition.type d))
               rest rest _ (pendingParamDefinitions s)
               (λ t d, cast_in_context s st t _ Hc) eq_refl eq_refl).
    rewrite (list_fmap_ext (extra_in s) (extra_in st) _
               (λ _ t _, extra_in_context s st t Hs Hc)).
    unfold s, positional.
    change (pendingParamDefinitions (set_array (args st) rest st))
      with (pendingParamDefinitions st).
    destruct (pendingParamDefinitions st) as [| definition pending'] eqn:E;
      simpl; rewrite ?E; simpl.
    + rewrite (extra_in_context (set_array (args st) rest st) st arg eq_refl
                 eq_refl).
      rewrite !drop_nil, ?drop_0, <- !app_assoc. by destruct rest.
    + rewrite (cast_in_context (set_array (args st) rest st) st arg _
                 eq_refl).
      rewrite <- !app_assoc. done.
Qed.

(** ** The maps of the constructor *)

Lemma foldl_register_option_map definitions maps n d :
  HashTable.get n (foldl register_option maps definitions).1 = Some d →
  (d ∈ definitions ∧ OptionDefinition.name d = n) ∨
  HashTable.get n maps.1 = Some d.
Proof.
  revert maps. induction definitions as [| d' definitions IH]; intros maps;
    [by right |].
  simpl. intros H. destruct (IH _ H) as [[Hin Hn] | H'].
  - left. split; [by right | done].
  - rewrite register_option_1, get_set, takes_definition in H'.
    destruct (decide _) as [E |]; [| by right].
    injection H' as <-. left. split; [by left | done].
Qed.

Lemma foldl_register_option_mapping definitions maps f n :
  HashTable.get f (foldl register_option maps definitions).2 = Some n →
  (f ≠ EmptyString ∧
   ∃ d, d ∈ definitions ∧ OptionDefinition.flag d = Some f ∧
        OptionDefinition.name d = n) ∨
  HashTable.get f maps.2 = Some n.
Proof.
  revert maps. induction definitions as [| d' definitions IH]; intros maps;
    [by right |].
  simpl. intros H. destruct (IH _ H) as [[Hf (d & Hin & Hd)] | H'].
  - left. split; [done |]. exists d. split; [by right | done].
  - unfold register_option in H'.
    destruct (truthy_flag (OptionDefinition.flag d')) as [f' |] eqn:E;
      [| by right].
    simpl in H'. rewrite get_set in H'.
    destruct (decide _) as [-> |]; [| by right].
    destruct (HashTable.takes _ _); [| by right].
    injection H' as <-. apply truthy_flag_spec in E as [E Hne].
    left. split; [done |]. exists d'. split; [by left | done].
Qed.

(** ** Command names *)

Lemma matches_all_word w rest :
  all_word w → matches_from true (w +:+ rest) = matches_from true rest.
Proof.
  induction w as [| c w IH]; [done |]. intros H.
  apply Forall_cons in H as [Hc Hw]. rewrite append_cons. simpl.
  rewrite Hc. by apply IH.
Qed.

Lemma matches_word b w rest :
  word w → matches_from b (w +:+ rest) = matches_from true rest.
Proof.
  intros [Hne H]. destruct w as [| c w]; [done |].
  apply Forall_cons in H as [Hc Hw]. rewrite append_cons. simpl.
  rewrite Hc. by apply matches_all_word.
Qed.

Lemma hyphenated_cons s others :
  hyphenated (s :: others) = String "-" (s +:+ hyphenated others).
Proof. reflexivity. Qed.

Lemma matches_hyphenated others :
  Forall word others → matches_from true (hyphenated others) = true.
Proof.
  induction 1 as [| s others Hs Ho IH]; [done |].
  rewrite hyphenated_cons.
  change (matches_from true (String "-" (s +:+ hyphenated others)))
    with (matches_from false (s +:+ hyphenated others)).
  by rewrite matches_word.
Qed.

Lemma matches_from_inv b arg :
  matches_from b arg = true →
  ∃ first others,
    all_word first ∧ (b = false → first ≠ EmptyString) ∧
    Forall word others ∧ arg = first +:+ hyphenated others.
Proof.
  revert b. induction arg as [| c arg IH]; intros b H.
  - simpl in H. subst b. exists EmptyString, [].
    split; [by apply Forall_nil |]. split; [done |].
    split; [by apply Forall_nil | done].
  - simpl in H. destruct (is_word c) eqn:Hc.
    + destruct (IH _ H) as (first & others & Hf & _ & Ho & ->).
      exists (String c first), others. split; [by apply Forall_cons |].
      split; [done |]. split; [done |]. by rewrite append_cons.
    + destruct b; [| done]. simpl in H.
      destruct (bool_decide (c = "-"%char)) eqn:E; [| done].
      apply bool_decide_eq_true in E as ->.
      destruct (IH _ H) as (first & others & Hf & Hne & Ho & ->).
      exists EmptyString, (first :: others). split; [by apply Forall_nil |].
      split; [done |]. split; [| done].
      apply Forall_cons. split; [| done]. split; [by apply Hne | done].
Qed.

Lemma valid_name_no_dash arg :
  validCommandNameRegex_test arg = true → starts_with_dash arg = false.
Proof.
  destruct arg as [| c arg]; [done |]. unfold validCommandNameRegex_test.
  simpl. destruct (is_word c) eqn:Hc; [| done]. intros _.
  apply bool_decide_eq_false. intros [= ->]. done.
Qed.

(** ** The search of the command *)

Section search_lemmas.
Context `{Node}.

Lemma find_possiblePaths searchPath :
  List.find FS_existsSync (possiblePaths searchPath) = None →
  FS_existsSync searchPath = false ∧
  ∀ p, p ∈ possiblePaths searchPath → FS_existsSync p = false.
Proof.
  unfold possiblePaths. simpl.
  destruct (FS_existsSync (searchPath +:+ ".js")) eqn:E1; [done |].
  destruct (FS_existsSync (Path_join searchPath "default.js")) eqn:E2;
    [done |].
  destruct (FS_existsSync searchPath) eqn:E3; [done |]. intros _.
  split; [done |]. intros p Hp.
  repeat (apply elem_of_cons in Hp as [-> | Hp]; [done |]).
  by apply elem_of_nil in Hp.
Qed.

Lemma find_some_possiblePaths searchPath p :
  List.find FS_existsSync (possiblePaths searchPath) = Some p →
  p ∈ possiblePaths searchPath ∧ FS_existsSync p = true.
Proof.
  intros Hf. apply find_some in Hf as [Hin He]. split; [| done].
  by apply list_elem_of_In.
Qed.

Lemma search_cons arg rest i s :
  search (arg :: rest) i s =
  if validCommandNameRegex_test arg then
    let searchPath := Path_join (Walk.searchPath s) arg in
    match List.find FS_existsSync (possiblePaths searchPath) with
    | Some possiblePath =>
      search rest (S i)
        (Walk.make (Walk.commands s ++ [arg]) searchPath (S i)
           possiblePath)
    | None =>
      let s' :=
        Walk.make (Walk.commands s) searchPath (Walk.argsIndex s)
          (Walk.targetPath s) in
      if negb (FS_existsSync searchPath) then s'
      else search rest (S i) s'
    end
  else s.
Proof. reflexivity. Qed.

(** What the loop does: it takes the leading tokens [accepted] as
    command names and stops before [remaining]. *)
Lemma search_spec rest i s :
  ∃ accepted remaining,
    rest = accepted ++ remaining ∧
    Walk.commands (search rest i s) = Walk.commands s ++ accepted ∧
    Forall (λ a, validCommandNameRegex_test a = true) accepted ∧
    Walk.argsIndex (search rest i s) =
      match accepted with
      | [] => Walk.argsIndex s
      | _ => i + length accepted
      end ∧
    match accepted with
    | [] => Walk.targetPath (search rest i s) = Walk.targetPath s
    | _ =>
      Walk.targetPath (search rest i s)
      ∈ possiblePaths (joined (Walk.searchPath s) accepted) ∧
      FS_existsSync (Walk.targetPath (search rest i s)) = true
    end ∧
    match remaining with
    | [] => True
    | arg :: _ =>
      validCommandNameRegex_test arg = false ∨
      ∀ p, p ∈ possiblePaths
                 (Path_join (joined (Walk.searchPath s) accepted) arg) →
           FS_existsSync p = false
    end.
Proof.
  revert i s. induction rest as [| arg rest IH]; intros i s.
  - exists [], []. simpl. rewrite app_nil_r. by repeat split.
  - rewrite search_cons. destruct (validCommandNameRegex_test arg) eqn:V.
    2:{ exists [], (arg :: rest). simpl. rewrite app_nil_r.
        repeat split; [done | by left]. }
    cbv zeta. destruct (List.find _ _) as [p |] eqn:F.
    + apply find_some_possiblePaths in F as [Hin He].
      destruct (IH (S i)
                  (Walk.make (Walk.commands s ++ [arg])
                     (Path_join (Walk.searchPath s) arg) (S i) p))
        as (accepted & remaining & -> & Hc & Hv & Hi & Hp & Hr).
      exists (arg :: accepted), remaining. simpl in *.
      split; [done |]. split; [by rewrite Hc, <- app_assoc |].
      split; [by apply Forall_cons |]. split.
      { rewrite Hi. destruct accepted; simpl; lia. }
      split; [| done].
      destruct accepted as [| a accepted]; [by rewrite Hp | done].
    + apply find_possiblePaths in F as [-> F]. simpl.
      exists [], (arg :: rest). simpl. rewrite app_nil_r.
      repeat split; [done | by right].
Qed.

Lemma preProcessArguments_tokens this argv r this' :
  preProcessArguments this argv = inr (r, this') →
  ∃ accepted,
    Processed.commands r = CLI.name this :: accepted ∧
    drop 2 argv = accepted ++ Processed.args r ∧
    Forall (λ a, validCommandNameRegex_test a = true) accepted.
Proof.
  unfold preProcessArguments. intros Hr.
  assert (∃ targetPath,
    r = let s := search (drop 2 argv) 2
                   (Walk.make [CLI.name this] (CLI.root this) 2 targetPath)
        in Processed.make (Walk.commands s)
             (drop (Walk.argsIndex s) argv) (Walk.targetPath s))
    as [targetPath Er].
  { destruct (FS_existsSync _).
    - destruct (require _); [| done]. injection Hr as <- _. by eexists.
    - injection Hr as <- _. by eexists. }
  cbv zeta in Er. rewrite Er.
  destruct (search_spec (drop 2 argv) 2
              (Walk.make [CLI.name this] (CLI.root this) 2 targetPath))
    as (accepted & remaining & E & Hc & Hv & Hi & _).
  exists accepted. cbn [Processed.commands Processed.args].
  rewrite Hc, Hi. split; [done |]. split; [| done].
  rewrite E at 1. f_equal. cbn [Walk.argsIndex].
  destruct accepted as [| a accepted].
  - by rewrite E.
  - rewrite <- drop_drop, E. by rewrite drop_app_length.
Qed.

Lemma joined_cons root name names :
  ∃ p q, joined root (name :: names) = Path_join p q.
Proof.
  revert root name. induction names as [| n names IH]; intros root name.
  - by exists root, name.
  - apply (IH (Path_join root name) n).
Qed.

End search_lemmas.

(** ** The order of the required options *)

Lemma keys_plain {V} (h : HashTable.t V) :
  Forall (λ k, HashTable.array_index k = None) h.*1 →
  HashTable.keys h = filter (λ k, k ≠ "__proto__") h.*1.
Proof.
  intros Hp. unfold HashTable.keys. cbv zeta.
  assert (Forall (λ k, HashTable.array_index k = None)
            (filter (λ k, k ≠ "__proto__") h.*1)) as Hf.
  { rewrite Forall_forall in Hp |- *. intros k Hk.
    apply list_elem_of_filter in Hk as [_ Hk]. by apply Hp. }
  revert Hf. generalize (filter (λ k, k ≠ "__proto__") h.*1). intros ks Hf.
  assert (omap (λ k, (λ i, (i, k)) <$> HashTable.array_index k) ks = [])
    as ->.
  { induction Hf as [| k ks Hk _ IH]; [done |]. simpl. by rewrite Hk. }
  assert (filter (λ k, HashTable.array_index k = None) ks = ks) as ->.
  { induction Hf as [| k ks Hk _ IH]; [done |].
    rewrite filter_cons_True by done. by rewrite IH. }
  done.
Qed.

Lemma foldl_declare_option_names definitions tables :
  (foldl declare_option tables definitions).2.*1 `sublist_of`
  tables.2.*1 ++
  (OptionDefinition.name
   <$> filter (λ d, OptionDefinition.required d = true) definitions).
Proof.
  revert tables. induction definitions as [| d definitions IH]; intros tables.
  - simpl. by rewrite app_nil_r.
  - simpl. etrans; [apply IH |]. unfold declare_option. simpl.
    destruct (OptionDefinition.required d) eqn:Hr.
    + rewrite filter_cons_True by done. rewrite keys_set. csimpl.
      destruct (HashTable.takes _ _); [destruct (HashTable.member _ _) |].
      * apply sublist_app; [done |]. by apply sublist_cons.
      * by rewrite <- app_assoc.
      * apply sublist_app; [done |]. by apply sublist_cons.
    + by rewrite filter_cons_False by (by rewrite Hr).
Qed.

Lemma required_names_enter sequence l cwd w definitions :
  ArgsParser.optionDefinitions (self w) = Some definitions →
  required_names (enter sequence l cwd w) `sublist_of`
  OptionDefinition.name
  <$> filter (λ d, OptionDefinition.required d = true) definitions.
Proof.
  intros Hd. unfold required_names, enter. simpl. rewrite Hd. simpl.
  apply (foldl_declare_option_names definitions
           (HashTable.empty, HashTable.empty)).
Qed.

(** ** A flag and the name it stands for *)

Lemma single_flag st c name mapping map :
  well_formed st →
  ArgsParser.optionFlagMapping (self (world st)) = Some mapping →
  HashTable.own "hasOwnProperty" mapping = false →
  HashTable.get (String c EmptyString) mapping = Some name →
  ArgsParser.optionDefinitionMap (self (world st)) = Some map →
  HashTable.hasOwnProperty name map = Some true →
  consumeFlags (String c EmptyString) st = consumeToggleOrOption name st.
Proof.
  intros W Hf Hsh Hg Hm Hh.
  pose proof (run_consumeFlags_flag st c EmptyString mapping W Hf Hsh) as H.
  cbv zeta in H. rewrite Hg in H.
  destruct H as (map' & definition & options & Hm' & Hd & Ho & H).
  rewrite Hm in Hm'. injection Hm' as <-.
  destruct (well_formed_tables st W) as [_ Hreq]; [eauto |].
  rewrite (run_consumeToggleOrOption name st map definition Hm Hh Hd
             (λ _, Hreq)).
  destruct (OptionDefinition.toggle definition) eqn:Ht; [| done].
  rewrite H.
  destruct (satisfied_frame name definition st) as (_ & _ & Hos & _).
  rewrite Ho in Hos. by rewrite (run_set_toggle name _ options Hos).
Qed.

Lemma well_formed_consume sequence cwd this ts c st :
  constructed this → consume sequence cwd this ts = (c, st) →
  well_formed st.
Proof.
  intros Hc C.
  apply (preserves_loop well_formed well_formed_turn _ _ _
           (well_formed_enter sequence 1%positive cwd
              {| arrays := {[1%positive := ts]}; self := this |} Hc
              (ex_intro _ ts (lookup_singleton_eq _ _))) C).
Qed.

Lemma set_array_set_array st ts1 ts2 :
  set_array (args st) ts2 (set_array (args st) ts1 st)
  = set_array (args st) ts2 st.
Proof. unfold set_array. simpl. by rewrite insert_insert_eq. Qed.

Lemma resume_cons st arg rest :
  resume st (arg :: rest) =
  match dispatch arg (set_array (args st) rest st) with
  | (Normal (Some result), st') => (Normal (Some result), st')
  | (Normal None, st') => while_args (S (length rest)) st'
  | (Throw e, st') => (Throw e, st')
  | (Timeout, st') => (Timeout, st')
  end.
Proof.
  unfold resume.
  rewrite (run_while_cons _ _ arg rest) by apply tokens_set_array.
  rewrite (run_turn _ arg rest) by apply tokens_set_array.
  change (args (set_array (args st) (arg :: rest) st)) with (args st).
  by rewrite set_array_set_array.
Qed.

Lemma consume_help_prefix sequence cwd this pre suf r st :
  consume sequence cwd this pre = (Normal (Some r), st) →
  (consume sequence cwd this (pre ++ suf)).1 = Normal (Some r).
Proof.
  intros C.
  pose proof (loop_consume suf sequence cwd 1%positive
    {| arrays := {[1%positive := pre ++ suf]}; self := this |}
    pre _ st (lookup_singleton_eq _ _) C) as (s1 & _ & L).
  unfold consume. by rewrite L.
Qed.

(** ** Toggles among the other tokens *)

Lemma run_dispatch_long st name :
  name ≠ "help" →
  dispatch ("--" +:+ name) st
  = (consumeToggleOrOption name ≫= λ _, mret None) st.
Proof.
  intros Hn. unfold dispatch.
  destruct (is_help ("--" +:+ name)) eqn:Hh;
    [by apply is_help_long in Hh |].
  done.
Qed.

Lemma run_dispatch_long_throw st name e :
  name ≠ "help" →
  consumeToggleOrOption name st = (Throw e, st) →
  dispatch ("--" +:+ name) st = (Throw e, st).
Proof. intros Hn H. by rewrite (run_dispatch_long _ _ Hn), run_bind, H. Qed.

Lemma run_dispatch_long_toggle st name map definition :
  well_formed st →
  ArgsParser.optionDefinitionMap (self (world st)) = Some map →
  HashTable.hasOwnProperty name map = Some true →
  HashTable.get name map = Some definition →
  OptionDefinition.toggle definition = true → name ≠ "help" →
  dispatch ("--" +:+ name) st = (Normal None, toggled name definition st).
Proof.
  intros W Hm Hh Hg Ht Hn.
  destruct (well_formed_tables st W) as [[options Ho] Hreq]; [eauto |].
  rewrite (run_dispatch_long _ _ Hn), run_bind.
  rewrite (run_consumeToggleOrOption name st map definition Hm Hh Hg
             (λ _, Hreq)), Ht.
  destruct (satisfied_frame name definition st) as (_ & _ & Hos & _).
  rewrite Ho in Hos. rewrite (run_set_toggle name _ options Hos).
  unfold toggled. by rewrite Ho.
Qed.

Lemma run_dispatch_positional arg st :
  starts_with_dash arg = false →
  dispatch arg st = (Normal None, positional arg st).
Proof.
  intros D. unfold dispatch.
  destruct (is_help arg) eqn:Hh; [apply is_help_dash in Hh; congruence |].
  rewrite D. by rewrite (run_bind_normal _ _ _ _ _ (run_consumeArgument _ _)).
Qed.

Lemma well_formed_positional arg st :
  well_formed st → well_formed (positional arg st).
Proof.
  intros (Hc & Htok & Ht & Hp).
  pose proof (params_consumeArgument arg st _ _ Hp (run_consumeArgument _ _))
    as Hp'.
  split; [| split; [| split; [| done]]];
    unfold positional; by destruct (pendingParamDefinitions st).
Qed.

Lemma well_formed_toggled name definition st :
  well_formed st → is_Some (commandOptions st) →
  well_formed (toggled name definition st).
Proof.
  intros W [options Ho]. unfold toggled.
  destruct (satisfied_frame name definition st) as (_ & _ & Hos & _).
  rewrite Ho. simpl. apply well_formed_set_commandOptions.
  by apply well_formed_satisfied.
Qed.

Lemma toggled_positional name definition arg st ts1 ts2 ts :
  positional arg (set_array (args st) ts
    (toggled name definition (set_array (args st) ts1 st)))
  = toggled name definition (set_array (args st) ts
      (positional arg (set_array (args st) ts2 st))).
Proof.
  unfold positional, toggled, satisfied.
  destruct (OptionDefinition.required definition);
    destruct (pendingParamDefinitions st) as [| d pending'] eqn:E;
    simpl; rewrite ?E; simpl;
    apply state_eq; simpl; rewrite ?E; simpl; rewrite ?insert_insert_eq;
    try done.
  all: try (f_equal; f_equal; by apply extra_in_context).
  all: try (f_equal; f_equal; by apply cast_in_context).
Qed.

Lemma toggled_frame name definition st :
  tokens (toggled name definition st) = tokens st ∧
  args (toggled name definition st) = args st ∧
  self (world (toggled name definition st)) = self (world st).
Proof.
  unfold toggled, satisfied.
  by destruct (OptionDefinition.required definition).
Qed.

Lemma positional_frame arg st :
  tokens (positional arg st) = tokens st ∧
  args (positional arg st) = args st ∧
  self (world (positional arg st)) = self (world st).
Proof. unfold positional. by destruct (pendingParamDefinitions st). Qed.

Lemma toggled_set_array name definition st ts1 ts :
  set_array (args st) ts (toggled name definition (set_array (args st) ts1 st))
  = toggled name definition (set_array (args st) ts st).
Proof.
  unfold toggled, satisfied.
  destruct (OptionDefinition.required definition);
    apply state_eq; simpl; rewrite ?insert_insert_eq; done.
Qed.

Lemma run_dispatch_flags st c rest :
  c ≠ "-"%char → is_help ("-" +:+ String c rest) = false →
  dispatch ("-" +:+ String c rest) st
  = (consumeFlags (String c rest) ≫= λ _, mret None) st.
Proof.
  intros Hc Hh. unfold dispatch. rewrite Hh.
  change (starts_with_dash ("-" +:+ String c rest)) with true.
  change (JS.substr 1 ("-" +:+ String c rest)) with (String c rest).
  rewrite bool_decide_eq_false_2; [done |].
  change (JS.char_at 1 ("-" +:+ String c rest)) with (Some c). congruence.
Qed.

Lemma run_consumeFlags_toggle st c rest mapping name definition :
  well_formed st →
  ArgsParser.optionFlagMapping (self (world st)) = Some mapping →
  HashTable.own "hasOwnProperty" mapping = false →
  HashTable.get (String c EmptyString) mapping = Some name →
  ArgsParser.optionDefinitionMap (self (world st)) ≫= HashTable.get name
  = Some definition →
  OptionDefinition.toggle definition = true →
  consumeFlags (String c rest) st
  = consumeFlags rest (toggled name definition st).
Proof.
  intros W Hf Hsh Hg Hd Ht.
  pose proof (run_consumeFlags_flag st c rest mapping W Hf Hsh) as H.
  cbv zeta in H. rewrite Hg in H.
  destruct H as (map & definition' & options & Hm & Hd' & Ho & H).
  rewrite Hm in Hd. simpl in Hd. rewrite Hd' in Hd. injection Hd as ->.
  rewrite Ht in H. rewrite H. unfold toggled. by rewrite Ho.
Qed.

(** ** The value of an option, and a cluster taken up again *)

Lemma set_array_toggled name definition st ts :
  set_array (args st) ts (toggled name definition st)
  = toggled name definition (set_array (args st) ts st).
Proof.
  unfold toggled, satisfied.
  destruct (OptionDefinition.required definition); by apply state_eq.
Qed.

Lemma resume_flags_nil st ts : resume_flags st EmptyString ts = resume st ts.
Proof. reflexivity. Qed.

Lemma resume_dash_flags st c rest post :
  c ≠ "-"%char → is_help ("-" +:+ String c rest) = false →
  resume st (("-" +:+ String c rest) :: post)
  = resume_flags st (String c rest) post.
Proof.
  intros Hc Hh. rewrite resume_cons, (run_dispatch_flags _ _ _ Hc Hh), run_bind.
  unfold resume_flags.
  by destruct (consumeFlags _ _) as [[[] | e |] s'].
Qed.

Lemma satisfied_set_array name definition st ts :
  requiredOptionMap (satisfied name definition (set_array (args st) ts st))
  = requiredOptionMap (satisfied name definition st) ∧
  commandArgs (satisfied name definition (set_array (args st) ts st))
  = commandArgs st ∧
  commandExtraArgs (satisfied name definition (set_array (args st) ts st))
  = commandExtraArgs st ∧
  pendingParamDefinitions
    (satisfied name definition (set_array (args st) ts st))
  = pendingParamDefinitions st ∧
  context (satisfied name definition (set_array (args st) ts st))
  = context st.
Proof. unfold satisfied. by destruct (OptionDefinition.required _). Qed.

(** The value an option takes: the next token, when it begins with no
    dash, is removed, cast and stored. *)
Lemma option_taken name definition st value rest options :
  commandOptions st = Some options →
  starts_with_dash value = false →
  ∃ st',
    consumeOption name definition
      (satisfied name definition (set_array (args st) (value :: rest) st))
    = (Normal (), st') ∧
    set_array (args st') rest st' = st' ∧
    args st' = args st ∧
    self (world st') = self (world st) ∧
    commandOptions st'
    = Some (HashTable.set name
              (cast_in st value (OptionDefinition.type definition)) options) ∧
    requiredOptionMap st' = requiredOptionMap (satisfied name definition st) ∧
    commandArgs st' = commandArgs st ∧
    commandExtraArgs st' = commandExtraArgs st ∧
    pendingParamDefinitions st' = pendingParamDefinitions st.
Proof.
  intros Ho D.
  set (s := satisfied name definition (set_array (args st) (value :: rest) st)).
  destruct (satisfied_frame name definition
              (set_array (args st) (value :: rest) st))
    as (Hs & Ts & Hos & Ea).
  destruct (satisfied_set_array name definition st (value :: rest))
    as (Hr & Hca & Hx & Hp & Hctx).
  fold s in Hs, Ts, Hos, Ea, Hr, Hca, Hx, Hp, Hctx.
  rewrite tokens_set_array in Ts. simpl in Hos, Ea, Hs. rewrite Ho in Hos.
  eexists. split.
  { apply (run_consumeOption_value name definition s value rest options
             (cast_in st value (OptionDefinition.type definition)) Ts D Hos).
    rewrite (cast_in_context st s) by done. apply run_cast_in. }
  simpl. rewrite Ea, Hs, Hr, Hca, Hx, Hp. repeat split; try done.
  apply state_eq; simpl; rewrite ?Ea; try done.
  by rewrite insert_insert_eq.
Qed.

Lemma option_missing name definition st :
  consumeOption name definition
    (satisfied name definition (set_array (args st) [] st))
  = (Throw (usage_error (self (world st))
       ("Expecting value for option `" +:+ name +:+ "`")),
     satisfied name definition (set_array (args st) [] st)).
Proof.
  destruct (satisfied_frame name definition (set_array (args st) [] st))
    as (Hs & Ts & _).
  rewrite tokens_set_array in Ts.
  rewrite (run_consumeOption_missing _ _ _ Ts). by rewrite Hs.
Qed.

Lemma option_dash name definition st value rest :
  starts_with_dash value = true →
  (consumeOption name definition
     (satisfied name definition (set_array (args st) (value :: rest) st))).1
  = Throw (usage_error (self (world st))
      ("Expecting a value instead of an option or toggle " +:+ JS.dquote
       +:+ value +:+ JS.dquote +:+ " for option `" +:+ name +:+ "`")).
Proof.
  intros D.
  destruct (satisfied_frame name definition
              (set_array (args st) (value :: rest) st)) as (Hs & Ts & _).
  rewrite tokens_set_array in Ts.
  rewrite (run_consumeOption_dash _ _ _ _ _ Ts D). by rewrite Hs.
Qed.

Lemma run_dispatch_long_option st name map definition :
  well_formed st →
  ArgsParser.optionDefinitionMap (self (world st)) = Some map →
  HashTable.hasOwnProperty name map = Some true →
  HashTable.get name map = Some definition →
  OptionDefinition.toggle definition = false → name ≠ "help" →
  dispatch ("--" +:+ name) st =
  (consumeOption name definition ≫= λ _, mret None)
    (satisfied name definition st).
Proof.
  intros W Hm Hh Hg Ht Hn.
  destruct (well_formed_tables st W) as [_ Hreq]; [eauto |].
  rewrite (run_dispatch_long _ _ Hn), !run_bind.
  by rewrite (run_consumeToggleOrOption name st map definition Hm Hh Hg
                (λ _, Hreq)), Ht.
Qed.

Lemma toggled_value name definition st :
  is_Some (commandOptions st) →
  (name ≠ "__proto__" →
   option_value (toggled name definition st) name = Some (VBoolean true)) ∧
  (∀ n, n ≠ name →
        option_value (toggled name definition st) n = option_value st n) ∧
  requiredOptionMap (toggled name definition st)
  = requiredOptionMap (satisfied name definition st) ∧
  commandArgs (toggled name definition st) = commandArgs st ∧
  commandExtraArgs (toggled name definition st) = commandExtraArgs st ∧
  pendingParamDefinitions (toggled name definition st)
  = pendingParamDefinitions st.
Proof.
  intros [options Ho]. unfold toggled, option_value. rewrite Ho. simpl.
  split; [by apply get_set_eq |]. split; [intros n Hn; by apply get_set_ne |].
  unfold satisfied. by destruct (OptionDefinition.required _).
Qed.

(** * The specification, claim by claim *)

(** C1 fails as stated: behind an unknown option, and in the place of
    the value of a non-toggle option, [--help] leads to a usage error
    and not to the help result. *)
Lemma help_behind_an_error_is_not_help :
  run parser_ab ["--unknown"; "--help"]
  = Throw (usage_error parser_ab "Unknown option `unknown`") ∧
  run parser_ab ["--unknown"; "--help"] ≠ Normal help_result ∧
  run parser_ab ["--count"; "--help"]
  = Throw (usage_error parser_ab
      ("Expecting a value instead of an option or toggle " +:+ JS.dquote
       +:+ "--help" +:+ JS.dquote +:+ " for option `count`")) ∧
  run parser_ab ["--count"; "--help"] ≠ Normal help_result.
Proof. by vm_compute. Qed.

(** C1, as amended: a token [-h], [-?] or [--help] makes [parse] return
    the help result, with no usage error, whenever the tokens before it
    are consumed, on their own, without an error; the tokens after it
    and what the schema requires do not matter. *)
Theorem parse_help_behind_consumed_tokens sequence a cwd w pre h post :
  arrays w !! a = Some (pre ++ h :: post) →
  h = "-h" ∨ h = "-?" ∨ h = "--help" →
  is_normal (consume sequence cwd (self w) pre).1 →
  (parse sequence a cwd w).1 = Normal help_result.
Proof.
  intros Ha Hh Hn. rewrite (parse_consume _ _ _ _ _ Ha).
  apply is_help_spec in Hh.
  by destruct (consume_help sequence cwd (self w) pre h post Hh Hn) as [st ->].
Qed.

Lemma parse_help_behind_consumed_tokens_witness :
  run parser_ab ["x"; "--help"; "--unknown"] = Normal help_result.
Proof.
  apply (parse_help_behind_consumed_tokens ["clime"] 1%positive "/"
           (world_of parser_ab ["x"; "--help"; "--unknown"])
           ["x"] "--help" ["--unknown"]).
  - reflexivity.
  - right. right. reflexivity.
  - vm_compute. exact I.
Defined.

(** C2: when [parse] returns a result that is not the help result, its
    positional values are those the loop collected from the tokens,
    followed by the defaults of the parameter definitions no token was
    consumed for, in declaration order; they are as many as the
    parameter definitions of the schema; and there are no extra values
    when the schema has no variadic definition. *)
Theorem parse_result_fills_parameters sequence a cwd w r w' :
  parse sequence a cwd w = (Normal r, w') →
  ParsedArgs.help r ≠ Some true →
  let definitions := default [] (ArgsParser.paramDefinitions (self w)) in
  ∃ ts st,
    arrays w !! a = Some ts ∧
    consume sequence cwd (self w) ts = (Normal None, st) ∧
    let consumed := length (commandArgs st) in
    let values :=
      commandArgs st
      ++ (ParamDefinition.default <$> drop consumed definitions) in
    consumed ≤ length definitions ∧
    ParsedArgs.args r = Some values ∧
    length values = length definitions ∧
    (ArgsParser.paramsDefinition (self w) = None →
     ParsedArgs.extraArgs r = Some []).
Proof.
  intros P Hh definitions.
  destruct (arrays w !! a) as [ts |] eqn:Ha.
  2:{ unfold parse, concat in P. by rewrite Ha in P. }
  destruct (proj1 (parse_result sequence a cwd w ts r Ha))
    as (st & C & _ & _ & Hx & ->); [by rewrite P |].
  destruct (consume_state _ _ _ _ _ _ C) as (Hs & (consumed & Hd & Hl) & _).
  unfold paramDefinitions in Hd. rewrite Hs in Hd. fold definitions in Hd.
  exists ts, st. split; [done |]. split; [done |]. cbv zeta.
  assert (drop (length (commandArgs st)) definitions
          = pendingParamDefinitions st) as ->.
  { by rewrite Hd, <- Hl, drop_app_length. }
  split; [rewrite Hd, length_app; lia |]. split; [done |]. split.
  - rewrite Hd, !length_app, length_fmap. lia.
  - intros Hn. simpl. rewrite Hn in Hx.
    by destruct (commandExtraArgs st).
Qed.

Lemma parse_result_fills_parameters_witness :
  let this := new_ArgsParser 1%positive (Some [param_a; param_b]) None
                (Some [option_verbose; option_count]) 1 in
  ∃ ts st,
    Some ["x"] = Some ts ∧
    consume ["clime"] "/" this ts = (Normal None, st) ∧
    length (commandArgs st) ≤ 2 ∧
    Some [VString "x"; VNumber (JS.Number "7")]
    = Some (commandArgs st
            ++ (ParamDefinition.default
                <$> drop (length (commandArgs st)) [param_a; param_b])) ∧
    length (commandArgs st
            ++ (ParamDefinition.default
                <$> drop (length (commandArgs st)) [param_a; param_b])) = 2 ∧
    (@None ParamsDefinition.t = None → Some (@nil value) = Some []).
Proof.
  intros this.
  set (w := world_of this ["x"]).
  apply (parse_result_fills_parameters ["clime"] 1%positive "/" w
           (ParsedArgs.make
              (Some [VString "x"; VNumber (JS.Number "7")]) (Some [])
              (Some [("verbose", VBoolean false); ("count", VUndefined)])
              (Some {| cwd := "/"; commands := ["clime"] |}) None)
           (parse ["clime"] 1%positive "/" w).2).
  - vm_compute. reflexivity.
  - discriminate.
Defined.

(** C3 fails on the code for a required option named [__proto__]: the
    assignment [requiredOptionMap[name] = true] makes no property of
    that name, [Object.keys] finds the table empty, and [parse] returns
    a result though no token supplies the option. *)
Lemma required_option_proto_is_not_missed :
  declared_required parser_proto "__proto__" ∧
  (¬ ∃ token, token ∈ @nil string ∧ supplies parser_proto token "__proto__") ∧
  consume ["clime"] "/" parser_proto []
  = (Normal None, enter ["clime"] 1%positive "/" (world_of parser_proto [])) ∧
  requiredOptionMap (enter ["clime"] 1%positive "/" (world_of parser_proto []))
  = Some [] ∧
  is_normal (run parser_proto []) ∧
  run parser_proto []
  ≠ Throw (usage_error parser_proto "Missing required option(s) `__proto__`").
Proof.
  split; [| split; [| by vm_compute]].
  - exists [option_proto], option_proto. repeat split. by left.
  - intros (token & Hin & _). by apply elem_of_nil in Hin.
Qed.

(** C4 fails as stated: with a required option unsupplied, an extra
    positional value leads to the usage error of the required options,
    which is checked first. *)
Lemma extra_value_behind_missing_option :
  ArgsParser.paramsDefinition parser_key = None ∧
  commandExtraArgs (consume ["clime"] "/" parser_key ["x"; "y"]).2
  = [VString "y"] ∧
  run parser_key ["x"; "y"]
  = Throw (usage_error parser_key "Missing required option(s) `key`") ∧
  run parser_key ["x"; "y"]
  ≠ Throw (usage_error parser_key
             "Expecting 1 parameter(s) at most but got 2 instead").
Proof. by vm_compute. Qed.

(** C4, as amended: with no variadic definition in the schema, tokens
    consumed without an error that leave at least one extra positional
    value, and the checks of the required parameters and options passed,
    [parse] throws the usage error that counts the parameters declared
    and, added to them, the extra values. *)
Theorem excess_parameters sequence a cwd w ts st :
  arrays w !! a = Some ts →
  consume sequence cwd (self w) ts = (Normal None, st) →
  ArgsParser.paramsDefinition (self w) = None →
  commandExtraArgs st ≠ [] →
  ArgsParser.requiredParamsNumber (self w) ≤ length (commandArgs st) →
  default [] (HashTable.keys <$> requiredOptionMap st) = [] →
  let declared := length (default [] (ArgsParser.paramDefinitions (self w))) in
  (parse sequence a cwd w).1 =
  Throw (usage_error (self w)
    ("Expecting " +:+ JS.string_of_nat declared +:+
     " parameter(s) at most but got " +:+
     JS.string_of_nat (declared + length (commandExtraArgs st)) +:+
     " instead")).
Proof.
  intros Ha C Hv Hx Hle Hr declared.
  rewrite (parse_consume _ _ _ _ _ Ha), C. simpl.
  destruct (consume_state _ _ _ _ _ _ C) as (Hs & _ & _).
  rewrite run_finish. cbv zeta. unfold paramDefinitions. rewrite Hs, Hv.
  fold declared. apply Nat.ltb_ge in Hle. rewrite Hle.
  rewrite (Nat.add_comm (length _) declared).
  destruct (commandExtraArgs st) as [| v vs]; [done |].
  by destruct (HashTable.keys <$> requiredOptionMap st) as [[| ? ?] |].
Qed.

Lemma excess_parameters_witness :
  run parser_a ["x"; "y"]
  = Throw (usage_error parser_a
             "Expecting 1 parameter(s) at most but got 2 instead").
Proof.
  apply (excess_parameters ["clime"] 1%positive "/"
           (world_of parser_a ["x"; "y"]) ["x"; "y"]
           (consume ["clime"] "/" parser_a ["x"; "y"]).2).
  - reflexivity.
  - vm_compute. reflexivity.
  - reflexivity.
  - vm_compute. discriminate.
  - vm_compute. lia.
  - reflexivity.
Defined.

(** C5 fails on the code for an option named [hasOwnProperty]: the map
    of the option definitions then has a property of that name, which
    hides the method, and the call [optionDefinitionMap.hasOwnProperty
    (name)] throws a [TypeError] on every long option, before any value
    is looked for.  An option named [__proto__] is no property of the
    map, and its long form is taken for an unknown option. *)
Lemma long_option_named_hasOwnProperty_throws_TypeError :
  ArgsParser.optionDefinitionMap parser_hasOwnProperty
  ≫= HashTable.get "hasOwnProperty" = Some option_hasOwnProperty ∧
  OptionDefinition.toggle option_hasOwnProperty = false ∧
  run parser_hasOwnProperty ["--hasOwnProperty"; "v"] = Throw ETypeError ∧
  run parser_hasOwnProperty ["--hasOwnProperty"] = Throw ETypeError ∧
  run parser_hasOwnProperty ["--hasOwnProperty"; "-v"] = Throw ETypeError ∧
  run parser_proto ["--__proto__"; "v"]
  = Throw (usage_error parser_proto "Unknown option `__proto__`").
Proof. by vm_compute. Qed.

(** C6 fails on the code for an option named [__proto__]: its flag is
    known and [parse] returns, but the assignment [commandOptions[name]
    = true] of a toggle, or that of the value cast of an option, makes
    no property, and the option is not set. *)
Lemma flag_of_proto_sets_nothing :
  ArgsParser.optionFlagMapping parser_toggle_proto ≫= HashTable.get "p"
  = Some "__proto__" ∧
  ArgsParser.optionDefinitionMap parser_toggle_proto
  ≫= HashTable.get "__proto__" = Some toggle_proto ∧
  OptionDefinition.toggle toggle_proto = true ∧
  (∃ r options,
     run parser_toggle_proto ["-p"] = Normal r ∧
     ParsedArgs.options r = Some options ∧
     options = [("verbose", VBoolean false)] ∧
     HashTable.own "__proto__" options = false ∧
     HashTable.get "__proto__" options ≠ Some (VBoolean true)) ∧
  (∃ r options,
     run parser_proto ["-p"; "v"] = Normal r ∧
     ParsedArgs.options r = Some options ∧
     options = [] ∧
     HashTable.get "__proto__" options ≠ Some (VString "v")).
Proof.
  split; [done |]. split; [done |]. split; [done |].
  split; by repeat eexists.
Qed.

(** C7: a token cast to [Boolean] gives [false] when it is [false] in
    any letter case; otherwise, when its numeric coercion is a number,
    [true] exactly when that number is not zero; and [true] when the
    coercion is not a number. *)
Theorem boolean_cast arg st :
  ∃ b,
    castArgument arg Constructor.Boolean st = (Normal (VBoolean b), st) ∧
    (JS.toLowerCase arg = "false" → b = false) ∧
    (JS.toLowerCase arg ≠ "false" → JS.Number arg ≠ JS.nan →
     (b = true ↔ ∀ s, JS.Number arg ≠ S754_zero s)) ∧
    (JS.toLowerCase arg ≠ "false" → JS.Number arg = JS.nan → b = true) ∧
    castArgument "false" Constructor.Boolean st = (Normal (VBoolean false), st) ∧
    castArgument "FALSE" Constructor.Boolean st = (Normal (VBoolean false), st) ∧
    castArgument "0" Constructor.Boolean st = (Normal (VBoolean false), st) ∧
    castArgument "yes" Constructor.Boolean st = (Normal (VBoolean true), st) ∧
    JS.Number "yes" = JS.nan.
Proof.
  exists (if decide (JS.toLowerCase arg = "false") then false
          else if JS.isNaN (JS.Number arg) then true
          else JS.Boolean (JS.Number arg)).
  split.
  { unfold castArgument. destruct (decide _); [done |].
    by destruct (JS.isNaN _). }
  split; [intros E; by rewrite decide_True |].
  split.
  { intros E N. rewrite decide_False by done.
    destruct (JS.Number arg) as [s | s | | s m e]; simpl.
    - split; [done | intros Hz; by destruct (Hz s)].
    - done.
    - done.
    - done. }
  split; [intros E N; rewrite decide_False by done; by rewrite N |].
  done.
Qed.

(** C8: a cast throws nothing, whatever the token and the type: to
    [String] it gives the token as it is, to [Number] its numeric
    coercion, which can be not-a-number and is handed on as such, and to
    a type that is neither built in nor castable it gives [undefined].
    What the cast gives for a positional token is stored as it is. *)
Theorem cast_never_throws arg st :
  castArgument arg Constructor.String st = (Normal (VString arg), st) ∧
  castArgument arg Constructor.Number st
  = (Normal (VNumber (JS.Number arg)), st) ∧
  castArgument arg Constructor.Other st = (Normal VUndefined, st) ∧
  (∀ type, ∃ v, castArgument arg type st = (Normal v, st)) ∧
  (∀ definition pending',
     pendingParamDefinitions st = definition :: pending' →
     ∃ v,
       castArgument arg (ParamDefinition.type definition) st
       = (Normal v, st) ∧
       consumeArgument arg st =
       (Normal (),
        set_commandArgs (commandArgs st ++ [v])
          (set_pendingParamDefinitions pending' st))) ∧
  castArgument "abc" Constructor.Number st = (Normal (VNumber JS.nan), st) ∧
  (parse [] 1%positive "/"
     {| arrays := {[1%positive := ["abc"]]};
        self := new_ArgsParser 1%positive
                  (Some [ParamDefinition.make "n" Constructor.Number VUndefined])
                  None None 1 |}).1
  = Normal (ParsedArgs.make (Some [VNumber JS.nan]) (Some []) None
              (Some {| cwd := "/"; commands := [] |}) None).
Proof.
  split; [done |]. split; [done |]. split; [done |].
  split; [intros type; apply run_castArgument |].
  split; [intros definition pending'; apply run_consumeArgument_param |].
  split; [done |]. by vm_compute.
Qed.

(** C9: a call of [parse] works on a copy of the tokens, a new array
    of the heap, and leaves the parser, with its two maps, and every
    array of the caller as they were; a second call on the same parser,
    for the same or other tokens, completes as it would have as the only
    call, and a call repeated on the same inputs completes as the first
    did. *)
Theorem parse_calls_do_not_interfere
    sequence1 a1 cwd1 sequence2 a2 cwd2 w c1 w1 :
  is_Some (arrays w !! a1) → is_Some (arrays w !! a2) →
  parse sequence1 a1 cwd1 w = (c1, w1) →
  (∃ l w', concat a1 w = Some (l, w') ∧ arrays w !! l = None ∧
           arrays w' !! l = arrays w !! a1) ∧
  self w1 = self w ∧
  (∀ l, is_Some (arrays w !! l) → arrays w1 !! l = arrays w !! l) ∧
  (parse sequence2 a2 cwd2 w1).1 = (parse sequence2 a2 cwd2 w).1 ∧
  (parse sequence1 a1 cwd1 w1).1 = c1.
Proof.
  intros [ts1 H1] [ts2 H2] P.
  destruct (parse_frame _ _ _ _ _ _ P) as [Hs Hl].
  split.
  { destruct (concat_lookup _ _ _ H1) as (l & w' & Hc & _ & Ha & Hn).
    exists l, w'. split; [done |]. split; [done |].
    rewrite Ha, H1. apply lookup_insert_eq. }
  split; [done |]. split; [done |].
  assert (∀ sequence a cwd ts, arrays w !! a = Some ts →
            (parse sequence a cwd w1).1 = (parse sequence a cwd w).1) as E.
  { intros sequence a cwd ts H.
    rewrite (parse_consume _ _ _ _ _ H), (parse_consume _ _ _ w1 ts), Hs.
    - done.
    - rewrite Hl; eauto. }
  split; [by eapply E |].
  rewrite (E _ _ _ _ H1), P. done.
Qed.

Lemma parse_calls_do_not_interfere_witness :
  let w := {| arrays := {[1%positive := ["x"; "3"]; 2%positive := ["--help"]]};
              self := parser_ab |} in
  let w1 := (parse ["clime"] 1%positive "/" w).2 in
  (∃ l w', concat 1%positive w = Some (l, w') ∧ arrays w !! l = None ∧
           arrays w' !! l = arrays w !! 1%positive) ∧
  self w1 = self w ∧
  (∀ l, is_Some (arrays w !! l) → arrays w1 !! l = arrays w !! l) ∧
  (parse ["clime"; "sub"] 2%positive "/tmp" w1).1
  = (parse ["clime"; "sub"] 2%positive "/tmp" w).1 ∧
  (parse ["clime"] 1%positive "/" w1).1 = (parse ["clime"] 1%positive "/" w).1.
Proof.
  intros w w1.
  apply (parse_calls_do_not_interfere ["clime"] 1%positive "/"
           ["clime"; "sub"] 2%positive "/tmp" w
           (parse ["clime"] 1%positive "/" w).1 w1).
  - eexists. reflexivity.
  - eexists. reflexivity.
  - apply surjective_pairing.
Defined.

(** C10 fails as stated: in the place of the value of a non-toggle
    option the token [-] leads to a usage error, where the tokens
    without it are parsed to a result. *)
Lemma dash_as_option_value_throws :
  run parser_ab ["--count"; "-"; "3"; "x"; "4"]
  = Throw (usage_error parser_ab
      ("Expecting a value instead of an option or toggle " +:+ JS.dquote
       +:+ "-" +:+ JS.dquote +:+ " for option `count`")) ∧
  is_normal (run parser_ab ["--count"; "3"; "x"; "4"]).
Proof. by vm_compute. Qed.

(** C10, as amended: a token [-] that a turn of the loop takes as its
    token is consumed with no effect, the state being left as it was but
    for the token removed; when the tokens before it are consumed, on
    their own, without an error, [parse] completes as it does on the
    tokens without it. *)
Theorem lone_dash_is_skipped
    st rest sequence cwd a1 w1 a2 w2 pre post :
  tokens st = Some ("-" :: rest) →
  self w1 = self w2 →
  arrays w1 !! a1 = Some (pre ++ "-" :: post) →
  arrays w2 !! a2 = Some (pre ++ post) →
  is_normal (consume sequence cwd (self w1) pre).1 →
  turn st = (Normal None, set_array (args st) rest st) ∧
  (parse sequence a1 cwd w1).1 = (parse sequence a2 cwd w2).1.
Proof.
  intros T Hs H1 H2 Hn. split; [by apply run_turn_dash |].
  rewrite (parse_consume _ _ _ _ _ H1), (parse_consume _ _ _ _ _ H2), <- Hs.
  set (this := self w1) in *.
  destruct (consume sequence cwd this pre) as [c s] eqn:E.
  pose proof (loop_consume ("-" :: post) sequence cwd 1%positive
    {| arrays := {[1%positive := pre ++ "-" :: post]}; self := this |}
    pre c s (lookup_singleton_eq _ _) E) as L1.
  pose proof (loop_consume post sequence cwd 1%positive
    {| arrays := {[1%positive := pre ++ post]}; self := this |}
    pre c s (lookup_singleton_eq _ _) E) as L2.
  unfold consume. destruct c as [[r |] | e |]; simpl in Hn; try done.
  - destruct L1 as (s1 & _ & ->), L2 as (s2 & _ & ->). done.
  - destruct L1 as (s1 & R1 & Te & ->), L2 as (s2 & R2 & _ & ->).
    assert (tokens s1 = Some ("-" :: post)) as T1.
    { destruct (rel_tokens _ _ _ R1) as (ts0 & T0 & ->). rewrite Te in T0.
      by injection T0 as <-. }
    assert (tokens s2 = Some post) as T2.
    { destruct (rel_tokens _ _ _ R2) as (ts0 & T0 & ->). rewrite Te in T0.
      by injection T0 as <-. }
    rewrite (run_while_cons _ _ _ _ T1), (run_turn_dash _ _ T1).
    apply (outcome_while_rel _ _ _ _ post).
    + destruct R1, R2. split; simpl; try congruence.
      exists post. rewrite tokens_set_array, app_nil_r. done.
    + apply tokens_set_array.
    + simpl. lia.
    + lia.
Qed.

Lemma lone_dash_is_skipped_witness :
  let st := enter ["clime"] 1%positive "/" (world_of parser_ab ["-"; "x"]) in
  turn st = (Normal None, set_array (args st) ["x"] st) ∧
  run parser_ab ["x"; "-"; "3"] = run parser_ab ["x"; "3"].
Proof.
  intros st.
  apply (lone_dash_is_skipped st ["x"] ["clime"] "/"
           1%positive (world_of parser_ab ["x"; "-"; "3"])
           1%positive (world_of parser_ab ["x"; "3"]) ["x"] ["3"]).
  - reflexivity.
  - reflexivity.
  - reflexivity.
  - reflexivity.
  - vm_compute. exact I.
Defined.

(** * Further properties of the code *)

(** X1: the loop of [parse] composes: when the tokens [pre] are
    consumed with no error and no request for help, the loop on [pre]
    followed by [suf] is the loop taken up again on [suf] from the state
    [pre] leaves, and [parse] completes as that run does. *)
Theorem loop_composes sequence a cwd w pre suf st :
  arrays w !! a = Some (pre ++ suf) →
  consume sequence cwd (self w) pre = (Normal None, st) →
  consume sequence cwd (self w) (pre ++ suf) = resume st suf ∧
  (parse sequence a cwd w).1 = outcome (resume st suf).
Proof.
  intros Ha C. pose proof (consume_app _ _ _ _ suf _ C) as E.
  split; [done |]. by rewrite (parse_consume _ _ _ _ _ Ha), E.
Qed.

Lemma loop_composes_witness :
  let st := (consume ["clime"] "/" parser_ab ["x"]).2 in
  consume ["clime"] "/" parser_ab (["x"] ++ ["3"; "-v"])
  = resume st ["3"; "-v"] ∧
  run parser_ab ["x"; "3"; "-v"] = outcome (resume st ["3"; "-v"]).
Proof.
  intros st.
  apply (loop_composes ["clime"] 1%positive "/"
           (world_of parser_ab ["x"; "3"; "-v"]) ["x"] ["3"; "-v"] st).
  - reflexivity.
  - vm_compute. reflexivity.
Defined.

(** X2: a call of [parse] by a constructed parser no option of which
    has [hasOwnProperty] for its name or its flag, on an array that
    exists, returns or throws a usage error that carries the help
    provider of the parser: it throws no [TypeError], and its loop
    ends. *)
Theorem parse_throws_usage_errors_only sequence a cwd w :
  constructed (self w) → unshadowed (self w) → is_Some (arrays w !! a) →
  match (parse sequence a cwd w).1 with
  | Normal _ => True
  | Throw e => ∃ message, e = usage_error (self w) message
  | Timeout => False
  end.
Proof.
  intros Hc U [ts Ha].
  pose proof (parse_total sequence a cwd w) as Ht.
  pose proof (proj2 (usage_only_consume sequence cwd (self w) ts Hc U)) as Hu.
  rewrite <- (parse_consume _ _ _ _ _ Ha) in Hu.
  by destruct (parse sequence a cwd w).1.
Qed.

Lemma parse_throws_usage_errors_only_witness :
  match run parser_ab ["-x"] with
  | Normal _ => True
  | Throw e => ∃ message, e = usage_error parser_ab message
  | Timeout => False
  end.
Proof.
  apply (parse_throws_usage_errors_only ["clime"] 1%positive "/"
           (world_of parser_ab ["-x"])).
  - reflexivity.
  - unfold unshadowed. simpl. repeat constructor; discriminate.
  - eexists. reflexivity.
Defined.

(** X3: behind tokens consumed with no error and no request for help,
    a token [--name] whose name is not [help] and is no property of the
    map of the option definitions, that map having no property
    [hasOwnProperty], or that meets a parser that has no such map, makes
    [parse] throw the usage error of the unknown option, whatever
    follows. *)
Theorem unknown_long_option sequence a cwd w pre name post st :
  arrays w !! a = Some (pre ++ ("--" +:+ name) :: post) →
  consume sequence cwd (self w) pre = (Normal None, st) →
  name ≠ "help" →
  match ArgsParser.optionDefinitionMap (self w) with
  | Some map => HashTable.hasOwnProperty name map = Some false
  | None => True
  end →
  (parse sequence a cwd w).1 =
  Throw (usage_error (self w) ("Unknown option `" +:+ name +:+ "`")).
Proof.
  intros Ha C Hn Hg.
  rewrite (parse_consume _ _ _ _ _ Ha), (consume_app _ _ _ _ _ _ C).
  destruct (consume_state _ _ _ _ _ _ C) as (Hs & _ & _).
  rewrite resume_cons, (run_dispatch_long _ _ Hn), run_bind.
  rewrite run_consumeToggleOrOption_unknown.
  - simpl. by rewrite Hs.
  - simpl. by rewrite Hs.
Qed.

Lemma unknown_long_option_witness :
  run parser_ab ["x"; "--colour"; "red"]
  = Throw (usage_error parser_ab "Unknown option `colour`").
Proof.
  apply (unknown_long_option ["clime"] 1%positive "/"
           (world_of parser_ab ["x"; "--colour"; "red"]) ["x"] "colour"
           ["red"] (consume ["clime"] "/" parser_ab ["x"]).2).
  - reflexivity.
  - vm_compute. reflexivity.
  - discriminate.
  - reflexivity.
Defined.

(** X4: [parse] returns a result with [help] set only when one of the
    tokens is [-h], [-?] or [--help], and the result is then the help
    result, with no other field. *)
Theorem help_needs_a_help_token sequence a cwd w r w' :
  parse sequence a cwd w = (Normal r, w') →
  ParsedArgs.help r = Some true →
  r = help_result ∧
  ∃ ts h, arrays w !! a = Some ts ∧ h ∈ ts ∧
          (h = "-h" ∨ h = "-?" ∨ h = "--help").
Proof.
  intros P Hh.
  destruct (arrays w !! a) as [ts |] eqn:Ha.
  2:{ unfold parse, concat in P. by rewrite Ha in P. }
  pose proof (parse_consume sequence a cwd w ts Ha) as E.
  rewrite P in E. simpl in E.
  destruct (consume sequence cwd (self w) ts) as [c st] eqn:C.
  destruct c as [[r' |] | e |]; simpl in E; try done.
  - injection E as <-. split; [by apply consume_some in C |].
    rewrite consume_while in C.
    destruct (while_help _ _ ts _ _ C (tokens_consume_enter _ _ _ _))
      as (h & Hin & Hhelp).
    exists ts, h. split; [done |]. split; [done |]. by apply is_help_spec.
  - assert (ParsedArgs.help r = None) as Hnone; [| congruence].
    rewrite run_finish in E. cbv zeta in E.
    destruct (_ <? _); [done |].
    destruct (HashTable.keys <$> _) as [[| ? ?] |]; try done;
      destruct (commandExtraArgs st) as [| ? ?],
        (ArgsParser.paramsDefinition (self (world st))) as [d |];
      try destruct (ParamsDefinition.required d); try done;
      by injection E as ->.
Qed.

Lemma help_needs_a_help_token_witness :
  help_result = help_result ∧
  ∃ ts h, Some ["x"; "-?"; "y"] = Some ts ∧ h ∈ ts ∧
          (h = "-h" ∨ h = "-?" ∨ h = "--help").
Proof.
  set (w := world_of parser_a ["x"; "-?"; "y"]).
  apply (help_needs_a_help_token ["clime"] 1%positive "/" w help_result
           (parse ["clime"] 1%positive "/" w).2).
  - vm_compute. reflexivity.
  - reflexivity.
Defined.



(** X6: in a result of a constructed parser that is not the help
    result, an option of any name but [__proto__] that no token supplies
    has the value it was given before the loop, [false] for a toggle and
    the declared default otherwise, and a toggle of such a name that
    some token supplies is [true]. *)
Theorem option_values_in_the_result sequence a cwd w ts r w' name definition :
  constructed (self w) →
  arrays w !! a = Some ts →
  parse sequence a cwd w = (Normal r, w') →
  ParsedArgs.help r ≠ Some true →
  name ≠ "__proto__" →
  ArgsParser.optionDefinitionMap (self w) ≫= HashTable.get name
  = Some definition →
  ∃ options,
    ParsedArgs.options r = Some options ∧
    ((¬ ∃ token, token ∈ ts ∧ supplies (self w) token name) →
     HashTable.get name options = Some (initial_value definition)) ∧
    (OptionDefinition.toggle definition = true →
     (∃ token, token ∈ ts ∧ supplies (self w) token name) →
     HashTable.get name options = Some (VBoolean true)).
Proof.
  intros Hc Ha P Hh Hp Hd.
  destruct (proj1 (parse_result sequence a cwd w ts r Ha))
    as (st & C & _ & _ & _ & ->); [by rewrite P |].
  destruct (consume_state _ _ _ _ _ _ C) as (Hs & _ & Ht).
  pose proof (consume_assign _ _ _ _ _ C) as [_ Hk _ Htg _ _].
  destruct Ht as [[options Hopt] _].
  { rewrite Hs. destruct (constructed_maps _ Hc) as (H1 & _ & _). apply H1.
    destruct (ArgsParser.optionDefinitionMap (self w)); [eauto | done]. }
  exists options. split; [done |].
  specialize (Htg name Hp).
  unfold option_value at 1 in Hk. unfold option_value at 2 in Htg.
  rewrite Hopt in Hk, Htg. simpl in Hk, Htg. split.
  - intros Hn. rewrite (Hk _ Hn), option_value_enter by done.
    simpl. by rewrite Hd.
  - intros Htoggle Hsup. apply Htg; [| by left].
    exists definition. done.
Qed.

Lemma option_values_in_the_result_witness :
  ∃ options,
    Some [("verbose", VBoolean true); ("count", VUndefined)] = Some options ∧
    ((¬ ∃ token, token ∈ ["x"; "-v"; "1"] ∧
                 supplies parser_ab token "verbose") →
     HashTable.get "verbose" options
     = Some (initial_value option_verbose)) ∧
    (OptionDefinition.toggle option_verbose = true →
     (∃ token, token ∈ ["x"; "-v"; "1"] ∧
               supplies parser_ab token "verbose") →
     HashTable.get "verbose" options = Some (VBoolean true)).
Proof.
  set (w := world_of parser_ab ["x"; "-v"; "1"]).
  apply (option_values_in_the_result ["clime"] 1%positive "/" w ["x"; "-v"; "1"]
           (ParsedArgs.make
              (Some [VString "x"; VNumber (JS.Number "1")]) (Some [])
              (Some [("verbose", VBoolean true); ("count", VUndefined)])
              (Some {| cwd := "/"; commands := ["clime"] |}) None)
           (parse ["clime"] 1%positive "/" w).2 "verbose" option_verbose).
  - reflexivity.
  - reflexivity.
  - vm_compute. reflexivity.
  - discriminate.
  - discriminate.
  - reflexivity.
Defined.

(** X7: tokens of which none begins with a dash are consumed with no
    error: they are cast, in order, to the types of the parameter
    definitions, in declaration order; those beyond the definitions
    become extra values, cast to the type of the variadic definition or
    kept as strings when there is none; the definitions beyond the
    tokens stay pending, and the tables of the options are left as the
    declarations made them.  The cast of a type that has its own [cast]
    is given the token and the context made of [cwd] and [sequence]. *)
Theorem positional_tokens sequence a cwd w ts :
  arrays w !! a = Some ts →
  Forall (λ t, starts_with_dash t = false) ts →
  let st0 := enter sequence a cwd w in
  let definitions := default [] (ArgsParser.paramDefinitions (self w)) in
  ∃ st,
    consume sequence cwd (self w) ts = (Normal None, st) ∧
    commandArgs st =
      zip_with (λ t d, cast_in st0 t (ParamDefinition.type d)) ts definitions ∧
    commandExtraArgs st = extra_in st0 <$> drop (length definitions) ts ∧
    pendingParamDefinitions st = drop (length ts) definitions ∧
    commandOptions st = commandOptions st0 ∧
    requiredOptionMap st = requiredOptionMap st0 ∧
    (parse sequence a cwd w).1 = (finish st).1 ∧
    ∀ t cast,
      cast_in st0 t (Constructor.Castable cast)
      = cast t {| cwd := cwd; commands := sequence |}.
Proof.
  intros Ha Hts st0 definitions.
  rewrite (parse_consume _ _ _ _ _ Ha), consume_while.
  set (s0 := enter sequence 1%positive cwd
               {| arrays := {[1%positive := ts]}; self := self w |}).
  destruct (while_positional (S (length ts)) s0 ts Hts
              (tokens_consume_enter _ _ _ _) (Nat.lt_succ_diag_r _))
    as (st & -> & Hargs & Hx & Hp & Ho & Hr).
  exists st. split; [done |]. rewrite Hargs, Hx, Hp, Ho, Hr.
  split; [| split; [| done]].
  - apply (zip_with_ext _ _ ts ts _ definitions); [| done | done].
    intros t d. by apply cast_in_context.
  - apply list_fmap_ext. intros _ t _. by apply extra_in_context.
Qed.

Lemma positional_tokens_witness :
  ∃ st,
    consume ["clime"] "/" parser_rest ["x"; "1"; "2"] = (Normal None, st) ∧
    commandArgs st = [VString "x"] ∧
    commandExtraArgs st = [VNumber (JS.Number "1"); VNumber (JS.Number "2")] ∧
    pendingParamDefinitions st = [] ∧
    commandOptions st = None ∧
    requiredOptionMap st = None ∧
    run parser_rest ["x"; "1"; "2"] = (finish st).1 ∧
    ∀ t cast,
      cast_in
        (enter ["clime"] 1%positive "/"
           (world_of parser_rest ["x"; "1"; "2"]))
        t (Constructor.Castable cast)
      = cast t {| cwd := "/"; commands := ["clime"] |}.
Proof.
  apply (positional_tokens ["clime"] 1%positive "/"
           (world_of parser_rest ["x"; "1"; "2"]) ["x"; "1"; "2"]).
  - reflexivity.
  - repeat constructor.
Defined.

(** X8: [parse] returns a result that is not the help result exactly
    when the loop ends with no error and no request for help and every
    check passes: the positional values are no fewer than the required
    number, no required option is left, there are extra values only
    with a variadic definition, and at least one when that definition is
    required.  The result then holds the positional values followed by
    the defaults of the pending definitions, the extra values, the
    object of the options, and the context made of [cwd] and
    [sequence]. *)
Theorem parse_returns_iff_checks_pass sequence a cwd w ts r :
  arrays w !! a = Some ts →
  (parse sequence a cwd w).1 = Normal r ∧ ParsedArgs.help r ≠ Some true ↔
  ∃ st,
    consume sequence cwd (self w) ts = (Normal None, st) ∧
    ArgsParser.requiredParamsNumber (self w) ≤ length (commandArgs st) ∧
    default [] (HashTable.keys <$> requiredOptionMap st) = [] ∧
    match commandExtraArgs st, ArgsParser.paramsDefinition (self w) with
    | _ :: _, None => False
    | [], Some definition => ParamsDefinition.required definition = false
    | _, _ => True
    end ∧
    r = ParsedArgs.make
          (Some (commandArgs st
                 ++ (ParamDefinition.default <$> pendingParamDefinitions st)))
          (Some (commandExtraArgs st)) (commandOptions st)
          (Some {| cwd := cwd; commands := sequence |}) None.
Proof.
  intros Ha. rewrite (parse_result _ _ _ _ _ _ Ha).
  split; intros (st & C & H1 & H2 & H3 & ->); exists st;
    (split; [done |]); (split; [done |]); (split; [done |]);
    (split; [done |]); unfold result_of; simpl;
    by rewrite (consume_context _ _ _ _ _ _ C).
Qed.

Lemma parse_returns_iff_checks_pass_witness :
  run parser_a ["x"]
  = Normal (ParsedArgs.make (Some [VString "x"]) (Some []) None
              (Some {| cwd := "/"; commands := ["clime"] |}) None).
Proof.
  apply (proj2 (parse_returns_iff_checks_pass ["clime"] 1%positive "/"
                  (world_of parser_a ["x"]) ["x"] _ eq_refl)).
  exists (consume ["clime"] "/" parser_a ["x"]).2.
  split; [vm_compute; reflexivity |].
  split; [vm_compute; lia |]. split; [reflexivity |].
  split; [exact I | reflexivity].
Defined.

(** X9: with a variadic definition that is required, tokens consumed
    without an error that leave no extra value, and the checks of the
    required parameters and options passed, [parse] throws the usage
    error that asks for at least one element, naming the variadic
    definition. *)
Theorem variadic_required sequence a cwd w ts st definition :
  arrays w !! a = Some ts →
  consume sequence cwd (self w) ts = (Normal None, st) →
  ArgsParser.paramsDefinition (self w) = Some definition →
  ParamsDefinition.required definition = true →
  commandExtraArgs st = [] →
  ArgsParser.requiredParamsNumber (self w) ≤ length (commandArgs st) →
  default [] (HashTable.keys <$> requiredOptionMap st) = [] →
  (parse sequence a cwd w).1 =
  Throw (usage_error (self w)
    ("Expecting at least one element for variadic parameters `"
     +:+ ParamsDefinition.name definition +:+ "`")).
Proof.
  intros Ha C Hv Hreq Hx Hle Hr.
  rewrite (parse_consume _ _ _ _ _ Ha), C. simpl.
  destruct (consume_state _ _ _ _ _ _ C) as (Hs & _ & _).
  rewrite run_finish. cbv zeta. rewrite Hs, Hv, Hx, Hreq.
  apply Nat.ltb_ge in Hle. rewrite Hle.
  by destruct (HashTable.keys <$> requiredOptionMap st) as [[| ? ?] |].
Qed.

Lemma variadic_required_witness :
  run parser_rest ["x"]
  = Throw (usage_error parser_rest
             "Expecting at least one element for variadic parameters `rest`").
Proof.
  apply (variadic_required ["clime"] 1%positive "/"
           (world_of parser_rest ["x"]) ["x"]
           (consume ["clime"] "/" parser_rest ["x"]).2 params_rest).
  - reflexivity.
  - vm_compute. reflexivity.
  - reflexivity.
  - reflexivity.
  - reflexivity.
  - vm_compute. lia.
  - reflexivity.
Defined.

(** X10: the constructor, given option definitions, builds a map of
    the definitions whose properties are the declared names other than
    [__proto__], each read as a definition of that name, which is the
    definition itself when the names are distinct, and a map of the
    flags whose properties are the non-empty flags declared, other than
    [__proto__], each read as the name of a definition that declares
    it; every name a flag is mapped to can be read in the map of the
    definitions.  A definition named [__proto__] is what reading
    [__proto__] in the map of the definitions gives. *)
Theorem constructor_maps helpProvider parameters variadic definitions required :
  let this :=
    new_ArgsParser helpProvider parameters variadic (Some definitions)
      required in
  ∃ map mapping,
    ArgsParser.optionDefinitionMap this = Some map ∧
    ArgsParser.optionFlagMapping this = Some mapping ∧
    (∀ n, HashTable.own n map = true ↔
          n ∈ OptionDefinition.name <$> definitions ∧ n ≠ "__proto__") ∧
    (∀ n d, HashTable.get n map = Some d →
            d ∈ definitions ∧ OptionDefinition.name d = n) ∧
    (NoDup (OptionDefinition.name <$> definitions) →
     ∀ d, d ∈ definitions →
          HashTable.get (OptionDefinition.name d) map = Some d) ∧
    (∀ f, HashTable.own f mapping = true ↔
          f ≠ EmptyString ∧ f ≠ "__proto__" ∧
          ∃ d, d ∈ definitions ∧ OptionDefinition.flag d = Some f) ∧
    (∀ f n, HashTable.get f mapping = Some n →
            (∃ d, d ∈ definitions ∧ OptionDefinition.flag d = Some f ∧
                  OptionDefinition.name d = n) ∧
            is_Some (HashTable.get n map)).
Proof.
  intros this.
  set (maps := foldl register_option (HashTable.empty, HashTable.empty)
                 definitions).
  exists maps.1, maps.2. split; [done |]. split; [done |].
  split; [| split; [| split; [| split]]].
  - intros n. unfold maps. rewrite foldl_register_option_own. simpl.
    split; [| tauto]. intros [Ho | ?]; [| tauto].
    by apply own_get in Ho as [? [=]].
  - intros n d Hd.
    by destruct (foldl_register_option_map _ _ _ _ Hd) as [? | [=]].
  - intros Hnd d Hin. unfold maps.
    apply foldl_register_option_get; [done |]. by left.
  - intros f. unfold maps. rewrite foldl_register_option_own_flag. simpl.
    split.
    + intros [Ho | (Hp & d & Hin & Hd)];
        [by apply own_get in Ho as [? [=]] |].
      apply truthy_flag_spec in Hd as [Hd Hne]. eauto.
    + intros (Hne & Hp & d & Hin & Hd). right. split; [done |].
      exists d. split; [done |]. by apply truthy_flag_spec.
  - intros f n Hf. split.
    + by destruct (foldl_register_option_mapping _ _ _ _ Hf)
        as [[_ ?] | [=]].
    + by apply (foldl_register_option_flags definitions
                  (HashTable.empty, HashTable.empty)) in Hf.
Qed.

(** X11: a toggle met as a long option (a token [--name] for a name
    that is a property of the map of the option definitions, a map with
    no property [hasOwnProperty], and is mapped to a toggle) is set to
    [true] and takes no value: the turn removes that token alone, so
    that the token behind it is the next the loop looks at. *)
Theorem long_toggle_takes_no_value st name definition map rest :
  well_formed st →
  tokens st = Some (("--" +:+ name) :: rest) →
  name ≠ "help" →
  ArgsParser.optionDefinitionMap (self (world st)) = Some map →
  HashTable.hasOwnProperty name map = Some true →
  HashTable.get name map = Some definition →
  OptionDefinition.toggle definition = true →
  ∃ options st',
    commandOptions st = Some options ∧
    turn st = (Normal None, st') ∧
    tokens st' = Some rest ∧
    commandOptions st'
    = Some (HashTable.set name (VBoolean true) options) ∧
    option_value st' name = Some (VBoolean true) ∧
    requiredOptionMap st'
    = requiredOptionMap (satisfied name definition st) ∧
    commandArgs st' = commandArgs st ∧
    commandExtraArgs st' = commandExtraArgs st.
Proof.
  intros W T Hn Hm Hh Hg Ht.
  destruct (well_formed_tables st W) as [[options Ho] Hreq]; [eauto |].
  rewrite (run_turn _ _ _ T), (run_dispatch_long _ _ Hn), run_bind.
  rewrite (run_consumeToggleOrOption name (set_array (args st) rest st)
             map definition Hm Hh Hg (λ _, Hreq)).
  rewrite Ht.
  set (s := satisfied name definition (set_array (args st) rest st)).
  destruct (satisfied_frame name definition (set_array (args st) rest st))
    as (_ & Ts & Hos & _). fold s in Ts, Hos.
  rewrite tokens_set_array in Ts. simpl in Hos. rewrite Ho in Hos.
  rewrite (run_set_toggle name s options Hos).
  eexists options, _. split; [done |]. split; [done |].
  split; [done |]. split; [done |]. split.
  { unfold option_value. simpl. apply get_set_eq.
    by apply (hasOwnProperty_name _ _ Hh). }
  unfold s, satisfied. by destruct (OptionDefinition.required definition).
Qed.

Lemma long_toggle_takes_no_value_witness :
  let st := enter ["clime"] 1%positive "/"
              (world_of parser_ab ["--verbose"; "x"]) in
  ∃ options st',
    commandOptions st = Some options ∧
    turn st = (Normal None, st') ∧
    tokens st' = Some ["x"] ∧
    commandOptions st'
    = Some (HashTable.set "verbose" (VBoolean true) options) ∧
    option_value st' "verbose" = Some (VBoolean true) ∧
    requiredOptionMap st'
    = requiredOptionMap (satisfied "verbose" option_verbose st) ∧
    commandArgs st' = commandArgs st ∧
    commandExtraArgs st' = commandExtraArgs st.
Proof.
  intros st.
  apply (long_toggle_takes_no_value st "verbose" option_verbose
           [("verbose", option_verbose); ("count", option_count)] ["x"]).
  - apply well_formed_enter; [reflexivity |]. eexists. reflexivity.
  - reflexivity.
  - discriminate.
  - reflexivity.
  - reflexivity.
  - reflexivity.
  - reflexivity.
Defined.

(** X12: the required options left after the loop are kept in the
    order of their declaration: when no option name is an array index,
    the names [parse] finds missing, which its usage error lists in
    that order, are a sublist of the names of the definitions marked
    required. *)
Theorem missing_options_in_declaration_order
    sequence cwd this definitions ts st :
  ArgsParser.optionDefinitions this = Some definitions →
  Forall (λ d, HashTable.array_index (OptionDefinition.name d) = None)
    definitions →
  consume sequence cwd this ts = (Normal None, st) →
  default [] (HashTable.keys <$> requiredOptionMap st) `sublist_of`
  OptionDefinition.name
  <$> filter (λ d, OptionDefinition.required d = true) definitions.
Proof.
  intros Hd Hp C.
  pose proof (as_required _ _ _ (consume_assign _ _ _ _ _ C)) as Hs.
  pose proof (required_names_enter sequence 1%positive cwd
                {| arrays := {[1%positive := ts]}; self := this |}
                definitions Hd) as He.
  assert (required_names st `sublist_of`
          OptionDefinition.name
          <$> filter (λ d, OptionDefinition.required d = true) definitions)
    as Hsub by (by etrans).
  unfold required_names in Hsub.
  destruct (requiredOptionMap st) as [h |]; [| apply sublist_nil_l].
  simpl in *. rewrite keys_plain; [by etrans; [apply sublist_filter |] |].
  apply Forall_forall. intros k Hk.
  apply (elem_of_sublist _ _ _ Hk) in Hsub.
  apply list_elem_of_fmap in Hsub as (d & -> & Hin).
  apply list_elem_of_filter in Hin as [_ Hin].
  rewrite Forall_forall in Hp. by apply Hp.
Qed.

Lemma missing_options_in_declaration_order_witness :
  default []
    (HashTable.keys
     <$> requiredOptionMap (consume ["clime"] "/" parser_key ["x"]).2)
  `sublist_of`
  OptionDefinition.name
  <$> filter (λ d, OptionDefinition.required d = true) [option_key].
Proof.
  apply (missing_options_in_declaration_order ["clime"] "/" parser_key
           [option_key] ["x"]).
  - reflexivity.
  - repeat constructor.
  - vm_compute. reflexivity.
Defined.

(** X13: a flag is another way to write the name it is mapped to: for
    a constructed parser no option of which has [hasOwnProperty] for its
    name or its flag, behind tokens consumed with no error, the token
    made of a dash and one flag, other than [-h] and [-?], and the token
    made of two dashes and the name the flag is mapped to, other than
    [__proto__], make [parse] complete alike, whether the option is a
    toggle or takes the next token. *)
Theorem flag_is_an_alias sequence cwd a1 w1 a2 w2 pre c name post :
  self w1 = self w2 → constructed (self w1) → unshadowed (self w1) →
  arrays w1 !! a1 = Some (pre ++ ("-" +:+ String c EmptyString) :: post) →
  arrays w2 !! a2 = Some (pre ++ ("--" +:+ name) :: post) →
  ArgsParser.optionFlagMapping (self w1)
  ≫= HashTable.get (String c EmptyString) = Some name →
  c ≠ "-"%char → c ≠ "h"%char → c ≠ "?"%char →
  name ≠ "help" → name ≠ "__proto__" →
  is_normal (consume sequence cwd (self w1) pre).1 →
  (parse sequence a1 cwd w1).1 = (parse sequence a2 cwd w2).1.
Proof.
  intros Hs Hc U H1 H2 Hg Hd Hh Hq Hn Hp Hpre.
  rewrite (parse_consume _ _ _ _ _ H1), (parse_consume _ _ _ _ _ H2), <- Hs.
  set (this := self w1) in *.
  destruct (consume sequence cwd this pre) as [c0 st] eqn:C.
  destruct c0 as [[r |] | e |]; simpl in Hpre; try done.
  - pose proof (consume_help_prefix _ _ _ _
                  (("-" +:+ String c EmptyString) :: post) _ _ C) as E1.
    pose proof (consume_help_prefix _ _ _ _
                  (("--" +:+ name) :: post) _ _ C) as E2.
    destruct (consume _ _ _ (pre ++ ("-" +:+ _) :: _)) as [c1 s1].
    destruct (consume _ _ _ (pre ++ ("--" +:+ _) :: _)) as [c2 s2].
    simpl in E1, E2. by subst.
  - rewrite !(consume_app _ _ _ _ _ _ C), !resume_cons.
    assert (dispatch ("-" +:+ String c EmptyString)
              (set_array (args st) post st)
            = dispatch ("--" +:+ name) (set_array (args st) post st))
      as ->; [| done].
    rewrite (run_dispatch_long _ _ Hn), run_dispatch_flags; [| done |].
    2:{ destruct (is_help _) eqn:Hf; [| done]. apply is_help_spec in Hf.
        by destruct Hf as [[=] | [[=] | [=]]]. }
    rewrite !run_bind.
    destruct (consume_state _ _ _ _ _ _ C) as (Hst & _).
    destruct (ArgsParser.optionFlagMapping this) as [mapping |] eqn:Hf;
      [| done].
    simpl in Hg.
    destruct (constructed_maps _ Hc) as (_ & _ & Hflags).
    destruct (Hflags _ _ _ Hf Hg) as (map & definition & Hm & Hdef).
    destruct (unshadowed_maps _ Hc U) as [U1 U2].
    rewrite (single_flag _ c name mapping map); [done | | | | | |].
    + apply well_formed_set_array.
      by apply (well_formed_consume _ _ _ _ _ _ Hc C).
    + simpl. by rewrite Hst.
    + by apply U2.
    + done.
    + simpl. by rewrite Hst.
    + apply hasOwnProperty_true. split; [by apply U1 |].
      apply own_spec. eauto.
Qed.

Lemma flag_is_an_alias_witness :
  run parser_ab ["x"; "-c"; "3"; "4"] = run parser_ab ["x"; "--count"; "3"; "4"].
Proof.
  apply (flag_is_an_alias ["clime"] "/"
           1%positive (world_of parser_ab ["x"; "-c"; "3"; "4"])
           1%positive (world_of parser_ab ["x"; "--count"; "3"; "4"])
           ["x"] "c"%char "count" ["3"; "4"]).
  - reflexivity.
  - reflexivity.
  - unfold unshadowed. simpl. repeat constructor; discriminate.
  - reflexivity.
  - reflexivity.
  - reflexivity.
  - discriminate.
  - discriminate.
  - discriminate.
  - discriminate.
  - discriminate.
  - vm_compute. exact I.
Defined.

(** X14: a toggle and a positional token can change places: for a
    constructed parser, behind tokens consumed with no error, a toggle
    in long form followed by a token that begins with no dash, and the
    same two tokens the other way round, make [parse] complete
    alike. *)
Theorem toggle_commutes_with_positional
    sequence cwd a1 w1 a2 w2 pre name definition p post :
  self w1 = self w2 → constructed (self w1) →
  arrays w1 !! a1 = Some (pre ++ ("--" +:+ name) :: p :: post) →
  arrays w2 !! a2 = Some (pre ++ p :: ("--" +:+ name) :: post) →
  ArgsParser.optionDefinitionMap (self w1) ≫= HashTable.get name
  = Some definition →
  OptionDefinition.toggle definition = true → name ≠ "help" →
  starts_with_dash p = false →
  is_normal (consume sequence cwd (self w1) pre).1 →
  (parse sequence a1 cwd w1).1 = (parse sequence a2 cwd w2).1.
Proof.
  intros Hs Hc H1 H2 Hd Ht Hn Hp Hpre.
  rewrite (parse_consume _ _ _ _ _ H1), (parse_consume _ _ _ _ _ H2), <- Hs.
  set (this := self w1) in *.
  destruct (consume sequence cwd this pre) as [c0 st] eqn:C.
  destruct c0 as [[r |] | e |]; simpl in Hpre; try done.
  - pose proof (consume_help_prefix _ _ _ _
                  (("--" +:+ name) :: p :: post) _ _ C) as E1.
    pose proof (consume_help_prefix _ _ _ _
                  (p :: ("--" +:+ name) :: post) _ _ C) as E2.
    destruct (consume _ _ _ (pre ++ ("--" +:+ _) :: _)) as [c1 s1].
    destruct (consume _ _ _ (pre ++ p :: _)) as [c2 s2].
    simpl in E1, E2. by subst.
  - pose proof (well_formed_consume _ _ _ _ _ _ Hc C) as W.
    destruct (consume_state _ _ _ _ _ _ C) as (Hself & _ & _).
    destruct (ArgsParser.optionDefinitionMap this) as [map |] eqn:Hm;
      [| done].
    simpl in Hd.
    rewrite !(consume_app _ _ _ _ _ _ C), !resume_cons.
    rewrite (run_dispatch_positional p _ Hp).
    destruct (positional_frame p
                (set_array (args st) (("--" +:+ name) :: post) st))
      as (TB' & EB' & SB').
    rewrite tokens_set_array in TB'.
    change (self (world (set_array (args st) (("--" +:+ name) :: post) st)))
      with (self (world st)) in SB'.
    assert (HashTable.hasOwnProperty name map ≠ Some true →
            ∃ e, ∀ s, self (world s) = this →
                      consumeToggleOrOption name s = (Throw e, s)) as Hthrow.
    { intros Hne. destruct (HashTable.hasOwnProperty name map) as [[|] |] eqn:Hh;
        [done | |].
      - exists (usage_error this ("Unknown option `" +:+ name +:+ "`")).
        intros s Hs'. rewrite run_consumeToggleOrOption_unknown;
          rewrite Hs'; [done | by rewrite Hm].
      - exists ETypeError. intros s Hs'.
        apply (run_consumeToggleOrOption_shadowed name s map);
          [by rewrite Hs' | by apply hasOwnProperty_None in Hh]. }
    destruct (decide (HashTable.hasOwnProperty name map = Some true))
      as [Hh | Hh].
    2:{ destruct (Hthrow Hh) as [e He].
        rewrite (run_dispatch_long_throw _ name e Hn
                   (He (set_array (args st) (p :: post) st) Hself)).
        rewrite (run_while_cons _ _ _ _ TB'), (run_turn _ _ _ TB').
        rewrite (run_dispatch_long_throw _ name e Hn); [done |].
        apply He. simpl. by rewrite SB'. }
    rewrite (run_dispatch_long_toggle _ name map definition
               (well_formed_set_array st _ W)); try done;
      [| simpl; by rewrite Hself].
    set (A := toggled name definition (set_array (args st) (p :: post) st)).
    set (B := positional p
                (set_array (args st) (("--" +:+ name) :: post) st)).
    destruct (toggled_frame name definition
                (set_array (args st) (p :: post) st)) as (TA & EA & _).
    destruct (positional_frame p
                (set_array (args st) (("--" +:+ name) :: post) st))
      as (TB & EB & SB).
    fold A in TA, EA. fold B in TB, EB, SB.
    rewrite tokens_set_array in TA, TB.
    change (args (set_array (args st) (p :: post) st)) with (args st) in EA.
    change (args (set_array (args st) (("--" +:+ name) :: post) st))
      with (args st) in EB.
    change (self (world (set_array (args st) (("--" +:+ name) :: post) st)))
      with (self (world st)) in SB.
    rewrite (run_while_cons _ _ _ _ TA), (run_turn _ _ _ TA).
    rewrite (run_while_cons _ _ _ _ TB), (run_turn _ _ _ TB).
    rewrite (run_dispatch_positional p _ Hp).
    assert (well_formed (set_array (args B) post B)) as WB.
    { apply well_formed_set_array, well_formed_positional.
      by apply well_formed_set_array. }
    rewrite (run_dispatch_long_toggle _ name map definition WB); try done.
    2:{ simpl. by rewrite SB, Hself. }
    rewrite EA, EB. unfold A, B.
    by rewrite (toggled_positional name definition p st (p :: post)
                  (("--" +:+ name) :: post) post).
Qed.

Lemma toggle_commutes_with_positional_witness :
  run parser_ab ["--verbose"; "x"; "1"] = run parser_ab ["x"; "--verbose"; "1"].
Proof.
  apply (toggle_commutes_with_positional ["clime"] "/"
           1%positive (world_of parser_ab ["--verbose"; "x"; "1"])
           1%positive (world_of parser_ab ["x"; "--verbose"; "1"])
           [] "verbose" option_verbose "x" ["1"]).
  - reflexivity.
  - reflexivity.
  - reflexivity.
  - reflexivity.
  - reflexivity.
  - reflexivity.
  - discriminate.
  - reflexivity.
  - vm_compute. exact I.
Defined.

(** X15: a cluster of flags that begins with the flag of a toggle is
    that flag alone followed by the cluster of the others: for a
    constructed parser, behind tokens consumed with no error, the one
    token and the two make [parse] complete alike, provided the first
    flag is none of [-], [h] and [?], and the others do not begin with a
    dash and are not [h] or [?] alone, which on their own would ask for
    help. *)
Theorem cluster_splits
    sequence cwd a1 w1 a2 w2 pre c c' rest name definition post :
  self w1 = self w2 → constructed (self w1) →
  arrays w1 !! a1 = Some (pre ++ ("-" +:+ String c (String c' rest)) :: post) →
  arrays w2 !! a2
  = Some (pre ++ ("-" +:+ String c EmptyString)
               :: ("-" +:+ String c' rest) :: post) →
  ArgsParser.optionFlagMapping (self w1)
  ≫= HashTable.get (String c EmptyString) = Some name →
  ArgsParser.optionDefinitionMap (self w1) ≫= HashTable.get name
  = Some definition →
  OptionDefinition.toggle definition = true →
  c ≠ "-"%char → c ≠ "h"%char → c ≠ "?"%char →
  c' ≠ "-"%char → String c' rest ≠ "h" → String c' rest ≠ "?" →
  is_normal (consume sequence cwd (self w1) pre).1 →
  (parse sequence a1 cwd w1).1 = (parse sequence a2 cwd w2).1.
Proof.
  intros Hs Hc H1 H2 Hg Hd Ht Hc1 Hc2 Hc3 Hc4 Hr1 Hr2 Hpre.
  rewrite (parse_consume _ _ _ _ _ H1), (parse_consume _ _ _ _ _ H2), <- Hs.
  set (this := self w1) in *.
  destruct (consume sequence cwd this pre) as [c0 st] eqn:C.
  destruct c0 as [[r |] | e |]; simpl in Hpre; try done.
  - pose proof (consume_help_prefix _ _ _ _
                  (("-" +:+ String c (String c' rest)) :: post) _ _ C) as E1.
    pose proof (consume_help_prefix _ _ _ _
                  (("-" +:+ String c EmptyString)
                   :: ("-" +:+ String c' rest) :: post) _ _ C) as E2.
    destruct (consume _ _ _ (pre ++ ("-" +:+ String c (String c' rest)) :: _))
      as [x1 s1].
    destruct (consume _ _ _ (pre ++ ("-" +:+ String c EmptyString) :: _))
      as [x2 s2].
    simpl in E1, E2. by subst.
  - pose proof (well_formed_consume _ _ _ _ _ _ Hc C) as W.
    destruct (consume_state _ _ _ _ _ _ C) as (Hself & _ & _).
    assert (is_help ("-" +:+ String c (String c' rest)) = false) as Hh1.
    { apply not_true_is_false. intros Hh. apply is_help_spec in Hh.
      destruct Hh as [[=] | [[=] | [= -> _]]]. done. }
    assert (is_help ("-" +:+ String c EmptyString) = false) as Hh2.
    { apply not_true_is_false. intros Hh. apply is_help_spec in Hh.
      by destruct Hh as [[=] | [[=] | [=]]]. }
    assert (is_help ("-" +:+ String c' rest) = false) as Hh3.
    { apply not_true_is_false. intros Hh. apply is_help_spec in Hh.
      destruct Hh as [[= -> ->] | [[= -> ->] | [= -> _]]]; done. }
    rewrite !(consume_app _ _ _ _ _ _ C), !resume_cons.
    rewrite (run_dispatch_flags _ c (String c' rest) Hc1 Hh1).
    rewrite (run_dispatch_flags _ c EmptyString Hc1 Hh2).
    rewrite !run_bind.
    destruct (ArgsParser.optionFlagMapping this) as [mapping |] eqn:Hf;
      [| done].
    simpl in Hg.
    destruct (HashTable.own "hasOwnProperty" mapping) eqn:Hsh.
    { rewrite (run_consumeFlags_shadowed
                 (set_array (args st) post st) c (String c' rest) mapping);
        [| simpl; by rewrite Hself | done].
      by rewrite (run_consumeFlags_shadowed
                    (set_array (args st) (("-" +:+ String c' rest) :: post)
                       st) c EmptyString mapping);
        [| simpl; by rewrite Hself |]. }
    rewrite (run_consumeFlags_toggle _ c (String c' rest) mapping name
               definition (well_formed_set_array st _ W)); try done;
      try (simpl; by rewrite Hself).
    rewrite (run_consumeFlags_toggle _ c EmptyString mapping name definition
               (well_formed_set_array st _ W)); try done;
      try (simpl; by rewrite Hself).
    change (consumeFlags EmptyString) with (@mret M _ unit ()).
    cbv [mret M_ret]. 
    set (B := toggled name definition
                (set_array (args st) (("-" +:+ String c' rest) :: post) st)).
    destruct (toggled_frame name definition
                (set_array (args st) (("-" +:+ String c' rest) :: post) st))
      as (TB & EB & _).
    fold B in TB, EB. rewrite tokens_set_array in TB.
    change (args (set_array (args st) (("-" +:+ String c' rest) :: post) st))
      with (args st) in EB.
    rewrite (run_while_cons _ _ _ _ TB), (run_turn _ _ _ TB).
    rewrite (run_dispatch_flags _ c' rest Hc4 Hh3), run_bind.
    rewrite EB. unfold B. rewrite toggled_set_array. done.
Qed.

Lemma cluster_splits_witness :
  run parser_ab ["x"; "1"; "-vc"; "3"] = run parser_ab ["x"; "1"; "-v"; "-c"; "3"].
Proof.
  apply (cluster_splits ["clime"] "/"
           1%positive (world_of parser_ab ["x"; "1"; "-vc"; "3"])
           1%positive (world_of parser_ab ["x"; "1"; "-v"; "-c"; "3"])
           ["x"; "1"] "v"%char "c"%char EmptyString "verbose" option_verbose
           ["3"]).
  - reflexivity.
  - reflexivity.
  - reflexivity.
  - reflexivity.
  - reflexivity.
  - reflexivity.
  - reflexivity.
  - discriminate.
  - discriminate.
  - discriminate.
  - discriminate.
  - discriminate.
  - discriminate.
  - vm_compute. exact I.
Defined.

(** X16: [validCommandNameRegex] accepts exactly the strings made of a
    word, one or more characters that are digits, letters or the
    underscore, followed by any number of further words, each behind
    one hyphen; so it accepts no string that begins with a dash, and a
    token the parser would take for an option or a request for help is
    no command name. *)
Theorem valid_command_names arg :
  (validCommandNameRegex_test arg = true ↔
   ∃ first others,
     word first ∧ Forall word others ∧
     arg = first +:+ hyphenated others) ∧
  (starts_with_dash arg = true → validCommandNameRegex_test arg = false) ∧
  (is_help arg = true → validCommandNameRegex_test arg = false).
Proof.
  assert (starts_with_dash arg = true →
          validCommandNameRegex_test arg = false) as Hd.
  { intros D. destruct (validCommandNameRegex_test arg) eqn:V; [| done].
    apply valid_name_no_dash in V. congruence. }
  split; [| split; [done |]].
  - split.
    + intros Hm. apply matches_from_inv in Hm
        as (first & others & Hf & Hne & Ho & ->).
      exists first, others. split; [| done]. split; [by apply Hne | done].
    + intros (first & others & Hf & Ho & ->).
      unfold validCommandNameRegex_test. rewrite matches_word by done.
      by apply matches_hyphenated.
  - intros Hh. apply Hd. by apply is_help_dash.
Qed.

Section cli_properties.
Context `{Node}.

(** X17: [preProcessArguments] loses no token and changes none: the
    command names it returns are the name of the interface followed by
    leading tokens of [argv] behind its first two elements, each a valid
    command name, and the arguments it returns are all the tokens
    behind them. *)
Theorem search_conserves_tokens this argv r this' :
  preProcessArguments this argv = inr (r, this') →
  ∃ accepted,
    Processed.commands r = CLI.name this :: accepted ∧
    drop 2 argv = accepted ++ Processed.args r ∧
    Forall (λ a, validCommandNameRegex_test a = true) accepted.
Proof. apply preProcessArguments_tokens. Qed.

(** X18: the path [preProcessArguments] returns is, when it took
    command names, one of the three possible paths of the names joined
    to the root, and it exists; with no name taken it is [default.js] of
    the root when that exists and the root otherwise.  The search is
    greedy: the first token left, if any, is no valid command name, or
    none of its three possible paths exists. *)
Theorem search_resolves_path this argv r this' :
  preProcessArguments this argv = inr (r, this') →
  let accepted := tail (Processed.commands r) in
  let entryPath := Path_join (CLI.root this) "default.js" in
  match accepted with
  | [] =>
    Processed.path r
    = if FS_existsSync entryPath then entryPath else CLI.root this
  | _ =>
    Processed.path r ∈ possiblePaths (joined (CLI.root this) accepted) ∧
    FS_existsSync (Processed.path r) = true
  end ∧
  match Processed.args r with
  | [] => True
  | arg :: _ =>
    validCommandNameRegex_test arg = false ∨
    ∀ p, p ∈ possiblePaths
               (Path_join (joined (CLI.root this) accepted) arg) →
         FS_existsSync p = false
  end.
Proof.
  intros Hr accepted entryPath. unfold preProcessArguments in Hr.
  set (targetPath := if FS_existsSync entryPath then entryPath
                     else CLI.root this).
  assert (r = let s := search (drop 2 argv) 2
                         (Walk.make [CLI.name this] (CLI.root this) 2
                            targetPath)
              in Processed.make (Walk.commands s)
                   (drop (Walk.argsIndex s) argv) (Walk.targetPath s))
    as Er.
  { unfold targetPath. fold entryPath in Hr.
    destruct (FS_existsSync entryPath).
    - destruct (require _); [| done]. by injection Hr as <- _.
    - by injection Hr as <- _. }
  cbv zeta in Er. unfold accepted. rewrite Er.
  cbn [Processed.commands Processed.args Processed.path].
  destruct (search_spec (drop 2 argv) 2
              (Walk.make [CLI.name this] (CLI.root this) 2 targetPath))
    as (acc & remaining & E & Hc & Hv & Hi & Hp & Hrem).
  rewrite Hc, Hi. cbn [Walk.argsIndex Walk.targetPath Walk.searchPath
                       Walk.commands app tail] in *.
  assert (drop match acc with [] => 2 | _ :: _ => 2 + length acc end argv
          = remaining) as ->.
  { destruct acc as [| a acc].
    - by rewrite E.
    - rewrite <- drop_drop, E. by rewrite drop_app_length. }
  split; [by destruct acc | done].
Qed.

(** X19: an option never passes for a command name: with a token that
    begins with a dash in [argv], behind its first two elements, that
    token and all the tokens behind it are among the arguments
    [preProcessArguments] returns, in their order and at the end, and the
    command names are taken from the tokens before it. *)
Theorem options_reach_the_parser this argv0 argv1 pre option post r this' :
  preProcessArguments this (argv0 :: argv1 :: pre ++ option :: post)
  = inr (r, this') →
  starts_with_dash option = true →
  ∃ k,
    k ≤ length pre ∧
    Processed.commands r = CLI.name this :: take k pre ∧
    Processed.args r = drop k pre ++ option :: post.
Proof.
  unfold preProcessArguments. intros Hr D.
  assert (∃ targetPath,
    r = let s := search (pre ++ option :: post) 2
                   (Walk.make [CLI.name this] (CLI.root this) 2 targetPath)
        in Processed.make (Walk.commands s)
             (drop (Walk.argsIndex s)
                (argv0 :: argv1 :: pre ++ option :: post))
             (Walk.targetPath s)) as [targetPath Er].
  { change (drop 2 (argv0 :: argv1 :: pre ++ option :: post))
      with (pre ++ option :: post) in Hr.
    destruct (FS_existsSync _).
    - destruct (require _); [| done]. injection Hr as <- _. by eexists.
    - injection Hr as <- _. by eexists. }
  cbv zeta in Er. rewrite Er. cbn [Processed.commands Processed.args].
  destruct (search_spec (pre ++ option :: post) 2
              (Walk.make [CLI.name this] (CLI.root this) 2 targetPath))
    as (acc & remaining & E & Hc & Hv & Hi & _).
  rewrite Hc, Hi. cbn [Walk.argsIndex Walk.commands app].
  assert (drop match acc with [] => 2 | _ :: _ => 2 + length acc end
            (argv0 :: argv1 :: pre ++ option :: post) = remaining) as ->.
  { destruct acc as [| a acc].
    - by rewrite E.
    - change (drop (2 + length (a :: acc))
                (argv0 :: argv1 :: pre ++ option :: post))
        with (drop (length (a :: acc)) (pre ++ option :: post)).
      rewrite E. by rewrite drop_app_length. }
  assert (length acc ≤ length pre) as Hle.
  { destruct (decide (length acc ≤ length pre)) as [| Hgt]; [done |].
    exfalso.
    assert (option ∈ acc) as Hin.
    { apply (f_equal (take (length acc))) in E.
      rewrite take_app_length, take_app_ge in E by lia.
      rewrite <- E. apply elem_of_app. right.
      destruct (length acc - length pre) as [| n] eqn:El; [lia |].
      simpl. by left. }
    rewrite Forall_forall in Hv. apply Hv in Hin.
    apply valid_name_no_dash in Hin. congruence. }
  exists (length acc). split; [done |].
  pose proof (f_equal (take (length acc)) E) as E1.
  pose proof (f_equal (drop (length acc)) E) as E2.
  rewrite take_app_length, take_app_le in E1 by done.
  rewrite drop_app_length, drop_app_le in E2 by done.
  by rewrite E1, E2.
Qed.


(** X21: the path [preProcessArguments] returns is never the empty
    string, for an interface made by the constructor, when
    [Path.resolve] and [Path.join] return no empty string, as those of
    Node do; so [execute] never finds [path] falsy, and its last branch,
    which throws [this.getHelp()], is never taken. *)
Theorem path_is_never_empty name root argv r this' :
  (∀ p, Path_resolve p ≠ EmptyString) →
  (∀ p q, Path_join p q ≠ EmptyString) →
  preProcessArguments (new_CLI name root) argv = inr (r, this') →
  Processed.path r ≠ EmptyString.
Proof.
  intros Hres Hjoin Hr. unfold preProcessArguments in Hr.
  set (this := new_CLI name root) in *.
  assert (∃ targetPath,
    targetPath ≠ EmptyString ∧
    r = let s := search (drop 2 argv) 2
                   (Walk.make [CLI.name this] (CLI.root this) 2 targetPath)
        in Processed.make (Walk.commands s)
             (drop (Walk.argsIndex s) argv) (Walk.targetPath s))
    as (targetPath & Hne & Er).
  { destruct (FS_existsSync _).
    - destruct (require _); [| done]. injection Hr as <- _.
      eexists. split; [apply Hjoin | done].
    - injection Hr as <- _. eexists. split; [apply Hres | done]. }
  cbv zeta in Er. rewrite Er. cbn [Processed.path].
  destruct (search_spec (drop 2 argv) 2
              (Walk.make [CLI.name this] (CLI.root this) 2 targetPath))
    as (acc & remaining & _ & _ & _ & _ & Hp & _).
  cbn [Walk.targetPath Walk.searchPath] in Hp.
  destruct acc as [| a acc]; [by rewrite Hp |].
  destruct Hp as [Hin _]. destruct (joined_cons (CLI.root this) a acc)
    as (p & q & Ej).
  rewrite Ej in Hin. unfold possiblePaths in Hin.
  apply elem_of_cons in Hin as [-> | Hin].
  { intros E. apply (Hjoin p q). by destruct (Path_join p q). }
  apply elem_of_cons in Hin as [-> | Hin]; [apply Hjoin |].
  apply elem_of_cons in Hin as [-> | Hin]; [apply Hjoin |].
  by apply elem_of_nil in Hin.
Qed.

(** X22: [execute] runs the command on the tokens behind the command
    names: when the path found is that of a file whose module is a
    command, the tokens of [argv] behind its first two elements are the
    command names taken followed by the tokens the parser of the command
    is run on, with the name of the interface and those names as its
    sequence; [execute] returns the help of the command when that run
    asks for help, what [execute] of the command returns on the
    arguments made of its result when it returns one, and throws what it
    throws.  The arrays of the caller are left as they were, and which
    location the array of the tokens is given does not matter. *)
Theorem execute_runs_the_command
    this argv cwd w r this' exported command :
  preProcessArguments this argv = inr (r, this') →
  Processed.path r ≠ EmptyString →
  FS_statSync_isFile (Processed.path r) = Some true →
  require (Processed.path r) = Some exported →
  Exported.command exported = Some command →
  let parser :=
    new_ArgsParser (Command.ref command) (Command.paramDefinitions command)
      (Command.paramsDefinition command) (Command.optionDefinitions command)
      (Command.requiredParamsNumber command) in
  ∃ accepted tokens,
    drop 2 argv = accepted ++ tokens ∧
    let sequence := CLI.name this :: accepted in
    (execute this argv cwd w).1.1 =
    match outcome (consume sequence cwd parser tokens) with
    | Normal result =>
      if help_requested result then
        Returned
          (ReplyHelp
             (Command_getHelp (Command.ref command) (Processed.path r)
                sequence))
      else
        match executeMethodArgs command result with
        | Some arguments =>
          Returned (ReplyResult (Command.execute command arguments))
        | None => Raised (ThrownException ETypeError)
        end
    | Throw e => Raised (ThrownException e)
    | Timeout => OutOfFuel
    end ∧
    (execute this argv cwd w).1.2 = this' ∧
    ∀ l, is_Some (arrays w !! l) →
         arrays (execute this argv cwd w).2 !! l = arrays w !! l.
Proof.
  intros Hpre Hne Hfile Hreq Hcmd parser.
  destruct (preProcessArguments_tokens _ _ _ _ Hpre)
    as (accepted & Hc & Hd & _).
  exists accepted, (Processed.args r). split; [done |]. cbv zeta.
  rewrite <- Hc. unfold execute. rewrite Hpre. cbv zeta.
  rewrite decide_False by done. rewrite Hfile. unfold slice.
  set (l := fresh (dom (arrays w))).
  set (w1 := {| arrays := <[l := Processed.args r]> (arrays w);
                self := self w |}).
  unfold loadCommand. rewrite Hreq, Hcmd. fold parser.
  set (w2 := {| arrays := arrays w1; self := parser |}).
  pose proof (parse_consume (Processed.commands r) l cwd w2
                (Processed.args r) (lookup_insert_eq _ _ _)) as E.
  change (self w2) with parser in E. rewrite <- E.
  pose proof (parse_frame (Processed.commands r) l cwd w2) as F.
  destruct (parse (Processed.commands r) l cwd w2) as [c w3].
  destruct (F c w3 eq_refl) as [_ Fl]. simpl.
  assert (∀ l', is_Some (arrays w !! l') →
                arrays w3 !! l' = arrays w !! l') as Hframe.
  { intros l' Hl'. assert (l' ≠ l) as Hneq.
    { intros ->. destruct Hl' as [x Hx].
      apply (is_fresh (dom (arrays w))). fold l. apply elem_of_dom. eauto. }
    rewrite Fl; simpl; rewrite lookup_insert_ne by done; done. }
  destruct c as [result | e |]; [| done | done].
  destruct (help_requested result); [done |].
  by destruct (executeMethodArgs command result).
Qed.

End cli_properties.

Lemma search_conserves_tokens_witness :
  ∃ accepted,
    ["clime"; "bar"] = "clime" :: accepted ∧
    drop 2 ["node"; "clime"; "bar"; "x"; "-v"] = accepted ++ ["x"; "-v"] ∧
    Forall (λ a, validCommandNameRegex_test a = true) accepted.
Proof.
  apply (@search_conserves_tokens sample_node
           (@new_CLI sample_node "clime" "/cli")
           ["node"; "clime"; "bar"; "x"; "-v"]
           (Processed.make ["clime"; "bar"] ["x"; "-v"] "/cli/bar/default.js")
           (@new_CLI sample_node "clime" "/cli")).
  vm_compute. reflexivity.
Defined.

Lemma search_resolves_path_witness :
  ("/cli/bar/default.js"
   ∈ @possiblePaths sample_node (@joined sample_node "/cli" ["bar"]) ∧
   @FS_existsSync sample_node "/cli/bar/default.js" = true) ∧
  (validCommandNameRegex_test "x" = false ∨
   ∀ p, p ∈ @possiblePaths sample_node
              (@Path_join sample_node (@joined sample_node "/cli" ["bar"]) "x") →
        @FS_existsSync sample_node p = false).
Proof.
  apply (@search_resolves_path sample_node
           (@new_CLI sample_node "clime" "/cli")
           ["node"; "clime"; "bar"; "x"; "-v"]
           (Processed.make ["clime"; "bar"] ["x"; "-v"] "/cli/bar/default.js")
           (@new_CLI sample_node "clime" "/cli")).
  vm_compute. reflexivity.
Defined.

Lemma options_reach_the_parser_witness :
  ∃ k,
    k ≤ length ["foo"] ∧
    ["clime"; "foo"] = "clime" :: take k ["foo"] ∧
    ["-v"; "bar"] = drop k ["foo"] ++ "-v" :: ["bar"].
Proof.
  apply (@options_reach_the_parser sample_node
           (@new_CLI sample_node "clime" "/cli") "node" "clime" ["foo"]
           "-v" ["bar"]
           (Processed.make ["clime"; "foo"] ["-v"; "bar"] "/cli/foo.js")
           (@new_CLI sample_node "clime" "/cli")).
  - vm_compute. reflexivity.
  - reflexivity.
Defined.


Lemma path_is_never_empty_witness :
  "/cli/bar/default.js" ≠ EmptyString.
Proof.
  apply (@path_is_never_empty sample_node "clime" "/cli"
           ["node"; "clime"; "bar"; "x"; "-v"]
           (Processed.make ["clime"; "bar"] ["x"; "-v"] "/cli/bar/default.js")
           (@new_CLI sample_node "clime" "/cli")).
  - intros p. simpl. destruct (bool_decide _) eqn:E; [| done].
    by destruct p.
  - intros p q. simpl. by destruct p.
  - vm_compute. reflexivity.
Defined.

Lemma execute_runs_the_command_witness :
  ∃ accepted tokens,
    drop 2 ["node"; "clime"; "foo"; "x"; "-v"] = accepted ++ tokens ∧
    (@execute sample_node (@new_CLI sample_node "clime" "/cli")
       ["node"; "clime"; "foo"; "x"; "-v"] "/" (world_of parser_a [])).1.1 =
    match
      outcome
        (consume ("clime" :: accepted) "/"
           (new_ArgsParser 2%positive
              (Some [ParamDefinition.make "name" Constructor.String VUndefined])
              None (Some [option_verbose]) 0) tokens)
    with
    | Normal result =>
      if help_requested result then
        Returned
          (ReplyHelp
             (Command_getHelp 2%positive "/cli/foo.js" ("clime" :: accepted)))
      else
        match executeMethodArgs command_foo result with
        | Some arguments =>
          Returned (ReplyResult (Command.execute command_foo arguments))
        | None => Raised (ThrownException ETypeError)
        end
    | Throw e => Raised (ThrownException e)
    | Timeout => OutOfFuel
    end ∧
    (@execute sample_node (@new_CLI sample_node "clime" "/cli")
       ["node"; "clime"; "foo"; "x"; "-v"] "/" (world_of parser_a [])).1.2
    = @new_CLI sample_node "clime" "/cli" ∧
    ∀ l, is_Some (arrays (world_of parser_a []) !! l) →
         arrays
           (@execute sample_node (@new_CLI sample_node "clime" "/cli")
              ["node"; "clime"; "foo"; "x"; "-v"] "/" (world_of parser_a [])).2
         !! l
         = arrays (world_of parser_a []) !! l.
Proof.
  apply (@execute_runs_the_command sample_node
           (@new_CLI sample_node "clime" "/cli")
           ["node"; "clime"; "foo"; "x"; "-v"] "/" (world_of parser_a [])
           (Processed.make ["clime"; "foo"] ["x"; "-v"] "/cli/foo.js")
           (@new_CLI sample_node "clime" "/cli")
           (Exported.make (Some "Foo description") (Some command_foo))
           command_foo).
  - vm_compute. reflexivity.
  - discriminate.
  - reflexivity.
  - reflexivity.
  - reflexivity.
Defined.

(** X23: once the tokens are consumed without an error, the checks run
    in a fixed order and the first to fail ends the call: with fewer
    positional values than the required number, [parse] throws the usage
    error naming, between back quotes and joined by a comma, the
    required parameters that are missing; otherwise, with names left in
    the table of the required options, it throws the usage error naming
    those that remain.  A failure of the first check is what is thrown
    whether or not required options remain.  The names that remain are
    those declared required, but for [__proto__], which the table never
    holds, less the ones marked required that some token supplies. *)
Theorem validation_order sequence a cwd w ts st :
  arrays w !! a = Some ts →
  consume sequence cwd (self w) ts = (Normal None, st) →
  let expecting := ArgsParser.requiredParamsNumber (self w) in
  let got := length (commandArgs st) in
  let definitions := default [] (ArgsParser.paramDefinitions (self w)) in
  let remaining := default [] (HashTable.keys <$> requiredOptionMap st) in
  (got < expecting →
   (parse sequence a cwd w).1 =
   Throw (usage_error (self w)
     ("Expecting argument(s) " +:+
      JS.join ", "
        (quote <$> (ParamDefinition.name
                    <$> take (expecting - got) (drop got definitions)))))) ∧
  (expecting ≤ got → remaining ≠ [] →
   (parse sequence a cwd w).1 =
   Throw (usage_error (self w)
     ("Missing required option(s) " +:+ JS.join ", " (quote <$> remaining)))) ∧
  (∀ name, name ∈ remaining ↔
     declared_required (self w) name ∧ name ≠ "__proto__" ∧
     ¬ ∃ token, token ∈ ts ∧ supplies (self w) token name ∧
                marked_required (self w) name).
Proof.
  intros Ha C expecting got definitions remaining.
  rewrite (parse_consume _ _ _ _ _ Ha), C. simpl.
  destruct (consume_state _ _ _ _ _ _ C) as (Hs & (consumed & Hd & Hl) & _).
  rewrite run_finish. cbv zeta. rewrite Hs.
  fold expecting got. split; [| split].
  - intros Hlt. apply Nat.ltb_lt in Hlt. rewrite Hlt. simpl.
    unfold paramDefinitions in Hd. rewrite Hs in Hd. fold definitions in Hd.
    unfold got. rewrite Hd, <- Hl, drop_app_length, <- list_fmap_compose.
    done.
  - intros Hle Hr. apply Nat.ltb_ge in Hle. rewrite Hle. unfold remaining in *.
    destruct (HashTable.keys <$> requiredOptionMap st) as [[| name names] |];
      try done.
    change (default [] (Some (name :: names))) with (name :: names).
    by rewrite <- join_quoted.
  - intros name. unfold remaining.
    rewrite (remaining_required sequence cwd (self w) ts st name C). tauto.
Qed.

Lemma validation_order_witness :
  run parser_ab []
  = Throw (usage_error parser_ab "Expecting argument(s) `a`, `b`") ∧
  run parser_key ["x"]
  = Throw (usage_error parser_key "Missing required option(s) `key`").
Proof.
  split.
  - destruct (validation_order ["clime"] 1%positive "/"
                (world_of parser_ab []) []
                (consume ["clime"] "/" parser_ab []).2) as (H & _ & _).
    + reflexivity.
    + vm_compute. reflexivity.
    + unfold run. rewrite H; [reflexivity |]. vm_compute. lia.
  - destruct (validation_order ["clime"] 1%positive "/"
                (world_of parser_key ["x"]) ["x"]
                (consume ["clime"] "/" parser_key ["x"]).2) as (_ & H & _).
    + reflexivity.
    + vm_compute. reflexivity.
    + unfold run. rewrite H; [reflexivity | vm_compute; lia |].
      vm_compute. discriminate.
Defined.

(** X24: a non-toggle option met as a long option, behind tokens
    consumed with no error (a token [--name] for a name that is a
    property of the map of the option definitions, a map with no
    property [hasOwnProperty]; [--help] is a request for help and no
    option) takes the next token as its value: with no next token
    [parse] throws the usage error that expects a value; with a next
    token that begins with a dash, the one that expects a value instead
    of an option or toggle; otherwise the token is removed, the loop
    going on behind it, cast to the declared type of the option, and
    stored as the value of the option, the other options and the
    positional values being left as they were. *)
Theorem long_option_takes_next_token
    sequence a cwd w pre name map definition rest st :
  constructed (self w) →
  arrays w !! a = Some (pre ++ ("--" +:+ name) :: rest) →
  consume sequence cwd (self w) pre = (Normal None, st) →
  name ≠ "help" →
  ArgsParser.optionDefinitionMap (self w) = Some map →
  HashTable.hasOwnProperty name map = Some true →
  HashTable.get name map = Some definition →
  OptionDefinition.toggle definition = false →
  match rest with
  | [] =>
    (parse sequence a cwd w).1 =
    Throw (usage_error (self w)
      ("Expecting value for option `" +:+ name +:+ "`"))
  | value :: rest' =>
    if starts_with_dash value then
      (parse sequence a cwd w).1 =
      Throw (usage_error (self w)
        ("Expecting a value instead of an option or toggle " +:+ JS.dquote
         +:+ value +:+ JS.dquote +:+ " for option `" +:+ name +:+ "`"))
    else
      ∃ st',
        consume sequence cwd (self w) (pre ++ [("--" +:+ name); value])
        = (Normal None, st') ∧
        (parse sequence a cwd w).1 = outcome (resume st' rest') ∧
        option_value st' name
        = Some (cast_in st value (OptionDefinition.type definition)) ∧
        (∀ n, n ≠ name → option_value st' n = option_value st n) ∧
        requiredOptionMap st'
        = requiredOptionMap (satisfied name definition st) ∧
        commandArgs st' = commandArgs st ∧
        commandExtraArgs st' = commandExtraArgs st ∧
        pendingParamDefinitions st' = pendingParamDefinitions st
  end.
Proof.
  intros Hc Ha C Hn Hm Hh Hg Ht.
  pose proof (well_formed_consume _ _ _ _ _ _ Hc C) as W.
  destruct (consume_state _ _ _ _ _ _ C) as (Hself & _ & _).
  destruct (well_formed_tables st W) as [[options Ho] _];
    [rewrite Hself, Hm; eauto |].
  assert (∀ ts, dispatch ("--" +:+ name) (set_array (args st) ts st) =
                (consumeOption name definition ≫= λ _, mret None)
                  (satisfied name definition (set_array (args st) ts st)))
    as Hdis.
  { intros ts. apply (run_dispatch_long_option _ name map definition);
      try done; [by apply well_formed_set_array | simpl; by rewrite Hself]. }
  rewrite (parse_consume _ _ _ _ _ Ha).
  destruct rest as [| value rest'].
  - rewrite (consume_app _ _ _ _ _ _ C), resume_cons, Hdis, run_bind.
    rewrite option_missing. simpl. by rewrite Hself.
  - destruct (starts_with_dash value) eqn:D.
    + rewrite (consume_app _ _ _ _ _ _ C), resume_cons, Hdis, run_bind.
      pose proof (option_dash name definition st value rest' D) as E.
      destruct (consumeOption _ _ _) as [c s]. simpl in E. subst c.
      simpl. by rewrite Hself.
    + destruct (option_taken name definition st value [] options Ho D)
        as (st' & E & Hfix & Ea & Hs & Hopt & Hr & Hca & Hx & Hp).
      assert (consume sequence cwd (self w) (pre ++ ["--" +:+ name; value])
              = (Normal None, st')) as C'.
      { rewrite (consume_app _ _ _ _ _ _ C), resume_cons, Hdis, run_bind, E.
        cbv [mret M_ret]. rewrite run_while_nil; [done |].
        rewrite <- Hfix. apply tokens_set_array. }
      exists st'. split; [done |]. split.
      { change (pre ++ ("--" +:+ name) :: value :: rest')
          with (pre ++ ["--" +:+ name; value] ++ rest').
        by rewrite app_assoc, (consume_app _ _ _ _ _ _ C'). }
      unfold option_value. rewrite Hopt, Ho. simpl.
      split; [apply get_set_eq; by apply (hasOwnProperty_name _ _ Hh) |].
      split; [intros n Hne; by apply get_set_ne |]. done.
Qed.

Lemma long_option_takes_next_token_witness :
  let st := (consume ["clime"] "/" parser_ab ["x"]).2 in
  ∃ st',
    consume ["clime"] "/" parser_ab (["x"] ++ ["--count"; "3"])
    = (Normal None, st') ∧
    run parser_ab ["x"; "--count"; "3"; "4"] = outcome (resume st' ["4"]) ∧
    option_value st' "count" = Some (cast_in st "3" Constructor.Number) ∧
    (∀ n, n ≠ "count" → option_value st' n = option_value st n) ∧
    requiredOptionMap st'
    = requiredOptionMap (satisfied "count" option_count st) ∧
    commandArgs st' = commandArgs st ∧
    commandExtraArgs st' = commandExtraArgs st ∧
    pendingParamDefinitions st' = pendingParamDefinitions st.
Proof.
  intros st.
  apply (long_option_takes_next_token ["clime"] 1%positive "/"
           (world_of parser_ab ["x"; "--count"; "3"; "4"]) ["x"] "count"
           [("verbose", option_verbose); ("count", option_count)]
           option_count ["3"; "4"] st).
  - reflexivity.
  - reflexivity.
  - vm_compute. reflexivity.
  - discriminate.
  - reflexivity.
  - reflexivity.
  - reflexivity.
  - reflexivity.
Defined.

(** X25: a token that begins with one dash, and not two, and is no
    request for help, met behind tokens consumed with no error by a
    parser no flag of which is [hasOwnProperty], has the characters
    after the dash taken as flags from left to right: [parse] completes
    as the loop taken up again within the cluster does, and from any
    state of the call the first flag still to be consumed does this.  A
    character that is no flag makes [parse] throw the usage error of
    the unknown flag; the flag of a toggle sets it to [true], when its
    name is not [__proto__], and the cluster goes on with the flags
    behind it; the flag of a non-toggle option that is not the last of
    the cluster makes [parse] throw the usage error on the last flag; as
    the last one it takes the next token as the value of the option:
    with no next token [parse] throws the usage error that expects a
    value; with one that begins with a dash, the one that expects a
    value instead of an option or toggle; otherwise the token is
    removed, the loop going on behind it, cast to the declared type of
    the option and stored as its value, when its name is not
    [__proto__].  With no flag left the loop goes on with the next
    token. *)
Theorem flag_cluster_left_to_right sequence a cwd w pre c rest post st :
  constructed (self w) →
  arrays w !! a = Some (pre ++ ("-" +:+ String c rest) :: post) →
  consume sequence cwd (self w) pre = (Normal None, st) →
  c ≠ "-"%char → is_help ("-" +:+ String c rest) = false →
  (∀ mapping, ArgsParser.optionFlagMapping (self w) = Some mapping →
              HashTable.own "hasOwnProperty" mapping = false) →
  (parse sequence a cwd w).1 = outcome (resume_flags st (String c rest) post) ∧
  well_formed st ∧ self (world st) = self w ∧
  ∀ s,
    well_formed s → self (world s) = self w →
    resume_flags s EmptyString post = resume s post ∧
    ∀ f more,
      let flag := String f EmptyString in
      match ArgsParser.optionFlagMapping (self w) ≫= HashTable.get flag with
      | None =>
        outcome (resume_flags s (String f more) post) =
        Throw (usage_error (self w)
          ("Unknown option flag " +:+ JS.dquote +:+ flag +:+ JS.dquote))
      | Some name =>
        ∃ definition,
          ArgsParser.optionDefinitionMap (self w) ≫= HashTable.get name
          = Some definition ∧
          if OptionDefinition.toggle definition then
            let s' := toggled name definition s in
            resume_flags s (String f more) post = resume_flags s' more post ∧
            well_formed s' ∧ self (world s') = self w ∧
            (name ≠ "__proto__" →
             option_value s' name = Some (VBoolean true)) ∧
            (∀ n, n ≠ name → option_value s' n = option_value s n) ∧
            requiredOptionMap s'
            = requiredOptionMap (satisfied name definition s) ∧
            commandArgs s' = commandArgs s ∧
            commandExtraArgs s' = commandExtraArgs s ∧
            pendingParamDefinitions s' = pendingParamDefinitions s
          else
            match more, post with
            | String _ _, _ =>
              outcome (resume_flags s (String f more) post) =
              Throw (usage_error (self w)
                "Only the last flag in a sequence can refer to an option instead of a toggle")
            | EmptyString, [] =>
              outcome (resume_flags s (String f more) post) =
              Throw (usage_error (self w)
                ("Expecting value for option `" +:+ name +:+ "`"))
            | EmptyString, value :: post' =>
              if starts_with_dash value then
                outcome (resume_flags s (String f more) post) =
                Throw (usage_error (self w)
                  ("Expecting a value instead of an option or toggle "
                   +:+ JS.dquote +:+ value +:+ JS.dquote
                   +:+ " for option `" +:+ name +:+ "`"))
              else
                ∃ s',
                  resume_flags s (String f more) post = resume s' post' ∧
                  (name ≠ "__proto__" →
                   option_value s' name
                   = Some (cast_in s value
                             (OptionDefinition.type definition))) ∧
                  (∀ n, n ≠ name → option_value s' n = option_value s n) ∧
                  requiredOptionMap s'
                  = requiredOptionMap (satisfied name definition s) ∧
                  commandArgs s' = commandArgs s ∧
                  commandExtraArgs s' = commandExtraArgs s ∧
                  pendingParamDefinitions s' = pendingParamDefinitions s
            end
      end.
Proof.
  intros Hc Ha C Hd Hh Hsh.
  pose proof (well_formed_consume _ _ _ _ _ _ Hc C) as W.
  destruct (consume_state _ _ _ _ _ _ C) as (Hself & _ & _).
  split.
  { by rewrite (parse_consume _ _ _ _ _ Ha), (consume_app _ _ _ _ _ _ C),
      (resume_dash_flags _ _ _ _ Hd Hh). }
  split; [done |]. split; [done |].
  clear dependent st. clear dependent pre. clear Hd Hh c rest.
  intros s W Hself. split; [done |]. intros f more flag.
  pose proof (well_formed_set_array s post W) as W1.
  destruct (ArgsParser.optionFlagMapping (self w)) as [mapping |] eqn:Hf.
  2:{ simpl. unfold resume_flags.
      rewrite run_consumeFlags_undefined by (simpl; by rewrite Hself).
      simpl. by rewrite Hself. }
  simpl.
  pose proof (run_consumeFlags_flag (set_array (args s) post s) f more mapping
                W1) as H.
  cbv zeta in H. fold flag in H.
  specialize (H ltac:(simpl; by rewrite Hself) (Hsh _ eq_refl)).
  destruct (HashTable.get flag mapping) as [name |] eqn:Hg.
  2:{ unfold resume_flags. rewrite H. simpl. by rewrite Hself. }
  destruct H as (map & definition & options & Hm & Hdef & Ho & H).
  simpl in Hm, Ho. rewrite Hself in Hm.
  exists definition. rewrite Hm. split; [done |].
  destruct (OptionDefinition.toggle definition) eqn:Ht.
  - cbv zeta. split.
    { unfold resume_flags. rewrite H.
      destruct (toggled_frame name definition s) as (_ & -> & _).
      rewrite set_array_toggled. unfold toggled.
      change (commandOptions (set_array (args s) post s))
        with (commandOptions s).
      by rewrite Ho. }
    split; [apply well_formed_toggled; eauto |].
    split;
      [exact (eq_trans (proj2 (proj2 (toggled_frame name definition s)))
                Hself) |].
    apply toggled_value. eauto.
  - destruct more as [| f' more'].
    + destruct post as [| value post'].
      * unfold resume_flags. rewrite H, option_missing. simpl.
        by rewrite Hself.
      * destruct (starts_with_dash value) eqn:D.
        -- pose proof (option_dash name definition s value post' D) as E.
           unfold resume_flags. rewrite H.
           destruct (consumeOption _ _ _) as [x s0]. simpl in E. subst x.
           simpl. by rewrite Hself.
        -- destruct (option_taken name definition s value post' options Ho D)
             as (s' & E & Hfix & Ea & Hs & Hopt & Hr & Hca & Hx & Hp).
           exists s'. split.
           { unfold resume_flags. rewrite H, E. unfold resume.
             rewrite Hfix. apply while_fuel with post'; [| simpl; lia | lia].
             rewrite <- Hfix. apply tokens_set_array. }
           unfold option_value. rewrite Hopt, Ho. simpl.
           split; [intros Hp'; by apply get_set_eq |].
           split; [intros n Hne; by apply get_set_ne |]. done.
    + unfold resume_flags. rewrite H. simpl. by rewrite Hself.
Qed.

Lemma flag_cluster_left_to_right_witness :
  let st := (consume ["clime"] "/" parser_ab ["x"; "1"]).2 in
  ∃ s',
    run parser_ab ["x"; "1"; "-vc"; "3"; "4"] = outcome (resume s' ["4"]) ∧
    option_value s' "verbose" = Some (VBoolean true) ∧
    option_value s' "count" = Some (VNumber (JS.Number "3")) ∧
    commandArgs s' = commandArgs st.
Proof.
  intros st.
  destruct (flag_cluster_left_to_right ["clime"] 1%positive "/"
              (world_of parser_ab ["x"; "1"; "-vc"; "3"; "4"]) ["x"; "1"]
              "v"%char "c" ["3"; "4"] st)
    as (P & W & Hs & H).
  - reflexivity.
  - reflexivity.
  - vm_compute. reflexivity.
  - discriminate.
  - reflexivity.
  - intros mapping [= <-]. reflexivity.
  - destruct (H st W Hs) as [_ Hv]. specialize (Hv "v"%char "c").
    destruct Hv as (d & [= <-] & Hv). simpl in Hv.
    destruct Hv as (E1 & W1 & Hs1 & Hv1 & Hk1 & _ & Ha1 & _).
    destruct (H _ W1 Hs1) as [_ Hc]. specialize (Hc "c"%char EmptyString).
    destruct Hc as (d & [= <-] & s' & E2 & Hv2 & Hk2 & _ & Ha2 & _).
    exists s'. split; [by rewrite <- E2, <- E1 |].
    split; [rewrite Hk2 by discriminate; apply Hv1; discriminate |].
    split; [apply Hv2; discriminate |]. by rewrite Ha2.
Defined.
